(** * SigmaPilot leaderboard scorer: a shallow embedding

    The development embeds the scoring module ([computePerformanceScore] and
    its helpers) and the leaderboard service of [hl-scout]
    ([scoreEntries], [refreshPeriod], [applyStatsToEntry],
    [fetchAddressStat], [requestJson], [parseHistoryPoints],
    [mergeHistories], [insertPnlPointsInTransaction]) and proves the
    properties of the specification about them.  It goes on to the rest of
    the two modules ([rankAccounts], [selectAndRankAccounts],
    [mapToAccountStats], [fetchPeriod], the two batches of requests,
    [persistPeriod], [computeConsistency],
    [fetchAndStoreCustomAccountStats]) and to properties that the code
    shows beyond the specification.

    Numbers.  The source computes with IEEE-754 doubles.  The embedding
    keeps the three kinds of non-finite value apart ([NaN], [PInf], [NInf])
    and computes finite values exactly in [Q]: there is no rounding, no
    overflow of a finite operation and no negative zero.  Every branch of
    the source that tests for NaN or infinity is kept.  A statement that
    holds of the doubles only while a difference or a sum stays finite
    carries that as a hypothesis ([inDoubleRange]).

    Runtime.  [Math.sqrt], [Math.exp], [Math.log10], [parseFloat] and the
    String-to-Number conversion are functions of the JavaScript runtime;
    they are fields of the record [Runtime], and the special-value cases
    that ECMAScript fixes are written out around them.  A conversion of a
    decoded value that throws a TypeError ([throwsTypeError]) is a thrown
    outcome of the function that makes it. *)

From Stdlib Require Import QArith Qround Qabs ZArith List String Ascii Bool Lia Lqa.
From Stdlib Require Import Sorted Permutation SetoidList SetoidPermutation.
Import ListNotations.

Set Warnings "-register-all".
Open Scope Q_scope.

(* ================================================================== *)
(** ** JavaScript numbers *)
(* ================================================================== *)

Module JS.

Inductive num : Type :=
| NaN
| PInf
| NInf
| Fin (q : Q).

Definition zero : num := Fin 0.
Definition one : num := Fin 1.

(** [Number.isFinite]. *)
Definition isFinite (n : num) : bool :=
  match n with Fin _ => true | _ => false end.

Definition isNaN (n : num) : bool :=
  match n with NaN => true | _ => false end.

(** IEEE comparison: [None] when an operand is NaN. *)
Definition compare (a b : num) : option comparison :=
  match a, b with
  | NaN, _ | _, NaN => None
  | PInf, PInf => Some Eq
  | PInf, _ => Some Gt
  | _, PInf => Some Lt
  | NInf, NInf => Some Eq
  | NInf, _ => Some Lt
  | _, NInf => Some Gt
  | Fin x, Fin y => Some (x ?= y)
  end.

(** [a < b], [a > b], [a <= b], [a >= b], [a === b]. *)
Definition lt (a b : num) : bool :=
  match compare a b with Some Lt => true | _ => false end.
Definition gt (a b : num) : bool := lt b a.
Definition le (a b : num) : bool :=
  match compare a b with Some Lt | Some Eq => true | _ => false end.
Definition ge (a b : num) : bool := le b a.
Definition eq (a b : num) : bool :=
  match compare a b with Some Eq => true | _ => false end.

(** Sign of a number, zero counted as positive zero. *)
Definition negative (a : num) : bool := lt a zero.
Definition is_zero (a : num) : bool := eq a zero.

Definition neg (a : num) : num :=
  match a with
  | NaN => NaN
  | PInf => NInf
  | NInf => PInf
  | Fin q => Fin (- q)
  end.

Definition add (a b : num) : num :=
  match a, b with
  | NaN, _ | _, NaN => NaN
  | PInf, NInf | NInf, PInf => NaN
  | PInf, _ | _, PInf => PInf
  | NInf, _ | _, NInf => NInf
  | Fin x, Fin y => Fin (x + y)
  end.

Definition sub (a b : num) : num := add a (neg b).

Definition signed_inf (negative_result : bool) : num :=
  if negative_result then NInf else PInf.

Definition mul (a b : num) : num :=
  match a, b with
  | NaN, _ | _, NaN => NaN
  | Fin x, Fin y => Fin (x * y)
  | _, _ =>
      if is_zero a || is_zero b then NaN
      else signed_inf (xorb (negative a) (negative b))
  end.

Definition div (a b : num) : num :=
  match a, b with
  | NaN, _ | _, NaN => NaN
  | Fin x, Fin y =>
      if Qeq_bool y 0 then
        (if Qeq_bool x 0 then NaN else signed_inf (negative a))
      else Fin (x / y)
  | Fin _, _ => zero
  | _, Fin _ => signed_inf (xorb (negative a) (negative b))
  | _, _ => NaN
  end.

(** [Math.max] and [Math.min] of two arguments: NaN if either is NaN. *)
Definition max (a b : num) : num :=
  match compare a b with
  | None => NaN
  | Some Lt => b
  | Some _ => a
  end.

Definition min (a b : num) : num :=
  match compare a b with
  | None => NaN
  | Some Gt => b
  | Some _ => a
  end.

Definition abs (a : num) : num :=
  match a with
  | NaN => NaN
  | PInf | NInf => PInf
  | Fin q => Fin (Qabs q)
  end.

(** [Math.round]: the nearest integer, ties towards +infinity. *)
Definition round (a : num) : num :=
  match a with
  | Fin q => Fin (inject_Z (Qfloor (q + 0.5)))
  | other => other
  end.

(** ToBoolean of a number: [0] and NaN are falsy. *)
Definition truthy (a : num) : bool :=
  match a with
  | NaN => false
  | Fin q => negb (Qeq_bool q 0)
  | _ => true
  end.

(** [a || b] on numbers. *)
Definition or_else (a b : num) : num := if truthy a then a else b.

(** SameValueZero, the key equality of [Map] and of [Array.includes]. *)
Definition sameValueZero (a b : num) : bool :=
  match a, b with
  | NaN, NaN => true
  | _, _ => eq a b
  end.

(** The number of a [nat] (array lengths, counters). *)
Definition of_nat (n : nat) : num := Fin (inject_Z (Z.of_nat n)).

(** [x ?? d] on an optional value. *)
Definition nullish {A : Type} (x : option A) (d : A) : A :=
  match x with Some v => v | None => d end.

(** A value decoded by [JSON.parse] (or [undefined], for an absent
    property or array index).  A numeric literal too large for a double,
    such as [1e999], is decoded as [JNumber PInf]. *)
Inductive JsVal : Type :=
| JUndefined
| JNull
| JBool (b : bool)
| JNumber (n : num)
| JString (s : string)
| JArray (items : list JsVal)
| JObject (props : list (string * JsVal)).

(** Whether the conversion of a decoded value to a primitive throws a
    TypeError.  [Number(v)] and [String(v)] convert an object through its
    [valueOf] and [toString].  A decoded object inherits both from
    [Object.prototype], whose [valueOf] returns the object itself, unless
    it has an own property of that name; an own property is a decoded
    value, never a function, so an object with an own [toString] has no
    method that yields a primitive and the conversion throws.  An array is
    converted by [join], which converts every element but [null] and
    [undefined] to a string. *)
Fixpoint throwsTypeError (v : JsVal) : bool :=
  match v with
  | JObject props => existsb (fun p => String.eqb (fst p) "toString") props
  | JArray items => existsb throwsTypeError items
  | _ => false
  end.

(** Parameters of the embedding: the numeric library of the runtime on
    finite arguments, and the conversions between strings, objects and
    numbers where they do not throw. *)
Record Runtime : Type := {
  sqrtQ : Q -> Q;                 (* Math.sqrt on a finite x >= 0 *)
  expQ : Q -> Q;                  (* Math.exp on a finite x *)
  log10Q : Q -> Q;                (* Math.log10 on a finite x > 0 *)
  parseFloat : string -> num;
  StringToNumber : string -> num; (* Number(s) for a string s *)
  ObjectToNumber : JsVal -> num;  (* Number(v) for an array or object v *)
  ToStringOther : JsVal -> string (* String(v) for v not a string *)
}.

Section Math.
Variable rt : Runtime.

Definition sqrt (a : num) : num :=
  match a with
  | NaN | NInf => NaN
  | PInf => PInf
  | Fin q => if Qlt_le_dec q 0 then NaN else Fin (sqrtQ rt q)
  end.

Definition exp (a : num) : num :=
  match a with
  | NaN => NaN
  | PInf => PInf
  | NInf => zero
  | Fin q => Fin (expQ rt q)
  end.

Definition log10 (a : num) : num :=
  match a with
  | NaN | NInf => NaN
  | PInf => PInf
  | Fin q =>
      if Qlt_le_dec q 0 then NaN
      else if Qeq_bool q 0 then NInf
      else Fin (log10Q rt q)
  end.

(** [Number(v)]: [None] when the conversion throws a TypeError. *)
Definition Number (v : JsVal) : option num :=
  match v with
  | JUndefined => Some NaN
  | JNull => Some zero
  | JBool b => Some (if b then one else zero)
  | JNumber n => Some n
  | JString s => Some (StringToNumber rt s)
  | JArray _ | JObject _ =>
      if throwsTypeError v then None else Some (ObjectToNumber rt v)
  end.

(** [String(v)]: [None] when the conversion throws a TypeError. *)
Definition ToString (v : JsVal) : option string :=
  match v with
  | JString s => Some s
  | other => if throwsTypeError other then None else Some (ToStringOther rt other)
  end.
End Math.

(** ToBoolean of a decoded value. *)
Definition truthyVal (v : JsVal) : bool :=
  match v with
  | JUndefined | JNull => false
  | JBool b => b
  | JNumber n => truthy n
  | JString s => negb (String.eqb s EmptyString)
  | JArray _ | JObject _ => true
  end.

Fixpoint lookupProp (key : string) (props : list (string * JsVal)) : JsVal :=
  match props with
  | [] => JUndefined
  | (k, v) :: rest => if String.eqb k key then v else lookupProp key rest
  end.

(** [v.key] for one of the property names the service reads ([data],
    [value], [winRate], [pnlHistory], ...): none of them is defined on the
    prototypes of arrays, strings, numbers or booleans, so only an object
    can answer with something else than [undefined].  The receiver is not
    [null] or [undefined] at any call site. *)
Definition getProp (v : JsVal) (key : string) : JsVal :=
  match v with
  | JObject props => lookupProp key props
  | _ => JUndefined
  end.

(** [v?.key]. *)
Definition getPropOpt (v : JsVal) (key : string) : JsVal :=
  match v with
  | JUndefined | JNull => JUndefined
  | other => getProp other key
  end.

(** [a[i]] on an array. *)
Definition index (items : list JsVal) (i : nat) : JsVal := nth i items JUndefined.

(** [String.prototype.toLowerCase] on the ASCII letters. *)
Definition lowerAscii (c : ascii) : ascii :=
  let n := nat_of_ascii c in
  if ((65 <=? n) && (n <=? 90))%nat then ascii_of_nat (n + 32) else c.

Fixpoint toLowerCase (s : string) : string :=
  match s with
  | EmptyString => EmptyString
  | String.String c rest => String.String (lowerAscii c) (toLowerCase rest)
  end.

(** [Array.prototype.map] with the index passed to the callback. *)
Fixpoint mapiFrom {A B : Type} (f : A -> nat -> B) (i : nat) (l : list A) : list B :=
  match l with
  | [] => []
  | x :: rest => f x i :: mapiFrom f (S i) rest
  end.

Definition mapi {A B : Type} (f : A -> nat -> B) (l : list A) : list B :=
  mapiFrom f 0 l.

(** [Array.prototype.sort(cmp)]: a stable sort; an element moves behind a
    later one only when the comparator is positive.  The comparators of the
    service are differences of finite numbers, for which the result of a
    stable sort is unique. *)
Fixpoint insertSorted {A : Type} (cmp : A -> A -> num) (x : A) (l : list A) : list A :=
  match l with
  | [] => [x]
  | y :: rest =>
      if gt (cmp x y) zero then y :: insertSorted cmp x rest else x :: l
  end.

Definition sort {A : Type} (cmp : A -> A -> num) (l : list A) : list A :=
  fold_right (insertSorted cmp) [] l.

(** [clamp] of the service: [Math.min(max, Math.max(min, value))]. *)
Definition clamp (value lo hi : num) : num := min hi (max lo value).

End JS.

Import JS.

Declare Scope num_scope.
Delimit Scope num_scope with num.
Bind Scope num_scope with num.
Infix "+" := JS.add : num_scope.
Infix "-" := JS.sub : num_scope.
Infix "*" := JS.mul : num_scope.
Infix "/" := JS.div : num_scope.
Infix "<?" := JS.lt : num_scope.
Infix ">?" := JS.gt : num_scope.
Infix "<=?" := JS.le : num_scope.
Infix ">=?" := JS.ge : num_scope.
Infix "===" := JS.eq (at level 70, no associativity) : num_scope.
Notation "x ?? d" := (JS.nullish x d) (at level 45, left associativity).

Notation "0" := JS.zero : num_scope.
Notation "1" := JS.one : num_scope.

(* ================================================================== *)
(** ** The scoring module *)
(* ================================================================== *)

Module Scoring.

Record ScoringParams : Type := {
  smoothPnlWeight : num;
  winRateWeight : num;
  pnlWeight : num;
  tradeFreqWeight : num;
  optimalTrades : num;
  tradeSigma : num;
  pnlReference : num;
  maxDrawdownLimit : num;
  scalpingThreshold : num
}.

Definition DEFAULT_SCORING_PARAMS : ScoringParams := {|
  smoothPnlWeight := Fin 0.45;
  winRateWeight := Fin 0.30;
  pnlWeight := Fin 0.15;
  tradeFreqWeight := Fin 0.10;
  optimalTrades := Fin 100;
  tradeSigma := Fin 150;
  pnlReference := Fin 100000;
  maxDrawdownLimit := Fin 0.80;
  scalpingThreshold := Fin 100
|}.

(** [number | string], the type of a point's value. *)
Inductive NumOrStr : Type :=
| NS_num (n : num)
| NS_str (s : string).

(** [PnlPoint]: a bare number, a [[timestamp, pnl]] tuple, or an object
    with optional [timestamp], [value] and [pnl]. *)
Inductive PnlPoint : Type :=
| Pt_number (n : num)
| Pt_tuple (ts : num) (v : NumOrStr)
| Pt_object (timestamp : option num) (value pnl : option NumOrStr).

Record AccountStats : Type := {
  realizedPnl : num;
  numTrades : num;
  numWins : num;
  numLosses : num;
  pnlList : option (list PnlPoint)
}.

Inductive FilterReason : Type :=
| max_drawdown_exceeded
| scalping_penalty.

Record WeightedComponents : Type := {
  wc_smoothPnl : num;
  wc_winRate : num;
  wc_pnl : num;
  wc_tradeFreq : num
}.

Record ScoringDetails : Type := {
  smoothPnlScore : num;
  maxDrawdown : num;
  rawWinRate : num;
  adjWinRate : num;
  normalizedPnl : num;
  tradeFreqScore : num;
  weightedComponents : WeightedComponents
}.

Record ScoringResult : Type := {
  score : num;
  filtered : bool;
  filterReason : option FilterReason;
  details : ScoringDetails
}.

Record SmoothPnlResult : Type := {
  sp_score : num;
  sp_maxDrawdown : num;
  sp_ulcerIndex : num;
  sp_upFraction : num
}.

Definition zeroSmoothPnl : SmoothPnlResult :=
  {| sp_score := 0; sp_maxDrawdown := 0; sp_ulcerIndex := 0; sp_upFraction := 0 |}.

(** The raw value of a point: the last element of a tuple,
    [pt.pnl ?? pt.value] of an object, the point itself otherwise. *)
Definition pointValue (pt : PnlPoint) : option NumOrStr :=
  match pt with
  | Pt_tuple _ v => Some v
  | Pt_object _ value pnl =>
      match pnl with Some p => Some p | None => value end
  | Pt_number n => Some (NS_num n)
  end.

(** State of the drawdown loop: [peak], [mdd], [ddSqSum]. *)
Record DrawdownState : Type := {
  peak : num;
  mdd : num;
  ddSqSum : num
}.

Definition drawdownStep (st : DrawdownState) (xi : num) : DrawdownState :=
  let peak' := if (xi >? peak st)%num then xi else peak st in
  let dd :=
    if (peak' >? 0)%num then
      let d := ((peak' - xi) / peak')%num in
      if (d <? 0)%num then 0%num else d
    else 0%num in
  {| peak := peak';
     mdd := JS.max (mdd st) dd;
     ddSqSum := (ddSqSum st + dd * dd)%num |}.

(** [for (let i = 1; i < n; i++) if (x[i] > x[i - 1]) upCount++]. *)
Fixpoint upCount (x : list num) : nat :=
  match x with
  | a :: ((b :: _) as rest) =>
      ((if (b >? a)%num then 1 else 0) + upCount rest)%nat
  | _ => 0%nat
  end.

(** [Math.max(...xs)]. *)
Definition maxOfList (xs : list num) : num := fold_left JS.max xs NInf.

Section WithRuntime.
Variable rt : Runtime.

(** The loop that extracts the finite values of the series. *)
Definition parsePoint (pt : PnlPoint) : option num :=
  match pointValue pt with
  | None => None
  | Some v =>
      let parsed := match v with
                    | NS_str s => parseFloat rt s
                    | NS_num n => n
                    end in
      if isFinite parsed then Some parsed else None
  end.

Fixpoint extractValues (pnlList : list PnlPoint) : list num :=
  match pnlList with
  | [] => []
  | pt :: rest =>
      match parsePoint pt with
      | Some v => v :: extractValues rest
      | None => extractValues rest
      end
  end.

Definition computeSmoothPnlScore (pnlList : list PnlPoint) : SmoothPnlResult :=
  let values := extractValues pnlList in
  match values with
  | [] | [_] => zeroSmoothPnl
  | base :: _ =>
      let x := map (fun v => (v - base)%num) values in
      let n := of_nat (length x) in
      let st := fold_left drawdownStep x
                  {| peak := hd 0%num x; mdd := 0; ddSqSum := 0 |} in
      let ulcer := JS.sqrt rt (ddSqSum st / n)%num in
      let upFrac := (of_nat (upCount x) / (n - 1))%num in
      let last := List.last x 0%num in
      let maxAbs := maxOfList (map JS.abs x) in
      let R := if (last >? 0)%num && (maxAbs >? 0)%num
               then (last / maxAbs)%num else 0%num in
      let score := ((JS.max 0 R * upFrac) / (1 + mdd st + ulcer))%num in
      {| sp_score := if isFinite score then score else 0;
         sp_maxDrawdown := mdd st;
         sp_ulcerIndex := ulcer;
         sp_upFraction := upFrac |}
  end.

Definition computeAdjustedWinRate (numWins numLosses : num) : num :=
  let baseWinRate := ((numWins + 1) / (numWins + numLosses + Fin 2))%num in
  if (numLosses === 0)%num && (numWins >? 0)%num then
    (Fin 0.7 * baseWinRate)%num
  else if (baseWinRate >? Fin 0.95)%num && (numWins + numLosses >? Fin 20)%num then
    (Fin 0.8 * baseWinRate)%num
  else baseWinRate.

Definition computeNormalizedPnl (realizedPnl reference : num) : num :=
  if (realizedPnl <=? 0)%num then 0%num
  else
    let logPnl := JS.log10 rt (realizedPnl + 1)%num in
    let logRef := JS.log10 rt reference in
    JS.min 1 (JS.max 0 (logPnl / logRef)%num).

Definition computeTradeFreqScore
    (numTrades optimal sigma scalpingThreshold : num) : num :=
  if (numTrades <=? 0)%num then 0%num
  else
    let diff := (numTrades - optimal)%num in
    let score := JS.exp rt (JS.neg (diff * diff) / (Fin 2 * sigma * sigma))%num in
    if (numTrades >? scalpingThreshold)%num then
      let excess := (numTrades - scalpingThreshold)%num in
      if (excess <=? Fin 50)%num then (score * Fin 0.7)%num
      else if (excess <=? Fin 100)%num then (score * Fin 0.4)%num
      else if (excess <=? Fin 200)%num then (score * Fin 0.2)%num
      else (score * Fin 0.05)%num
    else score.

Definition zeroComponents : WeightedComponents :=
  {| wc_smoothPnl := 0; wc_winRate := 0; wc_pnl := 0; wc_tradeFreq := 0 |}.

Definition createZeroResult : ScoringResult :=
  {| score := 0;
     filtered := false;
     filterReason := None;
     details := {| smoothPnlScore := 0; maxDrawdown := 0; rawWinRate := 0;
                   adjWinRate := 0; normalizedPnl := 0; tradeFreqScore := 0;
                   weightedComponents := zeroComponents |} |}.

Definition createFilteredResult (maxDrawdown : num) (reason : FilterReason)
    : ScoringResult :=
  {| score := 0;
     filtered := true;
     filterReason := Some reason;
     details := {| smoothPnlScore := 0; maxDrawdown := maxDrawdown;
                   rawWinRate := 0; adjWinRate := 0; normalizedPnl := 0;
                   tradeFreqScore := 0;
                   weightedComponents := zeroComponents |} |}.

(** The series result used by [computePerformanceScore]:
    [pnlList && pnlList.length >= 2 ? computeSmoothPnlScore(pnlList) : zeros]. *)
Definition smoothPnlOf (pnlList : option (list PnlPoint)) : SmoothPnlResult :=
  match pnlList with
  | Some l => if (2 <=? length l)%nat then computeSmoothPnlScore l
              else zeroSmoothPnl
  | None => zeroSmoothPnl
  end.

Definition computePerformanceScore (stats : AccountStats) (params : ScoringParams)
    : ScoringResult :=
  if negb (isFinite (numTrades stats)) || (numTrades stats <? 0)%num then
    createZeroResult
  else if negb (isFinite (numWins stats)) || (numWins stats <? 0)%num then
    createZeroResult
  else if negb (isFinite (numLosses stats)) || (numLosses stats <? 0)%num then
    createZeroResult
  else
    let smoothPnlResult := smoothPnlOf (pnlList stats) in
    let smoothPnlScore := sp_score smoothPnlResult in
    let maxDrawdown := sp_maxDrawdown smoothPnlResult in
    if (maxDrawdown >? maxDrawdownLimit params)%num then
      createFilteredResult maxDrawdown max_drawdown_exceeded
    else
      let rawWinRate :=
        if (numWins stats + numLosses stats >? 0)%num
        then (numWins stats / (numWins stats + numLosses stats))%num
        else 0%num in
      let adjWinRate := computeAdjustedWinRate (numWins stats) (numLosses stats) in
      let normalizedPnl :=
        computeNormalizedPnl (realizedPnl stats) (pnlReference params) in
      let tradeFreqScore :=
        computeTradeFreqScore (numTrades stats) (optimalTrades params)
          (tradeSigma params) (scalpingThreshold params) in
      let weightedSmooth := (smoothPnlWeight params * smoothPnlScore)%num in
      let weightedWinRate := (winRateWeight params * adjWinRate)%num in
      let weightedPnl := (pnlWeight params * normalizedPnl)%num in
      let weightedFreq := (tradeFreqWeight params * tradeFreqScore)%num in
      let score := (weightedSmooth + weightedWinRate + weightedPnl + weightedFreq)%num in
      {| score := if isFinite score then score else 0;
         filtered := false;
         filterReason := None;
         details := {| smoothPnlScore := smoothPnlScore;
                       maxDrawdown := maxDrawdown;
                       rawWinRate := rawWinRate;
                       adjWinRate := adjWinRate;
                       normalizedPnl := normalizedPnl;
                       tradeFreqScore := tradeFreqScore;
                       weightedComponents :=
                         {| wc_smoothPnl := weightedSmooth;
                            wc_winRate := weightedWinRate;
                            wc_pnl := weightedPnl;
                            wc_tradeFreq := weightedFreq |} |} |}.
End WithRuntime.

End Scoring.


(* ================================================================== *)
(** ** The leaderboard service: data *)
(* ================================================================== *)

(** The nested [stats] object of a raw entry. *)
Module RawStats.

Record Stats : Type := {
  maxDrawdown : option num;
  totalPnl : option num;
  openPosCount : option num;
  closePosCount : option num;
  avgPosDuration : option num;
  winRate : option num
}.

End RawStats.

(** [LeaderboardRawEntry]. *)
Module Raw.

Record PnlItem : Type := {
  timestamp : num;
  value : string
}.

Record LeaderboardRawEntry : Type := {
  address : string;
  winRate : option num;
  executedOrders : option num;
  realizedPnl : option num;
  remark : option string;
  labels : option (list string);
  pnlList : option (list PnlItem);
  accountValue : option num;
  startingEquity : option num;
  maxDrawdown : option num;
  numWins : option num;
  numLosses : option num;
  stats : option RawStats.Stats
}.

End Raw.

(** [AddressStats], the answer of the per-address statistics endpoint. *)
Module AddressStats.

Record AddressStats : Type := {
  winRate : option num;
  openPosCount : option num;
  closePosCount : option num;
  avgPosDuration : option num;
  totalPnl : option num;
  maxDrawdown : option num
}.

End AddressStats.

Module Ranked.

Import Scoring.

(** The [meta] object of an entry.  It is the raw entry spread into a new
    object together with the keys the scorer adds; a key written after the
    spread shadows the raw entry's key of the same name, so each added key
    has a field of its own here ([None] when the object has no such own
    key beside the raw entry's). *)
Record Meta : Type := {
  rawEntry : Raw.LeaderboardRawEntry;          (* ...entry *)
  scoringDetails : option ScoringDetails;
  metaNumWins : option num;                    (* numWins *)
  metaNumLosses : option num;                  (* numLosses *)
  metaFiltered : bool;                         (* filtered *)
  metaFilterReason : option FilterReason;      (* filterReason *)
  apiMaxDrawdown : option num;
  metaExecutedOrders : option num;             (* executedOrders *)
  metaStats : option AddressStats.AddressStats (* stats *)
}.

(** An object of the array [base] of [scoreEntries]: every field of a
    [RankedEntry] except [rank] and [weight]. *)
Record ScoredEntry : Type := {
  address : string;
  score : num;
  filtered : option bool;
  filterReason : option FilterReason;
  winRate : num;
  executedOrders : num;
  realizedPnl : num;
  efficiency : num;
  pnlConsistency : num;
  remark : option string;
  labels : list string;
  statOpenPositions : option num;
  statClosedPositions : option num;
  statAvgPosDuration : option num;
  statTotalPnl : option num;
  statMaxDrawdown : option num;
  meta : Meta
}.

(** [RankedEntry]: [{ ...entry, rank, weight }]. *)
Record RankedEntry : Type := {
  entry :> ScoredEntry;
  rank : nat;
  weight : num
}.

(** ToBoolean of the optional flag [filtered]. *)
Definition isFiltered (e : ScoredEntry) : bool :=
  match filtered e with Some b => b | None => false end.

(** [meta.pnlList]: no added key shadows it. *)
Definition metaPnlList (m : Meta) : option (list Raw.PnlItem) :=
  Raw.pnlList (rawEntry m).

End Ranked.

Import Ranked.

(* ================================================================== *)
(** ** The leaderboard service: scoring (phase 1) *)
(* ================================================================== *)

(** Modelled from the spec: [normalizeAddress] of the shared library is
    not among the sources; the specification (section 4.3, step 1:
    normalize address to lowercase) and the mocks of the test suite give it
    as lower-casing. *)
Definition normalizeAddress (address : string) : string := toLowerCase address.

(** [entry.pnlList || []], as the [PnlPoint] objects handed to the scorer. *)
Definition pnlPointsOf (pnlList : option (list Raw.PnlItem)) : list Scoring.PnlPoint :=
  map (fun p => Scoring.Pt_object (Some (Raw.timestamp p))
                  (Some (Scoring.NS_str (Raw.value p))) None)
      (pnlList ?? []).

(** [entry.stats?.maxDrawdown ?? entry.maxDrawdown ?? 0]. *)
Definition apiMaxDrawdownOf (entry : Raw.LeaderboardRawEntry) : num :=
  match Raw.stats entry with
  | Some s =>
      match RawStats.maxDrawdown s with
      | Some d => d
      | None => Raw.maxDrawdown entry ?? 0%num
      end
  | None => Raw.maxDrawdown entry ?? 0%num
  end.

Section Service.
Variable rt : Runtime.

(** The configuration read by the service: the scoring parameters (defaults
    with the overrides of the environment), [SCORING_MAX_TRADES_LIMIT],
    [opts.selectCount] and [this.enrichCount]. *)
Variable scoringParams : Scoring.ScoringParams.
Variable maxTradesHardLimit : num.
Variable selectCount : nat.
Variable enrichCount : nat.

Definition maxDrawdownLimit : num := Scoring.maxDrawdownLimit scoringParams.

(** The entry emitted by a hard filter. *)
Definition hardFiltered (entry : Raw.LeaderboardRawEntry) (reason : Scoring.FilterReason)
    (address : string) (winRate executed pnl efficiency apiMaxDrawdown : num)
    (m : Meta) : ScoredEntry :=
  {| address := address;
     score := 0;
     filtered := Some true;
     filterReason := Some reason;
     winRate := winRate;
     executedOrders := executed;
     realizedPnl := pnl;
     efficiency := efficiency;
     pnlConsistency := 0;
     remark := Raw.remark entry;
     labels := Raw.labels entry ?? [];
     statOpenPositions := None;
     statClosedPositions := None;
     statAvgPosDuration := None;
     statTotalPnl := None;
     statMaxDrawdown := Some apiMaxDrawdown;
     meta := m |}.

(** The callback of [entries.map] in [scoreEntries]. *)
Definition scoreEntry (entry : Raw.LeaderboardRawEntry) : ScoredEntry :=
  let address := normalizeAddress (Raw.address entry) in
  let winRate := clamp (Raw.winRate entry ?? 0%num) 0 1 in
  let executed := Raw.executedOrders entry ?? 0%num in
  let pnl := Raw.realizedPnl entry ?? 0%num in
  let efficiency := if (executed >? 0)%num then (pnl / executed)%num else pnl in
  let apiMaxDrawdown := apiMaxDrawdownOf entry in
  if (apiMaxDrawdown >? maxDrawdownLimit)%num then
    hardFiltered entry Scoring.max_drawdown_exceeded
      address winRate executed pnl efficiency apiMaxDrawdown
      {| rawEntry := entry; scoringDetails := None;
         metaNumWins := None; metaNumLosses := None;
         metaFiltered := true;
         metaFilterReason := Some Scoring.max_drawdown_exceeded;
         apiMaxDrawdown := Some apiMaxDrawdown;
         metaExecutedOrders := None; metaStats := None |}
  else if (executed >? maxTradesHardLimit)%num then
    hardFiltered entry Scoring.scalping_penalty
      address winRate executed pnl efficiency apiMaxDrawdown
      {| rawEntry := entry; scoringDetails := None;
         metaNumWins := None; metaNumLosses := None;
         metaFiltered := true;
         metaFilterReason := Some Scoring.scalping_penalty;
         apiMaxDrawdown := None;
         metaExecutedOrders := Some executed; metaStats := None |}
  else
    let numTrades := executed in
    let numWins := JS.round (numTrades * winRate)%num in
    let numLosses := (numTrades - numWins)%num in
    let scoringResult :=
      Scoring.computePerformanceScore rt
        {| Scoring.realizedPnl := pnl;
           Scoring.numTrades := numTrades;
           Scoring.numWins := numWins;
           Scoring.numLosses := numLosses;
           Scoring.pnlList := Some (pnlPointsOf (Raw.pnlList entry)) |}
        scoringParams in
    let details := Scoring.details scoringResult in
    let effectiveMaxDrawdown := JS.max apiMaxDrawdown (Scoring.maxDrawdown details) in
    {| address := address;
       score := Scoring.score scoringResult;
       filtered := Some (Scoring.filtered scoringResult);
       filterReason := Scoring.filterReason scoringResult;
       winRate := winRate;
       executedOrders := executed;
       realizedPnl := pnl;
       efficiency := efficiency;
       pnlConsistency := Scoring.smoothPnlScore details;
       remark := Raw.remark entry;
       labels := Raw.labels entry ?? [];
       statOpenPositions := None;
       statClosedPositions := None;
       statAvgPosDuration := None;
       statTotalPnl := None;
       statMaxDrawdown := Some effectiveMaxDrawdown;
       meta := {| rawEntry := entry;
                  scoringDetails :=
                    Some {| Scoring.smoothPnlScore := Scoring.smoothPnlScore details;
                            Scoring.maxDrawdown := effectiveMaxDrawdown;
                            Scoring.rawWinRate := Scoring.rawWinRate details;
                            Scoring.adjWinRate := Scoring.adjWinRate details;
                            Scoring.normalizedPnl := Scoring.normalizedPnl details;
                            Scoring.tradeFreqScore := Scoring.tradeFreqScore details;
                            Scoring.weightedComponents :=
                              Scoring.weightedComponents details |};
                  metaNumWins := Some numWins;
                  metaNumLosses := Some numLosses;
                  metaFiltered := Scoring.filtered scoringResult;
                  metaFilterReason := Scoring.filterReason scoringResult;
                  apiMaxDrawdown := Some apiMaxDrawdown;
                  metaExecutedOrders := None;
                  metaStats := None |} |}.

(** [base]: the mapped entries that have a finite score or are filtered. *)
Definition base (entries : list Raw.LeaderboardRawEntry) : list ScoredEntry :=
  filter (fun e => isFinite (score e) || isFiltered e) (map scoreEntry entries).

(** [scored] before the fallback: the entries that pass the hard filters,
    without the perfect win rates with ten trades or more. *)
Definition survivors (entries : list Raw.LeaderboardRawEntry) : list ScoredEntry :=
  filter (fun e => (winRate e <? Fin 0.999)%num || (executedOrders e <? Fin 10)%num)
    (filter (fun e => negb (isFiltered e)) (base entries)).

(** [scored] after the fallback to the whole of [base]. *)
Definition scoredOrFallback (entries : list Raw.LeaderboardRawEntry) : list ScoredEntry :=
  match survivors entries with
  | [] => base entries
  | scored => scored
  end.

Definition byScoreDesc (a b : ScoredEntry) : num := (score b - score a)%num.

(** [totalScore]: the sum of [Math.max(e.score, 0)] over the first
    [selectCount] entries, or 1 when that sum is falsy. *)
Definition totalScore (scored : list ScoredEntry) : num :=
  or_else
    (fold_left (fun sum e => (sum + JS.max (score e) 0)%num)
       (firstn selectCount scored) 0%num)
    1%num.

(** The callback of the final [map], where [total] is [totalScore]. *)
Definition rankWeight (total : num) (entry : ScoredEntry) (idx : nat) : RankedEntry :=
  {| entry := entry;
     rank := idx + 1;
     weight := if (idx <? selectCount)%nat
               then (JS.max (score entry) 0 / total)%num
               else 0%num |}.

(** The final [map]: rank and weight of each entry of the sorted list. *)
Definition rankAndWeigh (scored : list ScoredEntry) : list RankedEntry :=
  mapi (rankWeight (totalScore scored)) scored.

Definition scoreEntries (entries : list Raw.LeaderboardRawEntry) : list RankedEntry :=
  rankAndWeigh (sort byScoreDesc (scoredOrFallback entries)).

End Service.

(* ================================================================== *)
(** ** The leaderboard service: enrichment and re-filter (phase 2) *)
(* ================================================================== *)

(** [Number(x)] of an optional numeric field: [undefined] gives NaN. *)
Definition numberOfOptional (x : option num) : num := x ?? NaN.

(** [Number.isFinite(Number(x)) ? Number(x) : previous]. *)
Definition finiteOr (x : option num) (previous : option num) : option num :=
  if isFinite (numberOfOptional x) then Some (numberOfOptional x) else previous.

(** [applyStatsToEntry] mutates the entry; the embedding returns the entry
    after the call. *)
Definition applyStatsToEntry (e : RankedEntry) (stats : AddressStats.AddressStats)
    : RankedEntry :=
  let winRate' :=
    match AddressStats.winRate stats with
    | Some w => if isFinite w then clamp w 0 1 else winRate e
    | None => winRate e
    end in
  let m := meta e in
  {| entry :=
       {| address := address e;
          score := score e;
          filtered := filtered e;
          filterReason := filterReason e;
          winRate := winRate';
          executedOrders := executedOrders e;
          realizedPnl := realizedPnl e;
          efficiency := efficiency e;
          pnlConsistency := pnlConsistency e;
          remark := remark e;
          labels := labels e;
          statOpenPositions :=
            finiteOr (AddressStats.openPosCount stats) (statOpenPositions e);
          statClosedPositions :=
            finiteOr (AddressStats.closePosCount stats) (statClosedPositions e);
          statAvgPosDuration :=
            finiteOr (AddressStats.avgPosDuration stats) (statAvgPosDuration e);
          statTotalPnl :=
            finiteOr (AddressStats.totalPnl stats) (statTotalPnl e);
          statMaxDrawdown :=
            finiteOr (AddressStats.maxDrawdown stats) (statMaxDrawdown e);
          meta := {| rawEntry := rawEntry m;
                     scoringDetails := scoringDetails m;
                     metaNumWins := metaNumWins m;
                     metaNumLosses := metaNumLosses m;
                     metaFiltered := metaFiltered m;
                     metaFilterReason := metaFilterReason m;
                     apiMaxDrawdown := apiMaxDrawdown m;
                     metaExecutedOrders := metaExecutedOrders m;
                     metaStats := Some stats |} |};
     rank := rank e;
     weight := weight e |}.

(** The [Map<string, AddressStats>] built by [fetchAddressStatsBatch],
    read through [get]. *)
Definition StatsMap : Type := string -> option AddressStats.AddressStats.

Definition applyAddressStats (statsMap : StatsMap) (entries : list RankedEntry)
    : list RankedEntry :=
  map (fun e : RankedEntry =>
         match statsMap (toLowerCase (address e)) with
         | Some stat => applyStatsToEntry e stat
         | None => e
         end)
      entries.

Definition setWeight (e : RankedEntry) (w : num) : RankedEntry :=
  {| entry := entry e; rank := rank e; weight := w |}.

Record HistoryPoint : Type := {
  ts : num;
  value : num
}.

Record PortfolioWindowSeries : Type := {
  window : string;
  pnlHistory : list HistoryPoint;
  equityHistory : list HistoryPoint
}.

(** A [Map<string, PortfolioWindowSeries[]>] in insertion order. *)
Definition SeriesMap : Type := list (string * list PortfolioWindowSeries).

(** The arguments of the call of [persistPeriod] and of
    [publishTopCandidates] at the end of [refreshPeriod]. *)
Record Persisted : Type := {
  entries : list RankedEntry;
  tracked : list RankedEntry;
  hyperliquidSeries : SeriesMap;
  published : list RankedEntry
}.

Section Refresh.
Variable rt : Runtime.
Variable scoringParams : Scoring.ScoringParams.
Variable maxTradesHardLimit : num.
Variable selectCount : nat.
Variable enrichCount : nat.

(** The filter on the enriched drawdown. *)
Definition keepEnriched (e : RankedEntry) : bool :=
  negb ((statMaxDrawdown e ?? 0%num) >? maxDrawdownLimit scoringParams)%num.

(** The body of the loop that recomputes the weights after the filter.
    [topN.includes(entry)] compares object identities; the entries of
    [ranked] are pairwise distinct objects and [topN] is its first
    [selectCount] ones, so the test is [idx < selectCount] for the entry at
    position [idx]. *)
Definition reweighEntry (sumScores : num) (e : RankedEntry) (idx : nat) : RankedEntry :=
  if (idx <? selectCount)%nat && (sumScores >? 0)%num
  then setWeight e (score e / sumScores)%num
  else setWeight e 0%num.

Definition reweigh (ranked : list RankedEntry) : list RankedEntry :=
  let topN := firstn selectCount ranked in
  let sumScores :=
    fold_left (fun sum (e : RankedEntry) => (sum + score e)%num) topN 0%num in
  mapi (reweighEntry sumScores) ranked.

(** The entries of [ranked] after enrichment: [toEnrich] shares its objects
    with [ranked], so the entries beyond [enrichTarget] are unchanged. *)
Definition enrich (statsMap : StatsMap) (enrichTarget : nat) (ranked : list RankedEntry)
    : list RankedEntry :=
  applyAddressStats statsMap (firstn enrichTarget ranked) ++ skipn enrichTarget ranked.

(** [refreshPeriod], from the raw entries returned by [fetchPeriod] to the
    calls of [persistPeriod] and [publishTopCandidates]; [statsMap] and
    [series] are what the two batches of upstream requests returned. *)
Definition refreshPeriod (raw : list Raw.LeaderboardRawEntry)
    (statsMap : StatsMap) (series : SeriesMap) : Persisted :=
  let ranked := scoreEntries rt scoringParams maxTradesHardLimit selectCount raw in
  let enrichTarget := Nat.min (length ranked) (Nat.max enrichCount (selectCount * 2)) in
  let toEnrich := firstn enrichTarget ranked in
  let '(ranked, hyperliquidSeries) :=
    match toEnrich with
    | [] => (ranked, [])
    | _ :: _ =>
        let enriched := enrich statsMap enrichTarget ranked in
        let beforeCount := length enriched in
        let kept := filter keepEnriched enriched in
        let filteredCount := (beforeCount - length kept)%nat in
        ((if (0 <? filteredCount)%nat then reweigh kept else kept), series)
    end in
  {| entries := ranked;
     tracked := firstn enrichCount ranked;
     hyperliquidSeries := hyperliquidSeries;
     published := firstn selectCount ranked |}.

End Refresh.

(* ================================================================== *)
(** ** The upstream client *)
(* ================================================================== *)

(** What a call of the client throws.  An attempt of [requestJson] fails
    because [fetch] rejects (network fault or the abort of the timeout),
    the status is not ok, or the body is not JSON; [TypeError] is thrown by
    a conversion ([Number], [String]) of a decoded value. *)
Inductive FetchError : Type :=
| NetworkError
| TimeoutError
| HttpError (status : nat)
| DecodeError
| TypeError.

Inductive Attempt : Type :=
| Failed (err : FetchError)
| Responded (payload : JsVal).

Inductive Request : Type :=
| AddrStatRequest (address : string) (period : nat)
| PortfolioRequest (user : string).

(** The upstream: the outcome of the [n]-th attempt of a request. *)
Definition Upstream : Type := Request -> nat -> Attempt.

(** The result of a call that may throw. *)
Inductive Outcome (A : Type) : Type :=
| Returned (a : A)
| Thrown (err : FetchError).

Arguments Returned {A} a.
Arguments Thrown {A} err.

Definition bind {A B : Type} (m : Outcome A) (k : A -> Outcome B) : Outcome B :=
  match m with
  | Returned a => k a
  | Thrown err => Thrown err
  end.

(** [try { body } catch (err) { handler }]. *)
Definition tryCatch {A : Type} (body : Outcome A) (handler : FetchError -> Outcome A)
    : Outcome A :=
  match body with
  | Returned a => Returned a
  | Thrown err => handler err
  end.

(** The loop of [requestJson] from attempt number [attempt], with
    [remaining] retries left: a failure is retried while retries remain
    and thrown afterwards. *)
Fixpoint requestJsonFrom (upstream : nat -> Attempt) (attempt remaining : nat)
    : Outcome JsVal :=
  match upstream attempt with
  | Responded payload => Returned payload
  | Failed err =>
      match remaining with
      | O => Thrown err
      | S remaining' => requestJsonFrom upstream (S attempt) remaining'
      end
  end.

Definition requestJson (upstream : Upstream) (input : Request) (retries : nat)
    : Outcome JsVal :=
  requestJsonFrom (upstream input) 0 retries.

(** A conversion inside a function of the client: its TypeError is thrown
    on. *)
Definition converted {A : Type} (x : option A) : Outcome A :=
  match x with
  | Some a => Returned a
  | None => Thrown TypeError
  end.

(** [out.push(p)], or [continue] when the iteration pushes nothing. *)
Definition pushed {A : Type} (p : option A) (out : list A) : list A :=
  match p with
  | Some a => a :: out
  | None => out
  end.

Section Client.
Variable rt : Runtime.

(** [Number.isFinite(Number(v)) ? Number(v) : undefined]. *)
Definition finiteNumber (v : JsVal) : Outcome (option num) :=
  bind (converted (Number rt v))
    (fun n => Returned (if isFinite n then Some n else None)).

(** The object built from a truthy [data]; its fields are evaluated in
    the order of the source. *)
Definition addressStatsOf (data : JsVal) : Outcome AddressStats.AddressStats :=
  let winRate :=
    match getProp data "winRate" with
    | JNumber n => Some n
    | _ => None
    end in
  bind (finiteNumber (getProp data "openPosCount")) (fun openPosCount =>
  bind (finiteNumber (getProp data "closePosCount")) (fun closePosCount =>
  bind (finiteNumber (getProp data "avgPosDuration")) (fun avgPosDuration =>
  bind (finiteNumber (getProp data "totalPnl")) (fun totalPnl =>
  bind (finiteNumber (getProp data "maxDrawdown")) (fun maxDrawdown =>
    Returned
      {| AddressStats.winRate := winRate;
         AddressStats.openPosCount := openPosCount;
         AddressStats.closePosCount := closePosCount;
         AddressStats.avgPosDuration := avgPosDuration;
         AddressStats.totalPnl := totalPnl;
         AddressStats.maxDrawdown := maxDrawdown |}))))).

(** [fetchAddressStat]: [null] is [None].  The request and the
    construction of the statistics are inside the [try].  The URL is built
    before it; [encodeURIComponent] throws on a string with a lone
    surrogate only, which a string of the embedding, a sequence of bytes,
    does not have. *)
Definition fetchAddressStat (upstream : Upstream) (address : string) (period : nat)
    : Outcome (option AddressStats.AddressStats) :=
  let normalized := normalizeAddress address in
  tryCatch
    (bind (requestJson upstream (AddrStatRequest normalized period) 2)
       (fun payload =>
          let data := getPropOpt payload "data" in
          if negb (truthyVal data) then Returned None
          else bind (addressStatsOf data) (fun stats => Returned (Some stats))))
    (fun _ => Returned None).

(** One iteration of the loop of [parseHistoryPoints]: the point pushed
    for [item], if any.  Both elements are converted before the timestamp
    is tested. *)
Definition parseHistoryItem (item : JsVal) : Outcome (option HistoryPoint) :=
  match item with
  | JArray elems =>
      if (length elems <? 2)%nat then Returned None
      else
        bind (converted (Number rt (index elems 0))) (fun ts =>
        bind (converted (Number rt (index elems 1))) (fun value =>
          if negb (isFinite ts) then Returned None
          else Returned (Some {| ts := ts;
                                 value := if isFinite value then value else 0 |})))
  | _ => Returned None
  end.

(** The loop of [parseHistoryPoints]: an iteration that throws ends it. *)
Fixpoint parseHistoryItems (items : list JsVal) : Outcome (list HistoryPoint) :=
  match items with
  | [] => Returned []
  | item :: rest =>
      bind (parseHistoryItem item) (fun p =>
      bind (parseHistoryItems rest) (fun out => Returned (pushed p out)))
  end.

Definition parseHistoryPoints (input : JsVal) : Outcome (list HistoryPoint) :=
  match input with
  | JArray items => parseHistoryItems items
  | _ => Returned []
  end.

(** One iteration of the loop over [rows] in [fetchPortfolioSeries]. *)
Definition parseRow (row : JsVal) : Outcome (option PortfolioWindowSeries) :=
  match row with
  | JArray elems =>
      if (length elems <? 2)%nat then Returned None
      else
        bind (match index elems 0 with
              | JUndefined | JNull => Returned EmptyString
              | w => converted (ToString rt w)
              end) (fun windowName =>
        let data := if truthyVal (index elems 1) then index elems 1 else JObject [] in
        bind (parseHistoryPoints (getProp data "pnlHistory")) (fun pnlHistory =>
        bind (parseHistoryPoints (getProp data "accountValueHistory"))
          (fun equityHistory =>
             match pnlHistory, equityHistory with
             | [], [] => Returned None
             | _, _ => Returned (Some {| window := windowName;
                                         pnlHistory := pnlHistory;
                                         equityHistory := equityHistory |})
             end)))
  | _ => Returned None
  end.

Fixpoint parseRows (rows : list JsVal) : Outcome (list PortfolioWindowSeries) :=
  match rows with
  | [] => Returned []
  | row :: rest =>
      bind (parseRow row) (fun s =>
      bind (parseRows rest) (fun series => Returned (pushed s series)))
  end.

(** [fetchPortfolioSeries]: the request and the loop over the rows are
    inside the [try]. *)
Definition fetchPortfolioSeries (upstream : Upstream) (address : string)
    : Outcome (option (list PortfolioWindowSeries)) :=
  let normalized := normalizeAddress address in
  tryCatch
    (bind (requestJson upstream (PortfolioRequest normalized) 1)
       (fun payload =>
          let rows :=
            match payload with
            | JArray items => items
            | _ => match getPropOpt payload "value" with
                   | JArray items => items
                   | _ => []
                   end
            end in
          bind (parseRows rows) (fun series => Returned (Some series))))
    (fun _ => Returned None).

End Client.

(* ================================================================== *)
(** ** The persister: the points of a period *)
(* ================================================================== *)

(** The value of a merged sample: [{ pnl?, equity? }]. *)
Record Merged : Type := {
  pnl : option num;
  equity : option num
}.

Record Sample : Type := {
  sampleTs : num;        (* ts *)
  samplePnl : option num; (* pnl *)
  sampleEquity : option num (* equity *)
}.

(** A [Map<number, Merged>] in insertion order; keys are compared with
    SameValueZero. *)
Definition TsMap : Type := list (num * Merged).

Fixpoint mapGet (m : TsMap) (k : num) : option Merged :=
  match m with
  | [] => None
  | (k', v) :: rest => if sameValueZero k' k then Some v else mapGet rest k
  end.

(** [Map.prototype.set]: a present key keeps its position. *)
Fixpoint mapSet (m : TsMap) (k : num) (v : Merged) : TsMap :=
  match m with
  | [] => [(k, v)]
  | (k', v') :: rest =>
      if sameValueZero k' k then (k', v) :: rest else (k', v') :: mapSet rest k v
  end.

Definition emptyMerged : Merged := {| pnl := None; equity := None |}.

Definition mergePnl (m : TsMap) (point : HistoryPoint) : TsMap :=
  let existing := mapGet m (ts point) ?? emptyMerged in
  mapSet m (ts point) {| pnl := Some (value point); equity := equity existing |}.

Definition mergeEquity (m : TsMap) (point : HistoryPoint) : TsMap :=
  let existing := mapGet m (ts point) ?? emptyMerged in
  mapSet m (ts point) {| pnl := pnl existing; equity := Some (value point) |}.

Definition mergedMap (series : PortfolioWindowSeries) : TsMap :=
  fold_left mergeEquity (equityHistory series)
    (fold_left mergePnl (pnlHistory series) []).

Definition mergeHistories (series : PortfolioWindowSeries) : list Sample :=
  sort (fun a b => (sampleTs a - sampleTs b)%num)
    (map (fun '(ts, values) =>
            {| sampleTs := ts; samplePnl := pnl values; sampleEquity := equity values |})
         (mergedMap series)).

(** [new Date(t)]: the time value in milliseconds, [None] for an invalid
    date ([getTime()] is NaN).  A finite [t] is valid up to 8.64e15 in
    absolute value and is truncated to an integer. *)
Definition Qtruncate (q : Q) : Z :=
  if Qlt_le_dec q 0 then Qceiling q else Qfloor q.

Definition Date (t : num) : option Z :=
  match t with
  | Fin q =>
      if Qle_bool (Qabs q) 8640000000000000 then Some (Qtruncate q) else None
  | _ => None
  end.

Inductive Source : Type :=
| hyperbot
| hyperliquid.

(** The [window] of a point: [`period_${period}`] or the name of a
    portfolio window. *)
Inductive WindowName : Type :=
| PeriodWindow (period : nat)
| SeriesWindow (name : string).

Record PnlPointRow : Type := {
  rowAddress : string;       (* address *)
  rowSource : Source;        (* source *)
  rowWindow : WindowName;    (* window *)
  rowTs : Z;                 (* ts *)
  pnlValue : option num;
  equityValue : option num
}.

Definition WINDOW_PERIOD_MAP (name : string) : option nat :=
  if String.eqb name "day" then Some 1%nat
  else if String.eqb name "week" then Some 7%nat
  else if String.eqb name "month" then Some 30%nat
  else None.

(** [WINDOW_PERIOD_MAP[series.window] !== period], negated. *)
Definition windowMatches (name : string) (period : nat) : bool :=
  match WINDOW_PERIOD_MAP name with
  | Some days => Nat.eqb days period
  | None => false
  end.

(** [arr.slice(i, i + chunkSize)] for [i = 0, chunkSize, ...]; [fuel]
    bounds the number of chunks. *)
Fixpoint chunksFuel {A : Type} (fuel chunkSize : nat) (l : list A) : list (list A) :=
  match fuel, l with
  | O, _ | _, [] => []
  | S fuel', _ => firstn chunkSize l :: chunksFuel fuel' chunkSize (skipn chunkSize l)
  end.

Definition chunks {A : Type} (chunkSize : nat) (l : list A) : list (list A) :=
  chunksFuel (length l) chunkSize l.

Section Persister.
Variable rt : Runtime.
Variable period : nat.

(** The point pushed for one element of [meta.pnlList], if any. *)
Definition hyperbotPoint (e : RankedEntry) (point : Raw.PnlItem) : option PnlPointRow :=
  let tsValue := Raw.timestamp point in
  let pnlValue := StringToNumber rt (Raw.value point) in
  if negb (isFinite tsValue) then None
  else
    match Date tsValue with
    | None => None
    | Some date =>
        Some {| rowAddress := toLowerCase (address e);
                rowSource := hyperbot;
                rowWindow := PeriodWindow period;
                rowTs := date;
                pnlValue := if isFinite pnlValue then Some pnlValue else None;
                equityValue := None |}
    end.

Fixpoint somes {A : Type} (l : list (option A)) : list A :=
  match l with
  | [] => []
  | Some a :: rest => a :: somes rest
  | None :: rest => somes rest
  end.

Definition hyperbotPoints (tracked : list RankedEntry) : list PnlPointRow :=
  flat_map (fun e : RankedEntry =>
              somes (map (hyperbotPoint e) (metaPnlList (meta e) ?? [])))
           tracked.

Definition samplePoint (address : string) (series : PortfolioWindowSeries)
    (sample : Sample) : option PnlPointRow :=
  match Date (sampleTs sample) with
  | None => None
  | Some tsDate =>
      Some {| rowAddress := address;
              rowSource := hyperliquid;
              rowWindow := SeriesWindow (window series);
              rowTs := tsDate;
              pnlValue := samplePnl sample;
              equityValue := sampleEquity sample |}
  end.

Definition seriesPoints (address : string) (series : PortfolioWindowSeries)
    : list PnlPointRow :=
  if windowMatches (window series) period
  then somes (map (samplePoint address series) (mergeHistories series))
  else [].

Definition hyperliquidPoints (hyperliquidSeries : SeriesMap) : list PnlPointRow :=
  flat_map (fun '(address, seriesList) => flat_map (seriesPoints address) seriesList)
           hyperliquidSeries.

(** The array [points] of [insertPnlPointsInTransaction]. *)
Definition pnlPointsToInsert (tracked : list RankedEntry) (hyperliquidSeries : SeriesMap)
    : list PnlPointRow :=
  hyperbotPoints tracked ++ hyperliquidPoints hyperliquidSeries.

(** [insertPnlPointsInTransaction]: the rows of each [INSERT] statement,
    in the order the statements are sent. *)
Definition insertPnlPointsInTransaction (tracked : list RankedEntry)
    (hyperliquidSeries : SeriesMap) : list (list PnlPointRow) :=
  chunks 400 (pnlPointsToInsert tracked hyperliquidSeries).

End Persister.

(* ================================================================== *)
(** ** Assumptions on the runtime and on the parameters *)
(* ================================================================== *)

(** What the proofs use of the numeric library: a square root is not
    negative, and an exponential is not negative. *)
Record RuntimeLaws (rt : Runtime) : Prop := {
  sqrtQ_nonneg : forall q, 0 <= q -> 0 <= sqrtQ rt q;
  expQ_nonneg : forall q, 0 <= expQ rt q
}.

(** The parameters under which no score is negative: no weight of the
    composite is below zero. *)
Definition nonNegativeWeights (p : Scoring.ScoringParams) : bool :=
  negb (Scoring.smoothPnlWeight p <? 0)%num && negb (Scoring.winRateWeight p <? 0)%num
  && negb (Scoring.pnlWeight p <? 0)%num && negb (Scoring.tradeFreqWeight p <? 0)%num.

(* ================================================================== *)
(** ** Predicates of the statements *)
(* ================================================================== *)

(** [n] is the finite number [q]. *)
Definition isNum (n : num) (q : Q) : Prop :=
  match n with Fin p => p == q | _ => False end.

(** [n] is a finite number between [lo] and [hi]. *)
Definition within (lo hi : Q) (n : num) : Prop :=
  match n with Fin p => lo <= p <= hi | _ => False end.

(** [n] is not below zero: it is NaN, or zero or more. *)
Definition notNeg (n : num) : Prop := (n <? 0)%num = false.

(** A finite number that is zero or more. *)
Definition finNonNeg (n : num) : Prop :=
  match n with Fin p => 0 <= p | _ => False end.

(** The rational value of a finite number. *)
Definition toQ (n : num) : Q :=
  match n with Fin q => q | _ => 0 end.

(** The score of an entry, and its positive part [Math.max(score, 0)]. *)
Definition scoreQ (e : ScoredEntry) : Q := toQ (score e).
Definition positivePart (e : ScoredEntry) : Q := toQ (JS.max (score e) 0).

Definition qsum {A : Type} (f : A -> Q) (l : list A) : Q :=
  fold_right (fun e acc => f e + acc) 0 l.

(** The sum of the weights of a list of entries. *)
Definition weightSum (l : list RankedEntry) : num :=
  fold_right (fun e acc => (weight e + acc)%num) 0%num l.

(** Some entry of the list has a positive score. *)
Definition somePositive (l : list RankedEntry) : bool :=
  existsb (fun e : RankedEntry => (score e >? 0)%num) l.

(** No score of the list is below zero. *)
Definition noNegativeScore (l : list RankedEntry) : bool :=
  forallb (fun e : RankedEntry => negb (score e <? 0)%num) l.

(** From position [i] on, the weight of an entry in the first [K]
    positions is [v e / t], and 0 beyond them. *)
Fixpoint weightsFrom (K : nat) (v : RankedEntry -> Q) (t : Q) (i : nat)
    (l : list RankedEntry) : Prop :=
  match l with
  | [] => True
  | e :: rest =>
      isNum (weight e) (if (i <? K)%nat then v e / t else 0)
      /\ weightsFrom K v t (S i) rest
  end.

(** The weights of a list are normalized over its first [K] entries: they
    sum to 1 when one of these entries has a positive score and to 0
    otherwise, every entry beyond them has the weight 0, and every weight
    lies between 0 and 1. *)
Definition normalized (K : nat) (l : list RankedEntry) : Prop :=
  isNum (weightSum (firstn K l)) (if somePositive (firstn K l) then 1 else 0)
  /\ Forall (fun e : RankedEntry => weight e = 0%num) (skipn K l)
  /\ Forall (fun e : RankedEntry => within 0 1 (weight e)) l.

(** Descending order of the scores. *)
Definition scoreGe (a b : ScoredEntry) : Prop := toQ (score b) <= toQ (score a).
Definition rankedScoreGe (a b : RankedEntry) : Prop := scoreGe a b.

(** What the re-filter and the re-weighting leave untouched in an entry. *)
Definition core (e : RankedEntry) : num * nat * option bool :=
  (score e, rank e, filtered e).


(** The re-filter of phase 2 runs: some entry is enriched. *)
Definition refilterRuns (selectCount enrichCount : nat) : bool :=
  (0 <? Nat.max enrichCount (selectCount * 2))%nat.


(** The record the scorer calls suspicious: a win rate of 0.999 or more
    with ten orders or more. *)
Definition suspiciousRecord (e : ScoredEntry) : bool :=
  (winRate e >=? Fin 0.999)%num && (executedOrders e >=? Fin 10)%num.

(** All the details of a score are finite numbers. *)
Definition finiteDetails (d : Scoring.ScoringDetails) : bool :=
  isFinite (Scoring.smoothPnlScore d) && isFinite (Scoring.maxDrawdown d)
  && isFinite (Scoring.rawWinRate d) && isFinite (Scoring.adjWinRate d)
  && isFinite (Scoring.normalizedPnl d) && isFinite (Scoring.tradeFreqScore d)
  && isFinite (Scoring.wc_smoothPnl (Scoring.weightedComponents d))
  && isFinite (Scoring.wc_winRate (Scoring.weightedComponents d))
  && isFinite (Scoring.wc_pnl (Scoring.weightedComponents d))
  && isFinite (Scoring.wc_tradeFreq (Scoring.weightedComponents d)).

(** The invariant of the drawdown loop. *)
Definition ddInv (st : Scoring.DrawdownState) : Prop :=
  exists p m s, Scoring.peak st = Fin p /\ Scoring.mdd st = Fin m
                /\ Scoring.ddSqSum st = Fin s /\ 0 <= m /\ 0 <= s.

(** The fields of a [RankedEntry] that [applyStatsToEntry] must not touch. *)
Definition sameFrame (a b : RankedEntry) : Prop :=
  address a = address b /\ rank a = rank b /\ score a = score b
  /\ weight a = weight b /\ executedOrders a = executedOrders b
  /\ realizedPnl a = realizedPnl b /\ efficiency a = efficiency b
  /\ pnlConsistency a = pnlConsistency b /\ remark a = remark b
  /\ labels a = labels b /\ filtered a = filtered b
  /\ filterReason a = filterReason b.

(** The new value of a [stat*] field: the statistic when it coerces to a
    finite number, the previous value otherwise. *)
Definition statUpdated (stat previous updated : option num) : Prop :=
  match stat with
  | Some (Fin q) => updated = Some (Fin q)
  | _ => updated = previous
  end.

(** The number that [v] coerces to, when the conversion returns. *)
Definition coerced (rt : Runtime) (v : JsVal) : num := Number rt v ?? NaN.

(** The items of a history on which [parseHistoryPoints] throws: the
    arrays of two elements or more one of whose first two elements does
    not convert. *)
Definition throwingItem (item : JsVal) : bool :=
  match item with
  | JArray elems =>
      (2 <=? length elems)%nat
      && (throwsTypeError (index elems 0) || throwsTypeError (index elems 1))
  | _ => false
  end.

(** The items of a history that [parseHistoryPoints] keeps: the arrays of
    two elements or more whose first element coerces to a finite number. *)
Definition keptItem (rt : Runtime) (item : JsVal) : bool :=
  match item with
  | JArray elems => (2 <=? length elems)%nat && isFinite (coerced rt (index elems 0))
  | _ => false
  end.

(** The point of a kept item: its value is the coerced second element, or
    0 when that is not a finite number. *)
Definition pointOfItem (rt : Runtime) (item : JsVal) : HistoryPoint :=
  match item with
  | JArray elems =>
      {| ts := coerced rt (index elems 0);
         value := if isFinite (coerced rt (index elems 1))
                  then coerced rt (index elems 1) else 0%num |}
  | _ => {| ts := NaN; value := 0%num |}
  end.

(** The rows of a portfolio payload that [fetchPortfolioSeries] cannot
    read: a window name that does not convert to a string, or a history
    with an item that throws. *)
Definition throwingHistory (input : JsVal) : bool :=
  match input with
  | JArray items => existsb throwingItem items
  | _ => false
  end.

Definition throwingRow (row : JsVal) : bool :=
  match row with
  | JArray elems =>
      (2 <=? length elems)%nat
      && (throwsTypeError (index elems 0)
          || let data := if truthyVal (index elems 1) then index elems 1 else JObject [] in
             throwingHistory (getProp data "pnlHistory")
             || throwingHistory (getProp data "accountValueHistory"))
  | _ => false
  end.

(** The rows that [fetchPortfolioSeries] reads from a payload. *)
Definition rowsOf (payload : JsVal) : list JsVal :=
  match payload with
  | JArray items => items
  | _ => match getPropOpt payload "value" with
         | JArray items => items
         | _ => []
         end
  end.

(** The five fields of [data] that [fetchAddressStat] converts with
    [Number]. *)
Definition convertedFields : list string :=
  ["openPosCount"; "closePosCount"; "avgPosDuration"; "totalPnl"; "maxDrawdown"]%string.

Definition throwingData (data : JsVal) : bool :=
  existsb (fun key => throwsTypeError (getProp data key)) convertedFields.

(** Key equality of a [Map] of numbers, as a relation. *)
Definition sameKey (a b : num) : Prop := sameValueZero a b = true.

(** The time value of a number is an integer number of milliseconds. *)
Definition integralTs (t : num) : Prop := exists z : Z, t = Fin (inject_Z z).

Definition integralSeries (s : PortfolioWindowSeries) : Prop :=
  Forall (fun p => integralTs (ts p)) (pnlHistory s)
  /\ Forall (fun p => integralTs (ts p)) (equityHistory s).

(* ================================================================== *)
(** ** A runtime and inputs for the examples *)
(* ================================================================== *)

(** Rational stand-ins for the numeric library, exact enough to run the
    examples: the integer square root of the fraction, the second-order
    approximation of the exponential, and the first term of the series of
    the logarithm. *)
Definition sqrtApprox (q : Q) : Q :=
  Z.sqrt (Qnum q * Zpos (Qden q)) # Qden q.

Definition expApprox (q : Q) : Q :=
  if Qlt_le_dec q 0 then 1 / (1 - q + q * q / 2) else 1 + q + q * q / 2.

Definition log10Approx (q : Q) : Q := 0.8686 * ((q - 1) / (q + 1)).

Definition digitOf (c : ascii) : option Z :=
  let n := nat_of_ascii c in
  if ((48 <=? n) && (n <=? 57))%nat then Some (Z.of_nat (n - 48)) else None.

Fixpoint parseDigits (s : string) (acc : Z) : option Z :=
  match s with
  | EmptyString => Some acc
  | String.String c rest =>
      match digitOf c with
      | Some d => parseDigits rest (10 * acc + d)%Z
      | None => None
      end
  end.

(** Decimal integers only; anything else is NaN. *)
Definition parseInteger (s : string) : num :=
  match s with
  | EmptyString => NaN
  | String.String "-"%char rest =>
      match rest, parseDigits rest 0 with
      | String.String _ _, Some z => Fin (inject_Z (- z))
      | _, _ => NaN
      end
  | _ =>
      match parseDigits s 0 with
      | Some z => Fin (inject_Z z)
      | None => NaN
      end
  end.

Definition exampleRuntime : Runtime := {|
  sqrtQ := sqrtApprox;
  expQ := expApprox;
  log10Q := log10Approx;
  parseFloat := parseInteger;
  StringToNumber := fun s => if String.eqb s EmptyString then JS.zero else parseInteger s;
  ObjectToNumber := fun v => match v with JArray [] => JS.zero | _ => NaN end;
  ToStringOther := fun _ => EmptyString
|}.

(** Raw entries of the examples. *)
Definition trader (address : string) (winRate executedOrders realizedPnl : Q)
    (maxDrawdown : option num) (pnlList : list Raw.PnlItem) : Raw.LeaderboardRawEntry :=
  {| Raw.address := address;
     Raw.winRate := Some (Fin winRate);
     Raw.executedOrders := Some (Fin executedOrders);
     Raw.realizedPnl := Some (Fin realizedPnl);
     Raw.remark := None;
     Raw.labels := None;
     Raw.pnlList := Some pnlList;
     Raw.accountValue := None;
     Raw.startingEquity := None;
     Raw.maxDrawdown := maxDrawdown;
     Raw.numWins := None;
     Raw.numLosses := None;
     Raw.stats := None |}.

(** Statistics that report only a drawdown. *)
Definition drawdownStats (d : Q) : AddressStats.AddressStats :=
  {| AddressStats.winRate := None;
     AddressStats.openPosCount := None;
     AddressStats.closePosCount := None;
     AddressStats.avgPosDuration := None;
     AddressStats.totalPnl := None;
     AddressStats.maxDrawdown := Some (Fin d) |}.

(** Three traders without trades: each scores [0.30 * 0.5 = 0.15]. *)
Definition threeIdle : list Raw.LeaderboardRawEntry :=
  [ trader "0xa" 0 0 0 None [];
    trader "0xb" 0 0 0 None [];
    trader "0xc" 0 0 0 None [] ].

(** The enrichment reports a drawdown of 90% for the first of them. *)
Definition firstBlownUp : StatsMap :=
  fun address => if String.eqb address "0xa" then Some (drawdownStats 0.9) else None.


Definition noEnrichment : StatsMap := fun _ => None.

(** A trader with 400 orders, alone on the leaderboard. *)
Definition loneScalper : list Raw.LeaderboardRawEntry :=
  [ trader "0xd" 0.5 400 1000 None [] ].

(** A trader over the drawdown limit and a perfect record of 50 trades. *)
Definition blownUpAndPerfect : list Raw.LeaderboardRawEntry :=
  [ trader "0xe" 0.5 50 1000 (Some (Fin 0.9)) [];
    trader "0xf" 1 50 1000 None [] ].

(** A trader over the drawdown limit and one without trades. *)
Definition blownUpAndIdle : list Raw.LeaderboardRawEntry :=
  [ trader "0xe" 0.5 50 1000 (Some (Fin 0.9)) [];
    trader "0xa" 0 0 0 None [] ].

(** Ten trades, half of them won, and a realized PnL that is not a number
    (as [Number("n/a")] is). *)
Definition nanPnlStats : Scoring.AccountStats :=
  {| Scoring.realizedPnl := NaN;
     Scoring.numTrades := Fin 10;
     Scoring.numWins := Fin 5;
     Scoring.numLosses := Fin 5;
     Scoring.pnlList := Some [] |}.

(** The same trades with a realized PnL of 1000 and a rising series. *)
Definition steadyStats : Scoring.AccountStats :=
  {| Scoring.realizedPnl := Fin 1000;
     Scoring.numTrades := Fin 10;
     Scoring.numWins := Fin 5;
     Scoring.numLosses := Fin 5;
     Scoring.pnlList :=
       Some [ Scoring.Pt_tuple (Fin 1) (Scoring.NS_num (Fin 0));
              Scoring.Pt_tuple (Fin 2) (Scoring.NS_str "400");
              Scoring.Pt_object (Some (Fin 3)) (Some (Scoring.NS_num (Fin 300))) None;
              Scoring.Pt_number (Fin 1000) ] |}.

(** The answer [{"data": {"winRate": 1e999}}] of the statistics endpoint:
    the literal overflows to [Infinity] when the body is decoded. *)
Definition overflowingWinRate : JsVal :=
  JObject [("data", JObject [("winRate", JNumber PInf)])]%string.

(** The answer [{"data": {"winRate": 0.5, "totalPnl": {"toString": 0}}}]:
    [Number] throws on the total PnL. *)
Definition unconvertibleStats : JsVal :=
  JObject [("data",
            JObject [("winRate", JNumber (Fin 0.5));
                     ("totalPnl", JObject [("toString", JNumber (Fin 0))])])]%string.

Definition alwaysAnswers (payload : JsVal) : Upstream :=
  fun _ _ => Responded payload.

(** An upstream that fails every attempt with HTTP 503. *)
Definition alwaysDown : Upstream := fun _ _ => Failed (HttpError 503).

(** A history with a point whose value is not numeric between two
    well-formed points, and a point without timestamp. *)
Definition patchyHistory : JsVal :=
  JArray [ JArray [JNumber (Fin 1000); JString "5"];
           JArray [JNumber (Fin 2000); JString "n/a"];
           JArray [JString "soon"; JNumber (Fin 7)];
           JArray [JNumber (Fin 3000); JNumber (Fin 9)] ]%string.

(** A history whose second point has a value on which [Number] throws,
    between two well-formed points. *)
Definition unconvertibleHistory : JsVal :=
  JArray [ JArray [JNumber (Fin 1000); JNumber (Fin 5)];
           JArray [JNumber (Fin 2000); JObject [("toString", JNumber (Fin 0))]];
           JArray [JNumber (Fin 3000); JNumber (Fin 9)] ]%string.

(** A tracked entry whose raw series has two points at the same
    timestamp. *)
Definition doubledPoint : list Raw.LeaderboardRawEntry :=
  [ trader "0xa" 0.5 10 100 None
      [ {| Raw.timestamp := Fin 1700000000000; Raw.value := "10" |};
        {| Raw.timestamp := Fin 1700000000000; Raw.value := "12" |} ] ].

(** A portfolio window with a PnL and an equity sample at one timestamp,
    and a later PnL sample. *)
Definition monthSeries : PortfolioWindowSeries :=
  {| window := "month";
     pnlHistory := [ {| ts := Fin 2000; value := Fin 5 |};
                     {| ts := Fin 1000; value := Fin 3 |} ];
     equityHistory := [ {| ts := Fin 1000; value := Fin 900 |} ] |}.

(* ================================================================== *)
(** ** The scoring module: ranking of accounts *)
(* ================================================================== *)

(** [a ?? b] when [b] may be absent too. *)
Definition coalesce {A : Type} (a b : option A) : option A :=
  match a with
  | Some _ => a
  | None => b
  end.

(** [l.slice(0, end)] for an integer [end]: a negative [end] counts from
    the end of the array. *)
Definition sliceTo {A : Type} (stop : Z) (l : list A) : list A :=
  if (stop <? 0)%Z
  then firstn (Z.to_nat (Z.max (Z.of_nat (length l) + stop) 0)) l
  else firstn (Z.to_nat stop) l.

Module Accounts.

(** [RankableAccount]; [meta] is carried along and never read. *)
Record RankableAccount : Type := {
  address : string;
  stats : Scoring.AccountStats;
  isCustom : option bool;
  meta : option JsVal
}.

(** An account with the result of its scoring: the objects that
    [rankAccounts] and [selectAndRankAccounts] filter and sort. *)
Record ScoredAccount : Type := {
  sAddress : string;                               (* address *)
  score : num;
  sStats : Scoring.AccountStats;                   (* stats *)
  details : Scoring.ScoringDetails;
  sIsCustom : bool;                                (* isCustom *)
  filtered : bool;
  filterReason : option Scoring.FilterReason;
  sMeta : option JsVal                             (* meta *)
}.

(** [RankedAccount]: a scored account and its rank. *)
Record RankedAccount : Type := {
  scored :> ScoredAccount;
  rank : nat
}.

Definition byAccountScore (a b : ScoredAccount) : num := (score b - score a)%num.

Definition withRank (account : ScoredAccount) (index : nat) : RankedAccount :=
  {| scored := account; rank := index + 1 |}.

Definition unranked (account : ScoredAccount) : RankedAccount :=
  {| scored := account; rank := 0 |}.

Section WithRuntime.
Variable rt : Runtime.
Variable params : Scoring.ScoringParams.

(** The callback of [accounts.map] in [rankAccounts]. *)
Definition scoreAccount (account : RankableAccount) : ScoredAccount :=
  let result := Scoring.computePerformanceScore rt (stats account) params in
  {| sAddress := address account;
     score := Scoring.score result;
     sStats := stats account;
     details := Scoring.details result;
     sIsCustom := isCustom account ?? false;
     filtered := Scoring.filtered result;
     filterReason := Scoring.filterReason result;
     sMeta := meta account |}.

Definition rankAccounts (accounts : list RankableAccount) (includeFiltered : bool)
    : list RankedAccount :=
  let allScored := map scoreAccount accounts in
  let validAccounts := filter (fun a => negb (filtered a)) allScored in
  let filteredAccounts := filter (fun a => filtered a) allScored in
  let ranked := mapi withRank (sort byAccountScore validAccounts) in
  if includeFiltered && (0 <? length filteredAccounts)%nat
  then ranked ++ map unranked filteredAccounts
  else ranked.

(** The callback of the two [map]s of [selectAndRankAccounts]: the account
    with its score, marked as custom or not. *)
Definition scoreAs (custom : bool) (account : RankableAccount) : ScoredAccount :=
  let result := Scoring.computePerformanceScore rt (stats account) params in
  {| sAddress := address account;
     score := Scoring.score result;
     sStats := stats account;
     details := Scoring.details result;
     sIsCustom := custom;
     filtered := Scoring.filtered result;
     filterReason := Scoring.filterReason result;
     sMeta := meta account |}.

(** [customAddresses.has(account.address.toLowerCase())]. *)
Definition isCustomAddress (customAddresses : list string) (account : ScoredAccount)
    : bool :=
  existsb (String.eqb (toLowerCase (sAddress account))) customAddresses.

Definition selectAndRankAccounts (systemAccounts customAccounts : list RankableAccount)
    (topN : Z) : list RankedAccount :=
  let scoredSystem := map (scoreAs false) systemAccounts in
  let validSystem := sort byAccountScore (filter (fun a => negb (filtered a)) scoredSystem) in
  let topSystem := sliceTo topN validSystem in
  let scoredCustom := map (scoreAs true) (sliceTo 3 customAccounts) in
  let allAccounts := topSystem ++ scoredCustom in
  let customAddresses := map (fun a => toLowerCase (sAddress a)) scoredCustom in
  let deduped :=
    filter (fun account =>
              if sIsCustom account then true
              else negb (isCustomAddress customAddresses account))
           allAccounts in
  mapi withRank (sort byAccountScore deduped).

End WithRuntime.

End Accounts.

(** The argument of [mapToAccountStats]: an entry of the database or of the
    API, with each field under its camel-case or its snake-case name. *)
Module StatsSource.

Record StatsEntry : Type := {
  realizedPnl : option num;
  realized_pnl : option num;
  numTrades : option num;
  num_trades : option num;
  executedOrders : option num;
  executed_orders : option num;
  statClosedPositions : option num;
  stat_closed_positions : option num;
  numWins : option num;
  num_wins : option num;
  numLosses : option num;
  num_losses : option num;
  winRate : option num;
  win_rate : option num;
  pnlList : option (list Scoring.PnlPoint);
  pnl_list : option (list Scoring.PnlPoint)
}.

End StatsSource.

Definition mapToAccountStats (entry : StatsSource.StatsEntry) : Scoring.AccountStats :=
  let realizedPnl :=
    coalesce (StatsSource.realizedPnl entry) (StatsSource.realized_pnl entry) ?? 0%num in
  let numTrades :=
    coalesce
      (coalesce
         (coalesce
            (coalesce
               (coalesce (StatsSource.numTrades entry) (StatsSource.num_trades entry))
               (StatsSource.executedOrders entry))
            (StatsSource.executed_orders entry))
         (StatsSource.statClosedPositions entry))
      (StatsSource.stat_closed_positions entry) ?? 0%num in
  let numWins := coalesce (StatsSource.numWins entry) (StatsSource.num_wins entry) ?? 0%num in
  let numLosses :=
    coalesce (StatsSource.numLosses entry) (StatsSource.num_losses entry) ?? 0%num in
  let estimate := (numWins === 0)%num && (numLosses === 0)%num && (numTrades >? 0)%num in
  let winRate :=
    coalesce (StatsSource.winRate entry) (StatsSource.win_rate entry) ?? Fin 0.5 in
  let numWins' := if estimate then JS.round (numTrades * winRate)%num else numWins in
  let numLosses' := if estimate then (numTrades - numWins')%num else numLosses in
  let pnlList := coalesce (StatsSource.pnlList entry) (StatsSource.pnl_list entry) ?? [] in
  {| Scoring.realizedPnl := realizedPnl;
     Scoring.numTrades := numTrades;
     Scoring.numWins := numWins';
     Scoring.numLosses := numLosses';
     Scoring.pnlList := Some pnlList |}.

(** Descending order of the scores of ranked accounts. *)
Definition accountScoreGe (a b : Accounts.RankedAccount) : Prop :=
  toQ (Accounts.score (Accounts.scored b)) <= toQ (Accounts.score (Accounts.scored a)).

(** The scored accounts that passed the hard filter of the scorer. *)
Definition validAccount (a : Accounts.ScoredAccount) : bool := negb (Accounts.filtered a).

(** Accounts of the examples: two system accounts and a custom account
    that is one of them under another spelling of its address. *)
Definition systemPair : list Accounts.RankableAccount :=
  [ {| Accounts.address := "0xAA"; Accounts.stats := steadyStats;
       Accounts.isCustom := None; Accounts.meta := None |};
    {| Accounts.address := "0xbb"; Accounts.stats := nanPnlStats;
       Accounts.isCustom := None; Accounts.meta := None |} ].

Definition customOne : list Accounts.RankableAccount :=
  [ {| Accounts.address := "0xaa"; Accounts.stats := steadyStats;
       Accounts.isCustom := Some true; Accounts.meta := None |} ].

(** A row of the database with ten executed orders and a win rate of 55%,
    without counts of wins and losses. *)
Definition tenOrders : StatsSource.StatsEntry :=
  {| StatsSource.realizedPnl := None; StatsSource.realized_pnl := Some (Fin 250);
     StatsSource.numTrades := None; StatsSource.num_trades := None;
     StatsSource.executedOrders := None; StatsSource.executed_orders := Some (of_nat 10);
     StatsSource.statClosedPositions := None;
     StatsSource.stat_closed_positions := Some (of_nat 7);
     StatsSource.numWins := None; StatsSource.num_wins := None;
     StatsSource.numLosses := None; StatsSource.num_losses := None;
     StatsSource.winRate := None; StatsSource.win_rate := Some (Fin 0.55);
     StatsSource.pnlList := None; StatsSource.pnl_list := None |}.

(** [n] is NaN, or a finite number between [lo] and [hi]. *)
Definition nanOrWithin (lo hi : Q) (n : num) : Prop :=
  match n with
  | NaN => True
  | Fin p => lo <= p <= hi
  | _ => False
  end.

(** What the bounds of the trade-frequency score use of [Math.exp]: the
    exponential of a number that is not positive lies between 0 and 1. *)
Definition unitExp (rt : Runtime) : Prop :=
  forall q, q <= 0 -> 0 <= expQ rt q <= 1.

(** [Number.MAX_VALUE], the largest finite double: (2 - 2^-52) * 2^1023. *)
Definition MAX_VALUE : Q := inject_Z (2 ^ 1024 - 2 ^ 971).

(** The result of an operation on doubles is finite when its exact value
    is no larger than [Number.MAX_VALUE]; beyond, the source's operation
    overflows to an infinity where the embedding goes on with the exact
    value.  The statements that depend on it are confined to this range. *)
Definition inDoubleRange (q : Q) : Prop := Qabs q <= MAX_VALUE.

(** [n] is not NaN and not negative: a finite number from 0 on, or
    [+Infinity]. *)
Definition notNegative (n : num) : Prop :=
  match n with
  | Fin p => 0 <= p
  | PInf => True
  | _ => False
  end.

(** No value of a series is farther from the first one than
    [Number.MAX_VALUE]: each [v - base] is finite in the source. *)
Definition shiftsInRange (values : list num) : Prop :=
  Forall (fun v => inDoubleRange (toQ v - toQ (hd 0%num values))) values.

(** The square root of zero is zero. *)
Definition sqrtOfZero (rt : Runtime) : Prop :=
  forall q, q == 0 -> sqrtQ rt q == 0.

(** A series that rises, falls back and recovers. *)
Definition unevenSeries : list Scoring.PnlPoint :=
  [ Scoring.Pt_number (Fin 100);
    Scoring.Pt_tuple (Fin 2) (Scoring.NS_num (Fin 160));
    Scoring.Pt_object (Some (Fin 3)) None (Some (Scoring.NS_num (Fin 130)));
    Scoring.Pt_object None None None;
    Scoring.Pt_number (Fin 180) ].

(** A series of five points that never falls. *)
Definition risingSeries : list Scoring.PnlPoint :=
  [ Scoring.Pt_number (Fin 100);
    Scoring.Pt_number (Fin 120);
    Scoring.Pt_number (Fin 150);
    Scoring.Pt_number (Fin 155);
    Scoring.Pt_number (Fin 190) ].

(** A point of a history with a finite timestamp and a finite value. *)
Definition finitePoint (p : HistoryPoint) : Prop :=
  isFinite (ts p) = true /\ isFinite (value p) = true.

(** A window series as [fetchPortfolioSeries] returns them: at least one
    point, and finite points only. *)
Definition wellFormedSeries (s : PortfolioWindowSeries) : Prop :=
  (pnlHistory s <> [] \/ equityHistory s <> [])
  /\ Forall finitePoint (pnlHistory s)
  /\ Forall finitePoint (equityHistory s).

(** The value of the last point of a history at the timestamp [t], if the
    history has a point there. *)
Definition lastValueAt (t : num) (points : list HistoryPoint) : option num :=
  fold_left (fun acc p => if sameValueZero (ts p) t then Some (value p) else acc)
    points None.

(** Ascending order of the timestamps of samples. *)
Definition sampleTsLe (a b : Sample) : Prop := toQ (sampleTs a) <= toQ (sampleTs b).

(** The PnL and the equity that a map records at a timestamp. *)
Definition pnlAt (m : TsMap) (t : num) : option num :=
  match mapGet m t with Some v => pnl v | None => None end.

Definition equityAt (m : TsMap) (t : num) : option num :=
  match mapGet m t with Some v => equity v | None => None end.

(* ================================================================== *)
(** ** The leaderboard service: the pages of a period *)
(* ================================================================== *)

(** The answer of the leaderboard endpoint to the request of one page:
    the call throws ([fetch] rejects, the status is not ok, or the body is
    not JSON), or the body is decoded and [payload?.data] is read, [None]
    when it is absent. *)
Inductive PageAttempt : Type :=
| PageFailed (err : FetchError)
| PageResponded (data : option (list Raw.LeaderboardRawEntry)).

(** The leaderboard endpoint: the answer to the request of a page of a
    period. *)
Definition LeaderboardUpstream : Type := nat -> nat -> PageAttempt.

(** [Math.ceil(topN / pageSize)] for two counts: a number of pages, or
    [Infinity] when only the page size is 0 ([0 / 0] is NaN, and the loop
    condition [page <= NaN] is false from the first page, as it is for no
    page at all). *)
Inductive PageBound : Type :=
| Pages (n : nat)
| Endless.

Definition pagesNeeded (topN pageSize : nat) : PageBound :=
  match pageSize with
  | O => if (topN =? 0)%nat then Pages 0 else Endless
  | S _ => Pages ((topN + pageSize - 1) / pageSize)
  end.

(** [page <= pagesNeeded]. *)
Definition pageWithin (page : nat) (bound : PageBound) : bool :=
  match bound with
  | Pages n => (page <=? n)%nat
  | Endless => true
  end.

(** The loop of [fetchPeriod] from the page [page] on, with [results]
    collected so far.  The loop has no bound of its own when
    [pagesNeeded] is [Infinity]: [fuel] bounds the number of iterations,
    and [None] is a loop that has not ended within it. *)
Fixpoint fetchPages (fuel : nat) (upstream : nat -> PageAttempt) (pageSize : nat)
    (bound : PageBound) (page : nat) (results : list Raw.LeaderboardRawEntry)
    : option (Outcome (list Raw.LeaderboardRawEntry)) :=
  match fuel with
  | O => None
  | S fuel' =>
      if pageWithin page bound then
        match upstream page with
        | PageFailed err => Some (Thrown err)
        | PageResponded payloadData =>
            let data := payloadData ?? [] in
            let results' := results ++ data in
            if (length data <? pageSize)%nat then Some (Returned results')
            else fetchPages fuel' upstream pageSize bound (S page) results'
        end
      else Some (Returned results)
  end.

Definition fetchPeriod (fuel : nat) (upstream : LeaderboardUpstream)
    (topN pageSize period : nat) : option (Outcome (list Raw.LeaderboardRawEntry)) :=
  match fetchPages fuel (upstream period) pageSize (pagesNeeded topN pageSize) 1 [] with
  | Some (Returned results) => Some (Returned (firstn topN results))
  | Some (Thrown err) => Some (Thrown err)
  | None => None
  end.

(** The entries of a page that responded. *)
Definition pageData (upstream : nat -> PageAttempt) (page : nat)
    : list Raw.LeaderboardRawEntry :=
  match upstream page with
  | PageResponded payloadData => payloadData ?? []
  | PageFailed _ => []
  end.

(** The entries of the pages 1 to [k], in order. *)
Definition pagesUpTo (upstream : nat -> PageAttempt) (k : nat)
    : list Raw.LeaderboardRawEntry :=
  flat_map (pageData upstream) (seq 1 k).

(** A page that responded with [pageSize] entries or more. *)
Definition fullPage (upstream : nat -> PageAttempt) (pageSize page : nat) : Prop :=
  exists payloadData,
    upstream page = PageResponded payloadData
    /\ (pageSize <= length (payloadData ?? []))%nat.

(** An endpoint that serves three traders on the first page and one on the
    second, whatever the period. *)
Definition twoPages : LeaderboardUpstream :=
  fun _ page =>
    match page with
    | 1%nat => PageResponded (Some threeIdle)
    | 2%nat => PageResponded (Some loneScalper)
    | _ => PageFailed (HttpError 500)
    end.

(** An endpoint that serves the same full page for ever. *)
Definition endlessPages : LeaderboardUpstream :=
  fun _ _ => PageResponded (Some threeIdle).

(* ================================================================== *)
(** ** The leaderboard service: the two batches of requests *)
(* ================================================================== *)

(** A [Map] with string keys, in insertion order. *)
Fixpoint strMapGet {V : Type} (m : list (string * V)) (k : string) : option V :=
  match m with
  | [] => None
  | (k', v) :: rest => if String.eqb k' k then Some v else strMapGet rest k
  end.

Fixpoint strMapSet {V : Type} (m : list (string * V)) (k : string) (v : V)
    : list (string * V) :=
  match m with
  | [] => [(k, v)]
  | (k', v') :: rest =>
      if String.eqb k' k then (k', v) :: rest else (k', v') :: strMapSet rest k v
  end.

(** [runWithConcurrency] calls its worker once for each item, a bounded
    number of calls at a time, and discards what a call throws.  The
    workers of the two batches await one request and then write to the map
    of the batch: the writes happen in the order in which the requests
    complete, which is some order of the items.  The batches below take
    that order as their argument [completed]. *)
Section Batches.
Variable rt : Runtime.
Variable upstream : Upstream.
Variable period : nat.

(** The worker of [fetchAddressStatsBatch], from its request on. *)
Definition statsWorker (m : list (string * AddressStats.AddressStats)) (address : string)
    : list (string * AddressStats.AddressStats) :=
  match fetchAddressStat rt upstream address period with
  | Returned (Some stats) => strMapSet m (toLowerCase address) stats
  | _ => m
  end.

Definition fetchAddressStatsBatch (completed : list string)
    : list (string * AddressStats.AddressStats) :=
  fold_left statsWorker completed [].

(** The worker of [fetchPortfolioSeriesBatch], from its request on. *)
Definition seriesWorker (m : SeriesMap) (e : RankedEntry) : SeriesMap :=
  match fetchPortfolioSeries rt upstream (address e) with
  | Returned (Some (w :: ws)) =>
      match filter (fun s => windowMatches (window s) period) (w :: ws) with
      | [] => m
      | relevant => strMapSet m (toLowerCase (address e)) relevant
      end
  | _ => m
  end.

Definition fetchPortfolioSeriesBatch (completed : list RankedEntry) : SeriesMap :=
  fold_left seriesWorker completed [].

End Batches.

(** What [fetchAddressStat] returned for an address, [None] for [null]. *)
Definition statsOf (rt : Runtime) (upstream : Upstream) (period : nat) (address : string)
    : option AddressStats.AddressStats :=
  match fetchAddressStat rt upstream address period with
  | Returned r => r
  | Thrown _ => None
  end.

(** A value of the map of series: windows of the period, one at least,
    with finite points. *)
Definition relevantSeries (period : nat) (seriesList : list PortfolioWindowSeries) : Prop :=
  seriesList <> []
  /\ Forall (fun s => windowMatches (window s) period = true /\ wellFormedSeries s)
       seriesList.

(** An endpoint of statistics that knows the address ["0xa"] only. *)
Definition knowsOne : Upstream :=
  fun request _ =>
    match request with
    | AddrStatRequest address _ =>
        if String.eqb address "0xa"
        then Responded (JObject [("data", JObject [("maxDrawdown", JNumber (Fin 0.9))])])
        else Failed (HttpError 404)
    | PortfolioRequest _ => Failed (HttpError 404)
    end%string.

(* ================================================================== *)
(** ** The persister: the transaction of a period *)
(* ================================================================== *)

(** The statements that [persistPeriod] sends on its connection.  An
    [INSERT] carries the rows of its [VALUES] list; the one into
    [hl_leaderboard_entries] updates a row in conflict. *)
Inductive Statement : Type :=
| BEGIN
| DELETE_ENTRIES (period : nat)
| DELETE_POINTS (period : nat)
| INSERT_ENTRIES (period : nat) (rows : list RankedEntry)
| INSERT_POINTS (period : nat) (rows : list PnlPointRow)
| COMMIT
| ROLLBACK.

Inductive DbError : Type :=
| QueryError (code : nat).

(** The database: the error with which [client.query] rejects a
    statement, if it does, after the statements sent before it. *)
Definition Database : Type := list Statement -> Statement -> option DbError.

(** A computation on the connection: from the statements sent so far to
    the statements sent after it and its result or the error it throws. *)
Definition Tx (A : Type) : Type := list Statement -> list Statement * (A + DbError).

Definition retTx {A : Type} (a : A) : Tx A := fun sent => (sent, inl a).

Definition throwTx {A : Type} (err : DbError) : Tx A := fun sent => (sent, inr err).

Definition bindTx {A B : Type} (m : Tx A) (k : A -> Tx B) : Tx B :=
  fun sent =>
    match m sent with
    | (sent', inl a) => k a sent'
    | (sent', inr err) => (sent', inr err)
    end.

Notation "m >> k" := (bindTx m (fun _ => k)) (at level 61, left associativity).

(** [try { body } catch (err) { handler }]. *)
Definition catchTx {A : Type} (body : Tx A) (handler : DbError -> Tx A) : Tx A :=
  fun sent =>
    match body sent with
    | (sent', inl a) => (sent', inl a)
    | (sent', inr err) => handler err sent'
    end.

(** [await client.query(statement)]. *)
Definition query (db : Database) (statement : Statement) : Tx unit :=
  fun sent =>
    (sent ++ [statement],
     match db sent statement with
     | None => inl tt
     | Some err => inr err
     end).

(** [for (const x of items) { await body(x) }]. *)
Fixpoint forEachTx {A : Type} (items : list A) (body : A -> Tx unit) : Tx unit :=
  match items with
  | [] => retTx tt
  | x :: rest => body x >> forEachTx rest body
  end.

Section Transaction.
Variable rt : Runtime.
Variable db : Database.
Variable period : nat.

(** [insertPnlPointsInTransaction] on the connection: one [INSERT] for
    each chunk of 400 points. *)
Definition insertPnlPointsTx (tracked : list RankedEntry) (hyperliquidSeries : SeriesMap)
    : Tx unit :=
  forEachTx (insertPnlPointsInTransaction rt period tracked hyperliquidSeries)
    (fun chunk => query db (INSERT_POINTS period chunk)).

(** [persistPeriod], once the connection is open; releasing the
    connection at the end is not a statement. *)
Definition persistPeriod (entries tracked : list RankedEntry)
    (hyperliquidSeries : SeriesMap) : Tx unit :=
  catchTx
    (query db BEGIN >>
     query db (DELETE_ENTRIES period) >>
     query db (DELETE_POINTS period) >>
     match entries with
     | [] => query db COMMIT
     | _ :: _ =>
         forEachTx (chunks 100 entries)
           (fun chunk => query db (INSERT_ENTRIES period chunk)) >>
         match tracked with
         | [] => retTx tt
         | _ :: _ => insertPnlPointsTx tracked hyperliquidSeries
         end >>
         query db COMMIT
     end)
    (fun err => query db ROLLBACK >> throwTx err).

End Transaction.

(** The statements of a transaction that meets no error. *)
Definition statementsOf (rt : Runtime) (period : nat) (entries tracked : list RankedEntry)
    (hyperliquidSeries : SeriesMap) : list Statement :=
  [BEGIN; DELETE_ENTRIES period; DELETE_POINTS period]
  ++ map (INSERT_ENTRIES period) (chunks 100 entries)
  ++ match entries, tracked with
     | _ :: _, _ :: _ =>
         map (INSERT_POINTS period)
           (insertPnlPointsInTransaction rt period tracked hyperliquidSeries)
     | _, _ => []
     end
  ++ [COMMIT].

(** An [INSERT] of entries carries between 1 and 100 rows, an [INSERT] of
    points between 1 and 400. *)
Definition rowsWithin (statement : Statement) : Prop :=
  match statement with
  | INSERT_ENTRIES _ rows => (1 <= length rows <= 100)%nat
  | INSERT_POINTS _ rows => (1 <= length rows <= 400)%nat
  | _ => True
  end.

(** A database that accepts every statement. *)
Definition healthyDb : Database := fun _ _ => None.

(** Sending the statements of a list in order, up to the first one that
    the database rejects. *)
Definition runList (db : Database) (statements : list Statement) : Tx unit :=
  forEachTx statements (query db).

(** The rows that the statements of a trace insert into the two tables. *)
Definition insertedEntries (trace : list Statement) : list RankedEntry :=
  flat_map (fun s => match s with INSERT_ENTRIES _ rows => rows | _ => [] end) trace.

Definition insertedPoints (trace : list Statement) : list PnlPointRow :=
  flat_map (fun s => match s with INSERT_POINTS _ rows => rows | _ => [] end) trace.

(** Descending order of the weights. *)
Definition weightGe (a b : RankedEntry) : Prop := toQ (weight b) <= toQ (weight a).

(* ================================================================== *)
(** ** The leaderboard service: [computeConsistency] *)
(* ================================================================== *)

(** [Math.PI]: the double nearest to pi. *)
Definition PI : Q := 884279719003555 # 281474976710656.

(** [values[i] - values[i - 1]] for [i] from 1 on. *)
Fixpoint differences (values : list num) : list num :=
  match values with
  | a :: ((b :: _) as rest) => (b - a)%num :: differences rest
  | _ => []
  end.

Section Consistency.
Variable rt : Runtime.

(** [Math.atan] on a finite argument: a parameter, as the functions of
    [Runtime] are. *)
Variable atanQ : Q -> Q.

Definition atan (a : num) : num :=
  match a with
  | NaN => NaN
  | PInf => Fin (PI / 2)
  | NInf => Fin (- (PI / 2))
  | Fin q => Fin (atanQ q)
  end.

Definition computeConsistency (input : option (list Raw.PnlItem)) : num :=
  match input with
  | None | Some [] => Fin 0.5
  | Some l =>
      let values :=
        filter isFinite (map (fun p => StringToNumber rt (Raw.value p)) l) in
      if (length values <? 3)%nat then Fin 0.5
      else
        let first := hd NaN values in
        let last := List.last values NaN in
        let slope := ((last - first) / JS.max (JS.abs first + 1) 1)%num in
        let diffs := differences values in
        let variance :=
          or_else (fold_left (fun sum d => (sum + d * d)%num) diffs 0%num
                   / of_nat (length diffs))%num
                  0%num in
        let std := or_else (JS.sqrt rt variance) 1%num in
        let ratio := (slope / std)%num in
        clamp (Fin 0.5 + atan ratio / Fin PI)%num 0 1
  end.

End Consistency.

(* ================================================================== *)
(** ** The leaderboard service: custom accounts *)
(* ================================================================== *)

(** The entry that [fetchAndStoreCustomAccountStats] builds: a
    [RankedEntry] whose [meta] is [{ custom: true, fetchedAt }]. *)
Module Custom.

Record CustomMeta : Type := {
  custom : bool;
  fetchedAt : string
}.

Record CustomEntry : Type := {
  address : string;
  rank : Z;
  score : num;
  weight : num;
  winRate : num;
  executedOrders : num;
  realizedPnl : num;
  efficiency : num;
  pnlConsistency : num;
  remark : option string;
  labels : list string;
  statOpenPositions : option num;
  statClosedPositions : option num;
  statAvgPosDuration : option num;
  statTotalPnl : option num;
  statMaxDrawdown : option num;
  meta : CustomMeta
}.

End Custom.

(** A stand-in for the arc tangent in the examples: odd, increasing and
    within a quarter turn. *)
Definition atanApprox (q : Q) : Q := q / (1 + Qabs q) * (PI / 2).

(** Three points of a raw series that rises. *)
Definition threePoints : list Raw.PnlItem :=
  [ {| Raw.timestamp := Fin 1700000000000; Raw.value := "10" |};
    {| Raw.timestamp := Fin 1700000060000; Raw.value := "12" |};
    {| Raw.timestamp := Fin 1700000120000; Raw.value := "15" |} ].

(** [stats?.field]: absent when [stats] is [null]. *)
Definition statField (stats : option AddressStats.AddressStats)
    (field : AddressStats.AddressStats -> option num) : option num :=
  match stats with
  | Some s => field s
  | None => None
  end.

(** ToBoolean of an optional number: an absent number is falsy. *)
Definition truthyOpt (x : option num) : bool :=
  match x with
  | Some n => truthy n
  | None => false
  end.

(** The entry built from the statistics fetched for a custom account;
    [now] is the reading of the clock. *)
Definition customAccountEntry (normalized : string)
    (stats : option AddressStats.AddressStats) (nickname : option string) (now : string)
    : Custom.CustomEntry :=
  let totalPnl := statField stats AddressStats.totalPnl in
  let closePosCount := statField stats AddressStats.closePosCount in
  {| Custom.address := normalized;
     Custom.rank := 9999%Z;
     Custom.score := 0;
     Custom.weight := 0;
     Custom.winRate := statField stats AddressStats.winRate ?? 0%num;
     Custom.executedOrders :=
       ((statField stats AddressStats.openPosCount ?? 0%num)
        + (closePosCount ?? 0%num))%num;
     Custom.realizedPnl := totalPnl ?? 0%num;
     Custom.efficiency :=
       if truthyOpt totalPnl && truthyOpt closePosCount
       then ((totalPnl ?? NaN) / JS.max 1 (closePosCount ?? NaN))%num
       else 0%num;
     Custom.pnlConsistency := 0;
     Custom.remark := nickname;
     Custom.labels := ["custom"%string];
     Custom.statOpenPositions := statField stats AddressStats.openPosCount;
     Custom.statClosedPositions := closePosCount;
     Custom.statAvgPosDuration := statField stats AddressStats.avgPosDuration;
     Custom.statTotalPnl := totalPnl;
     Custom.statMaxDrawdown := statField stats AddressStats.maxDrawdown;
     Custom.meta := {| Custom.custom := true; Custom.fetchedAt := now |} |}.

(** [fetchAndStoreCustomAccountStats] for the period [period] (the first
    configured period, or 30): the entry when the upsert succeeded
    ([stored]), [null] when it threw. *)
Definition fetchAndStoreCustomAccountStats (rt : Runtime) (upstream : Upstream)
    (period : nat) (stored : bool) (address : string) (nickname : option string)
    (now : string) : option Custom.CustomEntry :=
  let normalized := normalizeAddress address in
  let stats :=
    match fetchAddressStat rt upstream normalized period with
    | Returned r => r
    | Thrown _ => None
    end in
  let entry := customAccountEntry normalized stats nickname now in
  if stored then Some entry else None.

(** An optional number that is finite when present. *)
Definition finiteIfPresent (x : option num) : Prop :=
  match x with
  | Some n => isFinite n = true
  | None => True
  end.

(** A point of the period: synthesized under the window of the period, or
    taken from a portfolio window that maps to the period. *)
Definition pointOfPeriod (period : nat) (row : PnlPointRow) : Prop :=
  match rowSource row with
  | hyperbot => rowWindow row = PeriodWindow period /\ equityValue row = None
  | hyperliquid =>
      exists name, rowWindow row = SeriesWindow name /\ windowMatches name period = true
  end.

(* ================================================================== *)
(** ** Arithmetic of JavaScript numbers *)
(* ================================================================== *)

Lemma isFinite_inv (n : num) : isFinite n = true -> exists q, n = Fin q.
Proof. destruct n; simpl; intros H; try discriminate; eauto. Qed.

Ltac qcmp a b := destruct (Qcompare_spec a b); split; intros; try congruence; try lra.

Lemma gt_Fin (a b : Q) : (Fin a >? Fin b)%num = true <-> b < a.
Proof. unfold JS.gt, JS.lt; simpl. qcmp b a. Qed.

Lemma lt_Fin (a b : Q) : (Fin a <? Fin b)%num = true <-> a < b.
Proof. apply (gt_Fin b a). Qed.

Lemma lt_Fin_false (a b : Q) : (Fin a <? Fin b)%num = false <-> b <= a.
Proof. unfold JS.lt; simpl. qcmp a b. Qed.

Lemma gt_Fin_false (a b : Q) : (Fin a >? Fin b)%num = false <-> a <= b.
Proof. apply (lt_Fin_false b a). Qed.


Lemma le_Fin_false (a b : Q) : (Fin a <=? Fin b)%num = false <-> b < a.
Proof. unfold JS.le; simpl. qcmp a b. Qed.

Lemma eq_Fin (a b : Q) : (Fin a === Fin b)%num = true <-> a == b.
Proof. unfold JS.eq; simpl. qcmp a b. Qed.

Lemma add_Fin (a b : Q) : (Fin a + Fin b)%num = Fin (a + b).
Proof. reflexivity. Qed.

Lemma sub_Fin (a b : Q) : (Fin a - Fin b)%num = Fin (a + - b).
Proof. reflexivity. Qed.

Lemma mul_Fin (a b : Q) : (Fin a * Fin b)%num = Fin (a * b).
Proof. reflexivity. Qed.

Lemma neg_Fin (a : Q) : JS.neg (Fin a) = Fin (- a).
Proof. reflexivity. Qed.

Lemma Qeq_bool_false_iff (a b : Q) : Qeq_bool a b = false <-> ~ a == b.
Proof.
  split.
  - intros H E. apply Qeq_bool_iff in E. congruence.
  - intros H. destruct (Qeq_bool a b) eqn:E; [|reflexivity].
    apply Qeq_bool_iff in E. contradiction.
Qed.

Lemma div_Fin (a b : Q) : ~ b == 0 -> (Fin a / Fin b)%num = Fin (a / b).
Proof.
  intros H. unfold JS.div.
  apply Qeq_bool_false_iff in H. now rewrite H.
Qed.

Lemma max_Fin (a b : Q) :
  exists c, JS.max (Fin a) (Fin b) = Fin c /\ a <= c /\ b <= c /\ (c = a \/ c = b).
Proof.
  unfold JS.max; simpl.
  destruct (Qcompare_spec a b); [exists a | exists b | exists a];
    repeat split; auto; lra.
Qed.

Lemma min_Fin (a b : Q) :
  exists c, JS.min (Fin a) (Fin b) = Fin c /\ c <= a /\ c <= b /\ (c = a \/ c = b).
Proof.
  unfold JS.min; simpl.
  destruct (Qcompare_spec a b); [exists a | exists a | exists b];
    repeat split; auto; lra.
Qed.

Lemma notNeg_Fin (q : Q) : notNeg (Fin q) <-> 0 <= q.
Proof. apply lt_Fin_false. Qed.

Lemma notNeg_not_NInf (a : num) : notNeg a -> a <> NInf.
Proof. intros H ->. discriminate H. Qed.

Ltac notneg_cases a :=
  let q := fresh "q" in
  let H := fresh "H" in
  intros H; destruct a as [| | |q];
  [ | | discriminate H | apply notNeg_Fin in H ].

Lemma notNeg_add (a b : num) : notNeg a -> notNeg b -> notNeg (a + b)%num.
Proof.
  notneg_cases a; notneg_cases b; try reflexivity.
  apply notNeg_Fin. lra.
Qed.

Lemma negative_Fin_nonneg (q : Q) : 0 <= q -> negative (Fin q) = false.
Proof. intros H. now apply lt_Fin_false. Qed.

Lemma notNeg_mul (a b : num) : notNeg a -> notNeg b -> notNeg (a * b)%num.
Proof.
  notneg_cases a; notneg_cases b; try reflexivity.
  - unfold JS.mul. destruct (is_zero PInf || is_zero (Fin q)); [reflexivity|].
    now rewrite negative_Fin_nonneg.
  - unfold JS.mul. destruct (is_zero (Fin q) || is_zero PInf); [reflexivity|].
    now rewrite negative_Fin_nonneg.
  - apply notNeg_Fin. now apply Qmult_le_0_compat.
Qed.

Lemma notNeg_div (a b : num) : notNeg a -> notNeg b -> notNeg (a / b)%num.
Proof.
  notneg_cases a; notneg_cases b; try reflexivity.
  - unfold JS.div. now rewrite negative_Fin_nonneg.
  - unfold JS.div.
    destruct (Qeq_bool q0 0) eqn:E0.
    + destruct (Qeq_bool q 0); [reflexivity|]. now rewrite negative_Fin_nonneg.
    + apply Qeq_bool_false_iff in E0. apply notNeg_Fin.
      apply Qle_shift_div_l; lra.
Qed.

Lemma notNeg_max_l (a b : num) : notNeg a -> notNeg (JS.max a b).
Proof.
  notneg_cases a; destruct b as [| | |p]; try reflexivity.
  - now apply notNeg_Fin.
  - destruct (max_Fin q p) as (c & -> & H1 & _). apply notNeg_Fin. lra.
Qed.

Lemma notNeg_min (a b : num) : notNeg a -> notNeg b -> notNeg (JS.min a b).
Proof.
  notneg_cases a; notneg_cases b; try reflexivity; try (apply notNeg_Fin; assumption).
  destruct (min_Fin q q0) as (c & -> & _ & _ & [-> | ->]); now apply notNeg_Fin.
Qed.

Lemma notNeg_of_nat (n : nat) : notNeg (of_nat n).
Proof.
  apply notNeg_Fin. change 0 with (inject_Z 0). rewrite <- Zle_Qle. lia.
Qed.

Lemma notNeg_finite (a : num) : notNeg a -> isFinite a = true -> finNonNeg a.
Proof. notneg_cases a; intros F; try discriminate F. exact H. Qed.

Lemma finNonNeg_notNeg (a : num) : finNonNeg a -> notNeg a.
Proof. destruct a; simpl; try contradiction. apply notNeg_Fin. Qed.

Lemma finNonNeg_inv (a : num) : finNonNeg a -> exists q, a = Fin q /\ 0 <= q.
Proof. destruct a; simpl; try contradiction. eauto. Qed.

Lemma notNeg_zero : notNeg 0%num.
Proof. reflexivity. Qed.

Lemma notNeg_one : notNeg 1%num.
Proof. reflexivity. Qed.

(** A number that passed a validation [!Number.isFinite(n) || n < 0]. *)
Lemma validated (n : num) :
  negb (isFinite n) || (n <? 0)%num = false -> exists q, n = Fin q /\ 0 <= q.
Proof.
  destruct n as [| | |q]; simpl; try discriminate.
  intros H. exists q. split; [reflexivity|]. now apply lt_Fin_false.
Qed.

(* ================================================================== *)
(** ** The scoring module: finiteness and sign of a score *)
(* ================================================================== *)

Section ScoringFacts.
Variable rt : Runtime.

Lemma guard_finite (s : num) : isFinite (if isFinite s then s else 0%num) = true.
Proof. destruct (isFinite s) eqn:E; [exact E | reflexivity]. Qed.

(** The composite score is a finite number, whatever the statistics and
    the parameters. *)
Lemma computePerformanceScore_score_finite stats params :
  isFinite (Scoring.score (Scoring.computePerformanceScore rt stats params)) = true.
Proof.
  unfold Scoring.computePerformanceScore.
  repeat match goal with
         | |- context [if ?c then _ else _] =>
             lazymatch c with
             | isFinite _ => fail
             | _ => destruct c
             end
         end; simpl; try reflexivity; apply guard_finite.
Qed.

Lemma parsePoint_finite pt v : Scoring.parsePoint rt pt = Some v -> isFinite v = true.
Proof.
  unfold Scoring.parsePoint. destruct (Scoring.pointValue pt) as [w|]; [|discriminate].
  destruct (isFinite _) eqn:E; intros H; inversion H; subst. exact E.
Qed.

Lemma extractValues_finite l :
  Forall (fun v => isFinite v = true) (Scoring.extractValues rt l).
Proof.
  induction l as [|pt l IH]; simpl; [constructor|].
  destruct (Scoring.parsePoint rt pt) eqn:E; [|exact IH].
  constructor; [eapply parsePoint_finite; eauto | exact IH].
Qed.

Lemma drawdown_of_peak (p x : Q) :
  exists d,
    (if (Fin p >? 0)%num
     then (if ((Fin p - Fin x) / Fin p <? 0)%num then 0%num
           else ((Fin p - Fin x) / Fin p)%num)
     else 0%num) = Fin d /\ 0 <= d.
Proof.
  destruct (Fin p >? 0)%num eqn:G.
  - apply gt_Fin in G. simpl JS.sub. rewrite div_Fin by lra.
    destruct (Fin _ <? 0)%num eqn:L.
    + exists 0. split; [reflexivity | lra].
    + eexists. split; [reflexivity|]. now apply lt_Fin_false in L.
  - exists 0. split; [reflexivity | lra].
Qed.

Lemma drawdownStep_inv st x : ddInv st -> ddInv (Scoring.drawdownStep st (Fin x)).
Proof.
  destruct st as [pk md sq].
  intros (p & m & s & Hp & Hm & Hs & Hm0 & Hs0). simpl in Hp, Hm, Hs. subst.
  unfold Scoring.drawdownStep, ddInv.
  cbn [Scoring.peak Scoring.mdd Scoring.ddSqSum]. cbv zeta.
  destruct (Fin x >? Fin p)%num.
  - destruct (drawdown_of_peak x x) as (d & -> & Hd).
    destruct (max_Fin m d) as (c & -> & Hc1 & _).
    exists x, c, (s + d * d). repeat split; try reflexivity; try lra. nra.
  - destruct (drawdown_of_peak p x) as (d & -> & Hd).
    destruct (max_Fin m d) as (c & -> & Hc1 & _).
    exists p, c, (s + d * d). repeat split; try reflexivity; try lra. nra.
Qed.

Lemma fold_drawdown_inv xs st :
  Forall (fun v => isFinite v = true) xs -> ddInv st ->
  ddInv (fold_left Scoring.drawdownStep xs st).
Proof.
  intros F. revert st. induction F as [|v xs Hv F IH]; intros st I; simpl; [exact I|].
  apply isFinite_inv in Hv. destruct Hv as (q & ->).
  apply IH. now apply drawdownStep_inv.
Qed.

Lemma shifted_finite base values :
  isFinite base = true -> Forall (fun v => isFinite v = true) values ->
  Forall (fun v => isFinite v = true) (map (fun v => (v - base)%num) values).
Proof.
  intros Hb F. apply isFinite_inv in Hb. destruct Hb as (b & ->).
  induction F as [|v l Hv F IH]; simpl; constructor; auto.
  apply isFinite_inv in Hv. destruct Hv as (q & ->). reflexivity.
Qed.

Lemma of_nat_minus_one (n : nat) :
  (2 <= n)%nat -> exists q, (of_nat n - 1)%num = Fin q /\ 0 < q.
Proof.
  intros H. eexists. split; [reflexivity|].
  assert (E : inject_Z (Z.of_nat n) + - 1 == inject_Z (Z.of_nat n - 1)).
  { rewrite <- (Z.add_opp_r _ 1), inject_Z_plus. reflexivity. }
  rewrite E. change 0 with (inject_Z 0). rewrite <- Zlt_Qlt. lia.
Qed.

Lemma of_nat_pos (n : nat) : (1 <= n)%nat -> 0 < inject_Z (Z.of_nat n).
Proof. intros H. change 0 with (inject_Z 0). rewrite <- Zlt_Qlt. lia. Qed.

(** The main body of [computeSmoothPnlScore], on two values or more. *)
Lemma smoothPnl_body base v1 rest :
  let values := base :: v1 :: rest in
  Forall (fun v => isFinite v = true) values ->
  let x := map (fun v => (v - base)%num) values in
  let st := fold_left Scoring.drawdownStep x
              {| Scoring.peak := hd 0%num x; Scoring.mdd := 0; Scoring.ddSqSum := 0 |} in
  exists m s u, Scoring.mdd st = Fin m /\ 0 <= m
    /\ (Scoring.ddSqSum st / of_nat (length x))%num = Fin s /\ 0 <= s
    /\ (of_nat (Scoring.upCount x) / (of_nat (length x) - 1))%num = Fin u /\ 0 <= u.
Proof.
  intros values F x st.
  assert (Fb : isFinite base = true) by now inversion F.
  assert (Fx : Forall (fun v => isFinite v = true) x) by now apply shifted_finite.
  assert (I : ddInv st).
  { apply fold_drawdown_inv; [exact Fx|].
    destruct (isFinite_inv _ Fb) as (b & ->).
    exists (b + - b), 0, 0. simpl. repeat split; lra. }
  destruct I as (p & m & s & _ & Hm & Hs & Hm0 & Hs0).
  assert (L : (2 <= length x)%nat) by (unfold x, values; simpl; lia).
  destruct (of_nat_minus_one _ L) as (d & Hd & Hd0).
  exists m, (s / inject_Z (Z.of_nat (length x))),
    (inject_Z (Z.of_nat (Scoring.upCount x)) / d).
  assert (P := of_nat_pos (length x) ltac:(lia)).
  assert (P2 : 0 <= inject_Z (Z.of_nat (Scoring.upCount x))).
  { change 0 with (inject_Z 0). rewrite <- Zle_Qle. lia. }
  repeat split; auto.
  - rewrite Hs. unfold of_nat. apply div_Fin. lra.
  - apply Qle_shift_div_l; lra.
  - rewrite Hd. unfold of_nat. apply div_Fin. lra.
  - apply Qle_shift_div_l; lra.
Qed.

Lemma sqrt_Fin_nonneg (s : Q) : 0 <= s -> JS.sqrt rt (Fin s) = Fin (sqrtQ rt s).
Proof. intros H. simpl. destruct (Qlt_le_dec s 0); [lra | reflexivity]. Qed.

End ScoringFacts.

Section ScoreDetails.
Variable rt : Runtime.

Lemma is_zero_false_Fin (q : Q) : is_zero (Fin q) = false -> ~ q == 0.
Proof.
  intros H E. apply (eq_Fin q 0) in E. unfold is_zero, JS.zero in H. congruence.
Qed.

Lemma clamp01_finite (z : num) : isNaN z = false -> isFinite (JS.min 1 (JS.max 0 z)) = true.
Proof.
  destruct z as [| | |q]; simpl; try discriminate; intros _; try reflexivity.
  destruct (max_Fin 0 q) as (c & Hc & _). unfold JS.zero. rewrite Hc.
  destruct (min_Fin 1 c) as (d & Hd & _). unfold JS.one. now rewrite Hd.
Qed.

Lemma computeNormalizedPnl_finite (pnl reference : num) :
  isNaN pnl = false ->
  isFinite (JS.log10 rt reference) = true ->
  is_zero (JS.log10 rt reference) = false ->
  isFinite (Scoring.computeNormalizedPnl rt pnl reference) = true.
Proof.
  intros Hn Hf Hz. unfold Scoring.computeNormalizedPnl.
  destruct (pnl <=? 0)%num eqn:L; [reflexivity|].
  apply clamp01_finite.
  apply isFinite_inv in Hf. destruct Hf as (r & Hr). rewrite Hr in *.
  apply is_zero_false_Fin in Hz.
  destruct pnl as [| | |p]; try discriminate.
  - change (isNaN (signed_inf (xorb (negative PInf) (negative (Fin r)))) = false).
    destruct (xorb (negative PInf) (negative (Fin r))); reflexivity.
  - apply le_Fin_false in L. simpl JS.add. unfold JS.log10.
    destruct (Qlt_le_dec (p + 1) 0); [lra|].
    destruct (Qeq_bool (p + 1) 0) eqn:E; [apply Qeq_bool_iff in E; lra|].
    now rewrite div_Fin.
Qed.

End ScoreDetails.

(* ================================================================== *)
(** ** C6: the details of [computePerformanceScore] *)
(* ================================================================== *)

(** C6 fails on the code.  [computePerformanceScore] validates the three
    trade counts with [Number.isFinite] but not the realized PnL, and only
    the composite score and the smooth-PnL score pass through a guard.
    [computeNormalizedPnl] is documented to return a score in [0, 1] and
    ends on a line commented "Clamp to [0, 1]", but a realized PnL that
    is NaN passes [realizedPnl <= 0], its logarithm is taken and
    [Math.min(1, Math.max(0, NaN))] is NaN.  For ten trades and a
    realized PnL that is NaN ([scoreEntries] passes on
    [Number(entry.realizedPnl ?? 0)] unchecked) the composite degrades to
    0, but [normalizedPnl] and the weighted PnL component are NaN. *)
Lemma computePerformanceScore_details_nan :
  let r := Scoring.computePerformanceScore exampleRuntime nanPnlStats
             Scoring.DEFAULT_SCORING_PARAMS in
  Scoring.score r = Fin 0
  /\ Scoring.filtered r = false
  /\ Scoring.normalizedPnl (Scoring.details r) = NaN
  /\ Scoring.wc_pnl (Scoring.weightedComponents (Scoring.details r)) = NaN
  /\ finiteDetails (Scoring.details r) = false
  /\ Scoring.computeNormalizedPnl exampleRuntime NaN
       (Scoring.pnlReference Scoring.DEFAULT_SCORING_PARAMS) = NaN.
Proof. vm_compute. repeat split; reflexivity. Qed.

(* ================================================================== *)
(** ** C9: the frame of [applyStatsToEntry] *)
(* ================================================================== *)

Lemma finiteOr_updated (stat previous : option num) :
  statUpdated stat previous (finiteOr stat previous).
Proof. destruct stat as [[| | |q]|]; reflexivity. Qed.

(** C9: [applyStatsToEntry] leaves address, rank, score, weight,
    executedOrders, realizedPnl, efficiency, pnlConsistency, remark and
    labels (and the filter flags) unchanged; winRate changes only when
    [stats.winRate] is a finite number, to its clamp to [0, 1]; each
    [stat*] field takes the statistic when it coerces to a finite number
    and keeps its previous value otherwise; [meta] gets the statistics
    under [stats] and keeps its other keys. *)
Theorem applyStatsToEntry_frame (e : RankedEntry) (stats : AddressStats.AddressStats) :
  let e' := applyStatsToEntry e stats in
  sameFrame e' e
  /\ winRate e' = match AddressStats.winRate stats with
                  | Some (Fin w) => clamp (Fin w) 0 1
                  | _ => winRate e
                  end
  /\ statUpdated (AddressStats.openPosCount stats) (statOpenPositions e)
       (statOpenPositions e')
  /\ statUpdated (AddressStats.closePosCount stats) (statClosedPositions e)
       (statClosedPositions e')
  /\ statUpdated (AddressStats.avgPosDuration stats) (statAvgPosDuration e)
       (statAvgPosDuration e')
  /\ statUpdated (AddressStats.totalPnl stats) (statTotalPnl e) (statTotalPnl e')
  /\ statUpdated (AddressStats.maxDrawdown stats) (statMaxDrawdown e)
       (statMaxDrawdown e')
  /\ metaStats (meta e') = Some stats
  /\ rawEntry (meta e') = rawEntry (meta e)
  /\ scoringDetails (meta e') = scoringDetails (meta e).
Proof.
  cbv zeta. unfold sameFrame, applyStatsToEntry; simpl.
  repeat split; try apply finiteOr_updated.
  destruct (AddressStats.winRate stats) as [[| | |w]|]; reflexivity.
Qed.

(* ================================================================== *)
(** ** C10: [fetchAddressStat] *)
(* ================================================================== *)

Section ClientFacts.
Variable rt : Runtime.

(** [Number] throws exactly on the values that do not convert. *)
Lemma Number_spec (v : JsVal) :
  Number rt v = if throwsTypeError v then None else Some (coerced rt v).
Proof.
  unfold coerced. destruct v; try reflexivity; unfold Number;
    destruct (throwsTypeError _); reflexivity.
Qed.

Lemma finiteNumber_spec (v : JsVal) :
  finiteNumber rt v
  = if throwsTypeError v then Thrown TypeError
    else Returned (if isFinite (coerced rt v) then Some (coerced rt v) else None).
Proof.
  unfold finiteNumber. rewrite Number_spec.
  destruct (throwsTypeError v); reflexivity.
Qed.

(** The value of a converted field. *)
Lemma finiteNumber_Some (v : JsVal) (field : option num) :
  finiteNumber rt v = Returned field ->
  forall n, field = Some n <-> Number rt v = Some n /\ isFinite n = true.
Proof.
  rewrite finiteNumber_spec, Number_spec.
  destruct (throwsTypeError v); [discriminate|].
  intros H. inversion H; subst. intros n.
  destruct (isFinite (coerced rt v)) eqn:E; split.
  - intros X. inversion X; subst. now split.
  - intros (X & _). exact X.
  - discriminate.
  - intros (X & F). inversion X; subst. congruence.
Qed.

(** The construction of the statistics throws exactly when one of the
    five converted fields does not convert. *)
Lemma addressStatsOf_spec (data : JsVal) :
  if throwingData data
  then addressStatsOf rt data = Thrown TypeError
  else exists stats,
         addressStatsOf rt data = Returned stats
         /\ AddressStats.winRate stats
            = match getProp data "winRate" with JNumber n => Some n | _ => None end
         /\ finiteNumber rt (getProp data "openPosCount")
            = Returned (AddressStats.openPosCount stats)
         /\ finiteNumber rt (getProp data "closePosCount")
            = Returned (AddressStats.closePosCount stats)
         /\ finiteNumber rt (getProp data "avgPosDuration")
            = Returned (AddressStats.avgPosDuration stats)
         /\ finiteNumber rt (getProp data "totalPnl")
            = Returned (AddressStats.totalPnl stats)
         /\ finiteNumber rt (getProp data "maxDrawdown")
            = Returned (AddressStats.maxDrawdown stats).
Proof.
  unfold throwingData, convertedFields, addressStatsOf. cbn [existsb]. cbv zeta.
  rewrite !finiteNumber_spec.
  destruct (throwsTypeError (getProp data "openPosCount")); [reflexivity|].
  destruct (throwsTypeError (getProp data "closePosCount")); [reflexivity|].
  destruct (throwsTypeError (getProp data "avgPosDuration")); [reflexivity|].
  destruct (throwsTypeError (getProp data "totalPnl")); [reflexivity|].
  destruct (throwsTypeError (getProp data "maxDrawdown")); [reflexivity|].
  cbn [orb bind]. eexists. split; [reflexivity|]. cbn. repeat split; reflexivity.
Qed.

(** [fetchAddressStat] returns: what its body throws is caught. *)
Lemma fetchAddressStat_returns upstream address period :
  exists r, fetchAddressStat rt upstream address period = Returned r.
Proof.
  unfold fetchAddressStat.
  destruct (requestJson upstream _ 2) as [payload|err]; cbn [bind tryCatch]; [|eauto].
  destruct (negb _); cbn [tryCatch]; [eauto|].
  destruct (addressStatsOf rt _); cbn [bind tryCatch]; eauto.
Qed.

(** Statistics that [fetchAddressStat] returns were built from the
    [data] of a payload. *)
Lemma fetchAddressStat_Some upstream address period stats :
  fetchAddressStat rt upstream address period = Returned (Some stats) ->
  exists data, addressStatsOf rt data = Returned stats.
Proof.
  unfold fetchAddressStat.
  destruct (requestJson upstream _ 2) as [payload|err]; cbn [bind tryCatch];
    [|discriminate].
  destruct (negb _); cbn [tryCatch]; [discriminate|].
  destruct (addressStatsOf rt _) as [st|e] eqn:E; cbn [bind tryCatch]; [|discriminate].
  intros H. inversion H; subst. eauto.
Qed.

(** [requestJson] throws only after every one of its attempts failed. *)
Lemma requestJsonFrom_thrown upstream attempt remaining err :
  requestJsonFrom upstream attempt remaining = Thrown err ->
  forall i, (attempt <= i <= attempt + remaining)%nat ->
            exists e, upstream i = Failed e.
Proof.
  revert attempt. induction remaining as [|r IH]; intros attempt; simpl.
  - destruct (upstream attempt) eqn:U; [|discriminate].
    intros _ i Hi. assert (i = attempt) by lia. subst. eauto.
  - destruct (upstream attempt) eqn:U; [|discriminate].
    intros H i Hi. destruct (Nat.eq_dec i attempt) as [->|N]; [eauto|].
    apply (IH (S attempt) H). lia.
Qed.

(** [requestJson] returns the payload of the first attempt that responds. *)
Lemma requestJsonFrom_returned upstream attempt remaining payload :
  requestJsonFrom upstream attempt remaining = Returned payload ->
  exists i, (attempt <= i <= attempt + remaining)%nat
            /\ upstream i = Responded payload.
Proof.
  revert attempt. induction remaining as [|r IH]; intros attempt; simpl.
  - destruct (upstream attempt) eqn:U; [discriminate|].
    intros H; inversion H; subst. exists attempt. split; [lia | exact U].
  - destruct (upstream attempt) eqn:U.
    + intros H. destruct (IH _ H) as (i & Hi & Hu). exists i. split; [lia | exact Hu].
    + intros H; inversion H; subst. exists attempt. split; [lia | exact U].
Qed.

(** When every attempt fails, [requestJson] throws. *)
Lemma requestJsonFrom_all_failed upstream attempt remaining :
  (forall i, (attempt <= i <= attempt + remaining)%nat -> exists e, upstream i = Failed e) ->
  exists err, requestJsonFrom upstream attempt remaining = Thrown err.
Proof.
  revert attempt. induction remaining as [|r IH]; intros attempt H; simpl.
  - destruct (H attempt ltac:(lia)) as (e & ->). eauto.
  - destruct (H attempt ltac:(lia)) as (e & ->).
    apply IH. intros i Hi. apply H. lia.
Qed.

End ClientFacts.

(** C10, as stated, fails for [winRate]: the field is set whenever the raw
    value has type number, and a literal that overflows is decoded as
    [Infinity], which is not finite. *)
Lemma fetchAddressStat_infinite_winRate :
  exists stats,
    fetchAddressStat exampleRuntime (alwaysAnswers overflowingWinRate) "0xA" 30
    = Returned (Some stats)
    /\ AddressStats.winRate stats = Some PInf
    /\ isFinite PInf = false.
Proof. eexists. vm_compute. repeat split; reflexivity. Qed.

(** C10 (amended): [fetchAddressStat] never throws; it returns [null] when
    every attempt of the request fails (HTTP error status, timeout,
    malformed JSON, network fault: [requestJson] throws after the last
    retry), when the payload has no truthy [data], and when one of the five
    converted fields of [data] holds a value on which [Number] throws;
    otherwise it returns statistics in which openPosCount, closePosCount,
    avgPosDuration, totalPnl and maxDrawdown are set exactly when the raw
    value coerces to a finite number, and winRate is set exactly when the
    raw value has type number (not coerced, not tested for finiteness). *)
Theorem fetchAddressStat_total (rt : Runtime) (upstream : Upstream)
    (address : string) (period : nat) :
  let request := AddrStatRequest (normalizeAddress address) period in
  let result := fetchAddressStat rt upstream address period in
  (exists r, result = Returned r)
  /\ ((forall i, (i <= 2)%nat -> exists e, upstream request i = Failed e) ->
      result = Returned None)
  /\ (forall payload, requestJson upstream request 2 = Returned payload ->
        let data := getPropOpt payload "data" in
        (truthyVal data = false -> result = Returned None)
        /\ (truthyVal data = true -> throwingData data = true -> result = Returned None)
        /\ (truthyVal data = true -> throwingData data = false ->
            exists stats,
              result = Returned (Some stats)
              /\ (forall n, AddressStats.winRate stats = Some n <->
                            getProp data "winRate" = JNumber n)
              /\ (forall n, AddressStats.openPosCount stats = Some n <->
                    Number rt (getProp data "openPosCount") = Some n
                    /\ isFinite n = true)
              /\ (forall n, AddressStats.closePosCount stats = Some n <->
                    Number rt (getProp data "closePosCount") = Some n
                    /\ isFinite n = true)
              /\ (forall n, AddressStats.avgPosDuration stats = Some n <->
                    Number rt (getProp data "avgPosDuration") = Some n
                    /\ isFinite n = true)
              /\ (forall n, AddressStats.totalPnl stats = Some n <->
                    Number rt (getProp data "totalPnl") = Some n
                    /\ isFinite n = true)
              /\ (forall n, AddressStats.maxDrawdown stats = Some n <->
                    Number rt (getProp data "maxDrawdown") = Some n
                    /\ isFinite n = true))).
Proof.
  cbv zeta.
  assert (Down : (forall i, (i <= 2)%nat ->
                    exists e, upstream (AddrStatRequest (normalizeAddress address) period) i
                              = Failed e) ->
                 exists err, requestJson upstream
                               (AddrStatRequest (normalizeAddress address) period) 2
                             = Thrown err).
  { intros H. apply requestJsonFrom_all_failed. intros i Hi. apply H. lia. }
  unfold fetchAddressStat.
  destruct (requestJson upstream _ 2) as [payload|err0] eqn:R; cbn [bind tryCatch].
  - pose proof (addressStatsOf_spec rt (getPropOpt payload "data")) as A.
    destruct (truthyVal (getPropOpt payload "data")) eqn:T; cbn [negb bind tryCatch].
    + destruct (throwingData (getPropOpt payload "data")) eqn:X.
      * rewrite A. cbn [bind tryCatch].
        split; [eauto|]. split; [reflexivity|].
        intros p Hp. inversion Hp; subst. rewrite T, X.
        repeat split; try reflexivity; discriminate.
      * destruct A as (stats & -> & Hw & Ho & Hc & Ha & Ht & Hm). cbn [bind tryCatch].
        split; [eauto|].
        split; [intros H; destruct (Down H); discriminate|].
        intros p Hp. inversion Hp; subst. rewrite T, X.
        split; [discriminate|]. split; [discriminate|].
        intros _ _. exists stats. split; [reflexivity|].
        split.
        { intros n. rewrite Hw.
          destruct (getProp _ "winRate"); split; intros E; inversion E; reflexivity. }
        split; [exact (finiteNumber_Some rt _ _ Ho)|].
        split; [exact (finiteNumber_Some rt _ _ Hc)|].
        split; [exact (finiteNumber_Some rt _ _ Ha)|].
        split; [exact (finiteNumber_Some rt _ _ Ht)|].
        exact (finiteNumber_Some rt _ _ Hm).
    + clear A. split; [eauto|]. split; [reflexivity|].
      intros p Hp. inversion Hp; subst. rewrite T.
      split; [reflexivity|]. split; discriminate.
  - split; [eauto|]. split; [reflexivity|]. discriminate.
Qed.

Lemma fetchAddressStat_total_witness :
  fetchAddressStat exampleRuntime alwaysDown "0xA" 30 = Returned None
  /\ fetchAddressStat exampleRuntime (alwaysAnswers unconvertibleStats) "0xA" 30
     = Returned None.
Proof.
  destruct (fetchAddressStat_total exampleRuntime alwaysDown "0xA" 30) as (_ & H & _).
  destruct (fetchAddressStat_total exampleRuntime (alwaysAnswers unconvertibleStats)
              "0xA" 30) as (_ & _ & K).
  split.
  - apply H. intros i _. exists (HttpError 503). reflexivity.
  - destruct (K unconvertibleStats eq_refl) as (_ & K2 & _). apply K2; reflexivity.
Defined.

(* ================================================================== *)
(** ** C7: [parseHistoryPoints] *)
(* ================================================================== *)

Section HistoryFacts.
Variable rt : Runtime.

Lemma parseHistoryItem_spec item :
  parseHistoryItem rt item
  = if throwingItem item then Thrown TypeError
    else Returned (if keptItem rt item then Some (pointOfItem rt item) else None).
Proof.
  destruct item as [| | | | |elems|]; try reflexivity.
  unfold parseHistoryItem, throwingItem, keptItem, pointOfItem.
  rewrite Nat.ltb_antisym.
  destruct (2 <=? length elems)%nat; cbn [negb andb]; [|reflexivity].
  rewrite !(Number_spec rt).
  destruct (throwsTypeError (index elems 0)); [reflexivity|].
  destruct (throwsTypeError (index elems 1)); [reflexivity|].
  cbn [converted bind orb].
  destruct (isFinite (coerced rt (index elems 0))); reflexivity.
Qed.

Lemma parseHistoryItems_spec items :
  parseHistoryItems rt items
  = if existsb throwingItem items then Thrown TypeError
    else Returned (map (pointOfItem rt) (filter (keptItem rt) items)).
Proof.
  induction items as [|item items IH]; [reflexivity|].
  cbn [parseHistoryItems existsb filter]. rewrite parseHistoryItem_spec, IH.
  destruct (throwingItem item); [reflexivity|]. cbn [bind orb].
  destruct (existsb throwingItem items); [reflexivity|]. cbn [bind].
  destruct (keptItem rt item); reflexivity.
Qed.

Lemma pointOfItem_finite item :
  keptItem rt item = true ->
  isFinite (ts (pointOfItem rt item)) = true
  /\ isFinite (value (pointOfItem rt item)) = true.
Proof.
  destruct item as [| | | | |elems|]; try discriminate. simpl.
  intros H. apply andb_prop in H. destruct H as [_ H]. split; [exact H|].
  destruct (isFinite (coerced rt (index elems 1))) eqn:E; [exact E | reflexivity].
Qed.

(** A history is read unless one of its items throws; the points read are
    finite. *)
Lemma parseHistoryPoints_spec input :
  if throwingHistory input
  then parseHistoryPoints rt input = Thrown TypeError
  else exists points,
         parseHistoryPoints rt input = Returned points /\ Forall finitePoint points.
Proof.
  destruct input as [| | | | |items|];
    try (eexists; split; [reflexivity | constructor]).
  cbn [throwingHistory parseHistoryPoints]. rewrite parseHistoryItems_spec.
  destruct (existsb throwingItem items); [reflexivity|].
  eexists. split; [reflexivity|].
  apply Forall_forall. intros p Hp. apply in_map_iff in Hp.
  destruct Hp as (item & <- & Hi). apply filter_In in Hi.
  apply pointOfItem_finite, Hi.
Qed.

(** A row is read unless its window name or one of its two histories
    throws; a series read is well formed. *)
Lemma parseRow_spec row :
  if throwingRow row
  then parseRow rt row = Thrown TypeError
  else exists r, parseRow rt row = Returned r
                 /\ forall s, r = Some s -> wellFormedSeries s.
Proof.
  destruct row as [| | | | |elems|];
    try (eexists; split; [reflexivity | discriminate]).
  unfold throwingRow, parseRow. rewrite Nat.ltb_antisym.
  destruct (2 <=? length elems)%nat; cbn [negb andb];
    [|eexists; split; [reflexivity | discriminate]].
  cbv zeta.
  set (data := if truthyVal (index elems 1) then index elems 1 else JObject []).
  assert (W : match index elems 0 with
              | JUndefined | JNull => Returned EmptyString
              | w => converted (ToString rt w)
              end
              = if throwsTypeError (index elems 0) then Thrown TypeError
                else Returned (match index elems 0 with
                               | JUndefined | JNull => EmptyString
                               | w => ToString rt w ?? EmptyString
                               end)).
  { destruct (index elems 0); try reflexivity; unfold ToString;
      destruct (throwsTypeError _); reflexivity. }
  rewrite W. clear W.
  destruct (throwsTypeError (index elems 0)); [reflexivity|]. cbn [orb bind].
  pose proof (parseHistoryPoints_spec (getProp data "pnlHistory")) as Hp.
  pose proof (parseHistoryPoints_spec (getProp data "accountValueHistory")) as He.
  destruct (throwingHistory (getProp data "pnlHistory")).
  { rewrite Hp. reflexivity. }
  destruct Hp as (ps & -> & Fp). cbn [orb bind].
  destruct (throwingHistory (getProp data "accountValueHistory")).
  { rewrite He. reflexivity. }
  destruct He as (es & -> & Fe). cbn [bind].
  destruct ps as [|p ps], es as [|e es];
    (eexists; split; [reflexivity|]); try discriminate;
    intros s H; inversion H; subst; unfold wellFormedSeries; simpl;
    (split; [|split; assumption]); [right | left | left]; discriminate.
Qed.

Lemma parseRows_spec rows :
  if existsb throwingRow rows
  then parseRows rt rows = Thrown TypeError
  else exists series,
         parseRows rt rows = Returned series /\ Forall wellFormedSeries series.
Proof.
  induction rows as [|row rows IH]; [eexists; split; [reflexivity | constructor]|].
  cbn [existsb parseRows]. pose proof (parseRow_spec row) as R.
  destruct (throwingRow row); [rewrite R; reflexivity|].
  destruct R as (r & -> & Hr). cbn [orb bind].
  destruct (existsb throwingRow rows); [rewrite IH; reflexivity|].
  destruct IH as (series & -> & F). cbn [bind].
  eexists. split; [reflexivity|].
  destruct r as [s|]; [constructor; auto | exact F].
Qed.

(** [fetchPortfolioSeries] by the outcome of the request and the rows of
    the payload. *)
Lemma fetchPortfolioSeries_spec upstream address :
  match requestJson upstream (PortfolioRequest (normalizeAddress address)) 1 with
  | Thrown _ => fetchPortfolioSeries rt upstream address = Returned None
  | Returned payload =>
      if existsb throwingRow (rowsOf payload)
      then fetchPortfolioSeries rt upstream address = Returned None
      else exists series,
             fetchPortfolioSeries rt upstream address = Returned (Some series)
             /\ parseRows rt (rowsOf payload) = Returned series
             /\ Forall wellFormedSeries series
  end.
Proof.
  unfold fetchPortfolioSeries. cbv zeta.
  destruct (requestJson upstream _ 1) as [payload|err]; [|reflexivity].
  cbn [bind]. fold (rowsOf payload).
  pose proof (parseRows_spec (rowsOf payload)) as R.
  destruct (existsb throwingRow (rowsOf payload)); [rewrite R; reflexivity|].
  destruct R as (series & E & F). rewrite E. cbn [bind tryCatch].
  exists series. repeat split; assumption.
Qed.

End HistoryFacts.

(** C7, as stated, fails: a point whose value does not coerce to a finite
    number is not discarded when its timestamp is finite; it is kept with
    the value 0.  Here the second point has the value ["n/a"]. *)
Lemma parseHistoryPoints_keeps_bad_value :
  Number exampleRuntime (JString "n/a") = Some NaN
  /\ parseHistoryPoints exampleRuntime patchyHistory
     = Returned [ {| ts := Fin 1000; value := Fin 5 |};
                  {| ts := Fin 2000; value := 0%num |};
                  {| ts := Fin 3000; value := Fin 9 |} ].
Proof. vm_compute. split; reflexivity. Qed.

(** C7 (amended): unless a conversion throws, [parseHistoryPoints] keeps,
    in input order, exactly the items that are arrays of two elements or
    more whose timestamp coerces to a finite number; each kept point
    carries its coerced timestamp and its coerced value, or the value 0
    when the value does not coerce to a finite number; an input that is not
    an array gives no point.  So every parsed point has a finite timestamp
    and a finite value.  When [Number] throws on the timestamp or the value
    of an item of two elements or more (an object with an own [toString],
    or an array that holds one), [parseHistoryPoints] throws and keeps no
    point at all, and [fetchPortfolioSeries] returns [null] for a payload
    with such a row. *)
Theorem parseHistoryPoints_filter (rt : Runtime) (input : JsVal) :
  parseHistoryPoints rt input
  = match input with
    | JArray items =>
        if existsb throwingItem items then Thrown TypeError
        else Returned (map (pointOfItem rt) (filter (keptItem rt) items))
    | _ => Returned []
    end
  /\ (forall points,
        parseHistoryPoints rt input = Returned points ->
        Forall (fun p => isFinite (ts p) = true /\ isFinite (value p) = true) points)
  /\ (forall upstream address payload,
        requestJson upstream (PortfolioRequest (normalizeAddress address)) 1
        = Returned payload ->
        existsb throwingRow (rowsOf payload) = true ->
        fetchPortfolioSeries rt upstream address = Returned None).
Proof.
  split; [|split].
  - destruct input; try reflexivity. apply parseHistoryItems_spec.
  - intros points H. pose proof (parseHistoryPoints_spec rt input) as S.
    destruct (throwingHistory input); [congruence|].
    destruct S as (ps & E & F). rewrite E in H. inversion H; subst. exact F.
  - intros upstream address payload R T.
    pose proof (fetchPortfolioSeries_spec rt upstream address) as S.
    rewrite R, T in S. exact S.
Qed.

Lemma parseHistoryPoints_filter_witness :
  parseHistoryPoints exampleRuntime unconvertibleHistory = Thrown TypeError
  /\ Forall (fun p => isFinite (ts p) = true /\ isFinite (value p) = true)
       [ {| ts := Fin 1000; value := Fin 5 |};
         {| ts := Fin 2000; value := 0%num |};
         {| ts := Fin 3000; value := Fin 9 |} ].
Proof.
  destruct (parseHistoryPoints_filter exampleRuntime unconvertibleHistory) as (E & _).
  destruct (parseHistoryPoints_filter exampleRuntime patchyHistory) as (_ & F & _).
  split; [exact E|]. apply F. reflexivity.
Defined.

(* ================================================================== *)
(** ** Sorting *)
(* ================================================================== *)

Section SortFacts.
Context {A : Type}.
Variable cmp : A -> A -> num.

Lemma insertSorted_perm x l : Permutation (insertSorted cmp x l) (x :: l).
Proof.
  induction l as [|y l IH]; simpl; [reflexivity|].
  destruct (gt (cmp x y) zero); [|reflexivity].
  rewrite IH. apply perm_swap.
Qed.

Lemma sort_perm l : Permutation (sort cmp l) l.
Proof.
  induction l as [|x l IH]; simpl; [reflexivity|].
  rewrite insertSorted_perm. now constructor.
Qed.

Lemma sort_length l : length (sort cmp l) = length l.
Proof. apply Permutation_length, sort_perm. Qed.

Lemma sort_Forall (P : A -> Prop) l : Forall P l -> Forall P (sort cmp l).
Proof. intros H. eapply Permutation_Forall; [symmetry; apply sort_perm | exact H]. Qed.

Lemma sort_In x l : In x (sort cmp l) <-> In x l.
Proof.
  split; apply Permutation_in; [apply sort_perm | symmetry; apply sort_perm].
Qed.

(** Sortedness, for a comparator that decides a total preorder [le]:
    [cmp x y > 0] exactly when [x] is not before [y]. *)
Variable le : A -> A -> Prop.
Hypothesis le_trans : forall a b c, le a b -> le b c -> le a c.

Lemma insertSorted_sorted (P : A -> Prop) x l :
  (forall a b, P a -> P b -> gt (cmp a b) zero = false -> le a b) ->
  (forall a b, P a -> P b -> gt (cmp a b) zero = true -> le b a) ->
  P x -> Forall P l ->
  StronglySorted le l -> StronglySorted le (insertSorted cmp x l).
Proof.
  intros Hle Hgt Px Pl S. induction S as [|y l S IH Hy]; simpl.
  - repeat constructor.
  - inversion Pl as [|? ? Py Pl']; subst.
    destruct (gt (cmp x y) zero) eqn:G.
    + constructor; [apply IH; assumption|].
      eapply Permutation_Forall; [symmetry; apply insertSorted_perm|].
      constructor; [apply Hgt; assumption | exact Hy].
    + constructor; [constructor; assumption|].
      assert (Lxy : le x y) by (apply Hle; assumption).
      constructor; [exact Lxy|].
      eapply Forall_impl; [|exact Hy]. intros a Ha. eapply le_trans; eauto.
Qed.

Lemma sort_sorted (P : A -> Prop) l :
  (forall a b, P a -> P b -> gt (cmp a b) zero = false -> le a b) ->
  (forall a b, P a -> P b -> gt (cmp a b) zero = true -> le b a) ->
  Forall P l -> StronglySorted le (sort cmp l).
Proof.
  intros Hle Hgt F. induction F as [|x l Px F IH]; simpl; [constructor|].
  apply (insertSorted_sorted P); auto. now apply sort_Forall.
Qed.

End SortFacts.

(* ================================================================== *)
(** ** C8: the points inserted for a period *)
(* ================================================================== *)

Lemma sameValueZero_refl a : sameValueZero a a = true.
Proof. destruct a; try reflexivity. apply (eq_Fin q q). reflexivity. Qed.

Lemma sameValueZero_sym a b : sameValueZero a b = true -> sameValueZero b a = true.
Proof.
  destruct a, b; try discriminate; try reflexivity.
  intros H. apply (eq_Fin q q0) in H. apply (eq_Fin q0 q). now symmetry.
Qed.

Lemma sameValueZero_trans a b c :
  sameValueZero a b = true -> sameValueZero b c = true -> sameValueZero a c = true.
Proof.
  destruct a, b, c; try discriminate; try reflexivity.
  intros H1 H2. apply (eq_Fin q q0) in H1. apply (eq_Fin q0 q1) in H2.
  apply (eq_Fin q q1). now rewrite H1.
Qed.

#[local] Instance sameKey_equiv : Equivalence sameKey.
Proof.
  split.
  - intros a. apply sameValueZero_refl.
  - intros a b. apply sameValueZero_sym.
  - intros a b c. apply sameValueZero_trans.
Qed.

Lemma mapSet_keys (m : TsMap) k v :
  map fst (mapSet m k v)
  = if existsb (fun k' => sameValueZero k' k) (map fst m)
    then map fst m else map fst m ++ [k].
Proof.
  induction m as [|[k' v'] m IH]; simpl; [reflexivity|].
  destruct (sameValueZero k' k); simpl; [reflexivity|].
  rewrite IH. now destruct (existsb _ _).
Qed.

Lemma existsb_false_not_InA k keys :
  existsb (fun k' => sameValueZero k' k) keys = false -> ~ InA sameKey k keys.
Proof.
  intros H I. apply InA_alt in I. destruct I as (k' & E & Hin).
  assert (X : existsb (fun k' => sameValueZero k' k) keys = true).
  { apply existsb_exists. exists k'. split; [exact Hin|]. now apply sameValueZero_sym. }
  congruence.
Qed.

Lemma NoDupA_snoc k keys :
  NoDupA sameKey keys -> ~ InA sameKey k keys -> NoDupA sameKey (keys ++ [k]).
Proof.
  intros N I. apply NoDupA_app; auto using sameKey_equiv.
  - repeat constructor. intros X. inversion X.
  - intros x Hx Hk. inversion Hk as [? ? E|? ? X]; subst; [|inversion X].
    apply I. apply InA_eqA with x; auto using sameKey_equiv.
Qed.

Lemma mapSet_NoDupA (m : TsMap) k v :
  NoDupA sameKey (map fst m) -> NoDupA sameKey (map fst (mapSet m k v)).
Proof.
  intros N. rewrite mapSet_keys.
  destruct (existsb _ _) eqn:E; [exact N|].
  apply NoDupA_snoc; [exact N | now apply existsb_false_not_InA].
Qed.

Lemma mapSet_Forall (P : num -> Prop) (m : TsMap) k v :
  Forall P (map fst m) -> P k -> Forall P (map fst (mapSet m k v)).
Proof.
  intros F Pk. rewrite mapSet_keys. destruct (existsb _ _); [exact F|].
  apply Forall_app. split; [exact F | repeat constructor; exact Pk].
Qed.

Lemma fold_merge_NoDupA (f : TsMap -> HistoryPoint -> TsMap) points m :
  (forall m p, NoDupA sameKey (map fst m) -> NoDupA sameKey (map fst (f m p))) ->
  NoDupA sameKey (map fst m) -> NoDupA sameKey (map fst (fold_left f points m)).
Proof.
  intros Hf. revert m. induction points as [|p points IH]; intros m N; simpl; auto.
Qed.

Lemma mergedMap_NoDupA series : NoDupA sameKey (map fst (mergedMap series)).
Proof.
  unfold mergedMap.
  apply fold_merge_NoDupA; [intros; now apply mapSet_NoDupA|].
  apply fold_merge_NoDupA; [intros; now apply mapSet_NoDupA|].
  constructor.
Qed.

Lemma fold_merge_Forall (P : num -> Prop) (f : TsMap -> HistoryPoint -> TsMap) points m :
  (forall m p, Forall P (map fst m) -> P (ts p) -> Forall P (map fst (f m p))) ->
  Forall (fun p => P (ts p)) points ->
  Forall P (map fst m) -> Forall P (map fst (fold_left f points m)).
Proof.
  intros Hf F. revert m. induction F as [|p points Hp F IH]; intros m N; simpl; auto.
Qed.

Lemma mergedMap_Forall (P : num -> Prop) series :
  Forall (fun p => P (ts p)) (pnlHistory series) ->
  Forall (fun p => P (ts p)) (equityHistory series) ->
  Forall P (map fst (mergedMap series)).
Proof.
  intros F1 F2. unfold mergedMap.
  apply fold_merge_Forall; [intros; now apply mapSet_Forall | exact F2 |].
  apply fold_merge_Forall; [intros; now apply mapSet_Forall | exact F1 |].
  constructor.
Qed.

Lemma mergeHistories_keys series :
  Permutation (map sampleTs (mergeHistories series)) (map fst (mergedMap series)).
Proof.
  unfold mergeHistories. rewrite sort_perm, map_map.
  erewrite map_ext; [reflexivity|]. now intros [k v].
Qed.

Lemma mergeHistories_NoDupA series :
  NoDupA sameKey (map sampleTs (mergeHistories series)).
Proof.
  eapply PermutationA_preserves_NoDupA;
    [apply sameKey_equiv | | apply (mergedMap_NoDupA series)].
  apply Permutation_PermutationA; [apply sameKey_equiv|].
  symmetry. apply mergeHistories_keys.
Qed.

Lemma Qtruncate_Z (z : Z) : Qtruncate (inject_Z z) = z.
Proof.
  unfold Qtruncate. destruct (Qlt_le_dec _ _); [apply Qceiling_Z | apply Qfloor_Z].
Qed.

Lemma Date_integral (z z' : Z) : Date (Fin (inject_Z z)) = Some z' -> z' = z.
Proof.
  simpl. destruct (Qle_bool _ _); [|discriminate].
  rewrite Qtruncate_Z. congruence.
Qed.

Lemma sameKey_integral (z : Z) : sameKey (Fin (inject_Z z)) (Fin (inject_Z z)).
Proof. apply sameValueZero_refl. Qed.

Section PointFacts.
Variable period : nat.
Variable address : string.
Variable series : PortfolioWindowSeries.

Lemma samplePoints_In z samples :
  In z (map rowTs (somes (map (samplePoint address series) samples))) ->
  exists s, In s samples /\ Date (sampleTs s) = Some z.
Proof.
  induction samples as [|s samples IH]; simpl; [contradiction|].
  unfold samplePoint at 1. destruct (Date (sampleTs s)) as [d|] eqn:D.
  - simpl. intros [<- | H]; [eauto|].
    destruct (IH H) as (s' & Hs & Hd). eauto.
  - intros H. destruct (IH H) as (s' & Hs & Hd). eauto.
Qed.

Lemma samplePoints_NoDup samples :
  NoDupA sameKey (map sampleTs samples) ->
  Forall (fun s => integralTs (sampleTs s)) samples ->
  NoDup (map rowTs (somes (map (samplePoint address series) samples))).
Proof.
  induction samples as [|s samples IH]; simpl; intros N F; [constructor|].
  inversion N as [|? ? Hnot N']; subst. inversion F as [|? ? Hs F']; subst.
  unfold samplePoint at 1. destruct (Date (sampleTs s)) as [d|] eqn:D; [|auto].
  simpl. constructor; [|auto].
  intros Hin. apply samplePoints_In in Hin. destruct Hin as (s' & Hs' & Hd').
  apply Hnot. apply InA_alt. exists (sampleTs s'). split; [|now apply in_map].
  destruct Hs as (z & Hz). rewrite Hz in *.
  rewrite Forall_forall in F'. destruct (F' _ Hs') as (z' & Hz'). rewrite Hz' in *.
  apply Date_integral in D, Hd'. subst. apply sameKey_integral.
Qed.

Lemma seriesPoints_NoDup :
  integralSeries series -> NoDup (map rowTs (seriesPoints period address series)).
Proof.
  intros (F1 & F2). unfold seriesPoints.
  destruct (windowMatches _ _); [|constructor].
  apply samplePoints_NoDup; [apply mergeHistories_NoDupA|].
  assert (K : Forall integralTs (map sampleTs (mergeHistories series))).
  { eapply Permutation_Forall; [symmetry; apply mergeHistories_keys|].
    now apply mergedMap_Forall. }
  rewrite Forall_map in K. exact K.
Qed.

End PointFacts.

(** The statements of [INSERT] carry the points, all of them, in order. *)
Lemma chunksFuel_concat {A : Type} (fuel size : nat) (l : list A) :
  (0 < size)%nat -> (length l <= fuel)%nat -> concat (chunksFuel fuel size l) = l.
Proof.
  intros Hs. revert l. induction fuel as [|fuel IH]; intros l Hl.
  - destruct l; [reflexivity | simpl in Hl; lia].
  - destruct l as [|x l]; [reflexivity|].
    cbn [chunksFuel concat]. rewrite IH.
    + apply firstn_skipn.
    + rewrite length_skipn. lia.
Qed.

Lemma insertPnlPoints_rows rt period tracked hyperliquidSeries :
  concat (insertPnlPointsInTransaction rt period tracked hyperliquidSeries)
  = hyperbotPoints rt period tracked ++ hyperliquidPoints period hyperliquidSeries.
Proof.
  unfold insertPnlPointsInTransaction, chunks.
  rewrite chunksFuel_concat by lia. reflexivity.
Qed.

(** C8, as stated, fails for the points synthesized from [meta.pnlList]:
    one row is pushed for each element whose timestamp is a valid date, and
    two elements with the same timestamp give two rows under the same
    (period, address, source, window) key. *)
Lemma insertPnlPoints_duplicate_timestamp :
  let tracked := scoreEntries exampleRuntime Scoring.DEFAULT_SCORING_PARAMS
                   (Fin 200) 12 doubledPoint in
  let transaction := persistPeriod exampleRuntime healthyDb 30 tracked tracked [] [] in
  map (fun r => (rowAddress r, rowSource r, rowWindow r, rowTs r))
    (concat (insertPnlPointsInTransaction exampleRuntime 30 tracked []))
  = [ ("0xa"%string, hyperbot, PeriodWindow 30, 1700000000000%Z);
      ("0xa"%string, hyperbot, PeriodWindow 30, 1700000000000%Z) ]
  /\ snd transaction = inl tt
  /\ map (fun r => (rowAddress r, rowSource r, rowWindow r, rowTs r))
       (insertedPoints (fst transaction))
     = [ ("0xa"%string, hyperbot, PeriodWindow 30, 1700000000000%Z);
         ("0xa"%string, hyperbot, PeriodWindow 30, 1700000000000%Z) ].
Proof. vm_compute. repeat split; reflexivity. Qed.

(* ================================================================== *)
(** ** Weights normalized over the first entries of a list *)
(* ================================================================== *)

Lemma isNum_inv n q : isNum n q -> exists p, n = Fin p /\ p == q.
Proof. destruct n; simpl; try contradiction. eauto. Qed.

Lemma finite_toQ n : isFinite n = true -> n = Fin (toQ n).
Proof. intros H. apply isFinite_inv in H. destruct H as (q & ->). reflexivity. Qed.

Section Normalized.
Variable K : nat.
Variable v : RankedEntry -> Q.
Variable t : Q.
Hypothesis t_pos : 0 < t.

Lemma weightsFrom_sum i l :
  weightsFrom K v t i l ->
  isNum (weightSum (firstn (K - i) l)) (qsum v (firstn (K - i) l) / t).
Proof.
  revert i. induction l as [|e l IH]; intros i W.
  - rewrite firstn_nil. simpl. field. lra.
  - destruct W as (We & W). destruct (K - i)%nat as [|k] eqn:Ek.
    + simpl. field. lra.
    + assert (Hi : (i <? K)%nat = true) by (apply Nat.ltb_lt; lia).
      rewrite Hi in We. apply isNum_inv in We. destruct We as (p & Hp & Ep).
      specialize (IH (S i) W). replace (K - S i)%nat with k in IH by lia.
      apply isNum_inv in IH. destruct IH as (s & Hs & Es).
      simpl. rewrite Hp, Hs. simpl. rewrite Ep, Es. field. lra.
Qed.

Lemma weightsFrom_beyond i l :
  weightsFrom K v t i l ->
  Forall (fun e : RankedEntry => isNum (weight e) 0) (skipn (K - i) l).
Proof.
  revert i. induction l as [|e l IH]; intros i W.
  - rewrite skipn_nil. constructor.
  - destruct W as (We & W). destruct (K - i)%nat as [|k] eqn:Ek.
    + simpl. assert (Hi : (i <? K)%nat = false) by (apply Nat.ltb_ge; lia).
      rewrite Hi in We. constructor; [exact We|].
      specialize (IH (S i) W). replace (K - S i)%nat with 0%nat in IH by lia.
      exact IH.
    + simpl. specialize (IH (S i) W). replace (K - S i)%nat with k in IH by lia.
      exact IH.
Qed.

Lemma qsum_nonneg {A : Type} (f : A -> Q) (l : list A) :
  Forall (fun e => 0 <= f e) l -> 0 <= qsum f l.
Proof. induction 1; simpl; lra. Qed.

Lemma qsum_bound {A : Type} (f : A -> Q) (l : list A) e :
  Forall (fun e => 0 <= f e) l -> In e l -> f e <= qsum f l.
Proof.
  induction 1 as [|x l Hx F IH]; simpl; [contradiction|].
  pose proof (qsum_nonneg f l F).
  intros [-> | H']; [lra | specialize (IH H'); lra].
Qed.

Lemma weightsFrom_within i l :
  weightsFrom K v t i l ->
  Forall (fun e => 0 <= v e) l ->
  (forall e, In e (firstn (K - i) l) -> v e <= t) ->
  Forall (fun e : RankedEntry => within 0 1 (weight e)) l.
Proof.
  revert i. induction l as [|e l IH]; intros i W F B; [constructor|].
  destruct W as (We & W). inversion F as [|? ? He F']; subst.
  apply isNum_inv in We. destruct We as (p & Hp & Ep).
  constructor.
  - rewrite Hp. simpl. rewrite Ep. destruct (i <? K)%nat eqn:Hi; [|lra].
    apply Nat.ltb_lt in Hi.
    assert (Hb : v e <= t).
    { apply B. destruct (K - i)%nat eqn:Ek; [lia|]. now left. }
    split; [apply Qle_shift_div_l; lra | apply Qle_shift_div_r; lra].
  - apply (IH (S i)); auto. intros e' He'. apply B.
    destruct (K - i)%nat as [|k] eqn:Ek.
    + replace (K - S i)%nat with 0%nat in He' by lia. destruct He'.
    + replace (K - S i)%nat with k in He' by lia. now right.
Qed.

End Normalized.

Lemma qsum_zero_all {A : Type} (f : A -> Q) (l : list A) :
  Forall (fun e => 0 <= f e) l -> qsum f l == 0 -> Forall (fun e => f e == 0) l.
Proof.
  induction 1 as [|x l Hx F IH]; simpl; intros E; constructor.
  - pose proof (qsum_nonneg f l F). lra.
  - apply IH. pose proof (qsum_nonneg f l F). lra.
Qed.

Lemma qsum_pos_some {A : Type} (f : A -> Q) (l : list A) :
  0 < qsum f l -> Exists (fun e => 0 < f e) l.
Proof.
  induction l as [|x l IH]; simpl; intros H; [lra|].
  destruct (Qlt_le_dec 0 (f x)); [now left|].
  right. apply IH. lra.
Qed.

(* ================================================================== *)
(** ** Phase 1: [scoreEntries] *)
(* ================================================================== *)

Lemma In_take {A : Type} (n : nat) (l : list A) x : In x (firstn n l) -> In x l.
Proof. intros H. rewrite <- (firstn_skipn n l). apply in_or_app. now left. Qed.

Lemma In_drop {A : Type} (n : nat) (l : list A) x : In x (skipn n l) -> In x l.
Proof. intros H. rewrite <- (firstn_skipn n l). apply in_or_app. now right. Qed.

Lemma Forall_take {A : Type} (P : A -> Prop) (n : nat) (l : list A) :
  Forall P l -> Forall P (firstn n l).
Proof.
  intros F. apply Forall_forall. intros x Hx.
  rewrite Forall_forall in F. apply F. eapply In_take; eauto.
Qed.

Lemma Forall_drop {A : Type} (P : A -> Prop) (n : nat) (l : list A) :
  Forall P l -> Forall P (skipn n l).
Proof.
  intros F. apply Forall_forall. intros x Hx.
  rewrite Forall_forall in F. apply F. eapply In_drop; eauto.
Qed.

Lemma positivePart_spec (e : ScoredEntry) :
  isFinite (score e) = true ->
  JS.max (score e) 0 = Fin (positivePart e)
  /\ 0 <= positivePart e
  /\ ((score e >? 0)%num = true <-> 0 < positivePart e)
  /\ (0 <= scoreQ e -> positivePart e = scoreQ e \/ positivePart e == scoreQ e).
Proof.
  intros F. unfold positivePart, scoreQ.
  apply isFinite_inv in F. destruct F as (s & ->).
  destruct (max_Fin s 0) as (c & Hc & H1 & H2 & Hd). unfold JS.zero. rewrite Hc.
  simpl. repeat split; auto.
  - intros G. apply gt_Fin in G. lra.
  - intros G. apply gt_Fin. destruct Hd as [-> | ->]; lra.
  - intros G. destruct Hd as [-> | ->]; [now left | right; lra].
Qed.

Lemma qsum_map {A B : Type} (f : B -> Q) (g : A -> B) (l : list A) :
  qsum f (map g l) = qsum (fun a => f (g a)) l.
Proof. induction l; simpl; congruence. Qed.

Lemma qsum_ext {A : Type} (f g : A -> Q) (l : list A) :
  Forall (fun a => f a == g a) l -> qsum f l == qsum g l.
Proof. induction 1 as [|x l Hx F IH]; simpl; [reflexivity | now rewrite Hx, IH]. Qed.

Lemma fold_left_positive (l : list ScoredEntry) (a : Q) :
  Forall (fun e => isFinite (score e) = true) l ->
  exists t, fold_left (fun sum e => (sum + JS.max (score e) 0)%num) l (Fin a) = Fin t
            /\ t == a + qsum positivePart l.
Proof.
  intros F. revert a. induction F as [|e l He F IH]; intros a; cbn [fold_left].
  - exists a. split; [reflexivity | simpl; lra].
  - destruct (positivePart_spec e He) as (-> & _). rewrite add_Fin.
    destruct (IH (a + positivePart e)) as (t & Ht & Et).
    exists t. split; [exact Ht|].
    change (qsum positivePart (e :: l)) with (positivePart e + qsum positivePart l).
    lra.
Qed.

Lemma fold_left_scores (l : list RankedEntry) (a : Q) :
  Forall (fun e : RankedEntry => isFinite (score e) = true) l ->
  exists t, fold_left (fun sum (e : RankedEntry) => (sum + score e)%num) l (Fin a) = Fin t
            /\ t == a + qsum (fun e : RankedEntry => scoreQ e) l.
Proof.
  intros F. revert a. induction F as [|e l He F IH]; intros a; cbn [fold_left].
  - exists a. split; [reflexivity | simpl; lra].
  - rewrite (finite_toQ _ He), add_Fin.
    destruct (IH (a + toQ (score e))) as (t & Ht & Et).
    exists t. split; [exact Ht|].
    change (qsum (fun e : RankedEntry => scoreQ e) (e :: l))
      with (scoreQ e + qsum (fun e : RankedEntry => scoreQ e) l).
    unfold scoreQ at 1. lra.
Qed.

Section PhaseOne.
Variable rt : Runtime.
Variable scoringParams : Scoring.ScoringParams.
Variable maxTradesHardLimit : num.
Variable selectCount : nat.

Abbreviation scoreEntry' := (scoreEntry rt scoringParams maxTradesHardLimit).
Abbreviation base' := (base rt scoringParams maxTradesHardLimit).
Abbreviation survivors' := (survivors rt scoringParams maxTradesHardLimit).
Abbreviation scoredOrFallback' := (scoredOrFallback rt scoringParams maxTradesHardLimit).
Abbreviation scoreEntries' := (scoreEntries rt scoringParams maxTradesHardLimit selectCount).
Abbreviation rankWeight' := (rankWeight selectCount).

Lemma scoreEntry_score_finite entry : isFinite (score (scoreEntry' entry)) = true.
Proof.
  unfold scoreEntry.
  destruct (_ >? _)%num; [reflexivity|]. destruct (_ >? _)%num; [reflexivity|].
  apply computePerformanceScore_score_finite.
Qed.

(** No mapped entry is dropped for its score: [base] is the mapped list. *)
Lemma base_map entries : base' entries = map scoreEntry' entries.
Proof.
  unfold base. induction entries as [|e l IH]; simpl; [reflexivity|].
  rewrite scoreEntry_score_finite. simpl. now rewrite IH.
Qed.

Lemma base_finite entries : Forall (fun e => isFinite (score e) = true) (base' entries).
Proof.
  rewrite base_map. apply Forall_forall. intros e He.
  apply in_map_iff in He. destruct He as (r & <- & _). apply scoreEntry_score_finite.
Qed.

Lemma survivors_incl entries e : In e (survivors' entries) -> In e (base' entries).
Proof. unfold survivors. intros H. apply filter_In in H. destruct H as [H _].
  apply filter_In in H. apply H. Qed.

Lemma survivors_unfiltered entries e :
  In e (survivors' entries) -> isFiltered e = false.
Proof.
  unfold survivors. intros H. apply filter_In in H. destruct H as [H _].
  apply filter_In in H. destruct H as [_ H]. now apply negb_true_iff.
Qed.

Lemma lt_not_ge (a b : num) :
  isNaN a = false -> isNaN b = false -> (a <? b)%num = negb (a >=? b)%num.
Proof.
  unfold JS.ge, JS.lt, JS.le.
  destruct a as [| | |x], b as [| | |y]; simpl; try discriminate; try reflexivity.
  intros _ _.
  destruct (Qcompare_spec x y), (Qcompare_spec y x); try reflexivity; lra.
Qed.

(** The survivors are the mapped entries that are not filtered and not
    suspicious (for a win rate and a count of orders that are not NaN). *)
Lemma survivors_spec entries e :
  isNaN (winRate e) = false -> isNaN (executedOrders e) = false ->
  In e (survivors' entries)
  <-> In e (map scoreEntry' entries) /\ isFiltered e = false /\ suspiciousRecord e = false.
Proof.
  intros Nw Ne. unfold survivors. rewrite !filter_In, base_map.
  unfold suspiciousRecord.
  rewrite (lt_not_ge (winRate e) (Fin 0.999) Nw eq_refl).
  rewrite (lt_not_ge (executedOrders e) (Fin 10) Ne eq_refl).
  rewrite <- negb_andb, !negb_true_iff. tauto.
Qed.

Lemma scoredOrFallback_incl entries e :
  In e (scoredOrFallback' entries) -> In e (base' entries).
Proof.
  unfold scoredOrFallback. destruct (survivors' entries) eqn:S; [auto|].
  rewrite <- S. apply survivors_incl.
Qed.

Lemma scoredOrFallback_finite entries :
  Forall (fun e => isFinite (score e) = true) (scoredOrFallback' entries).
Proof.
  apply Forall_forall. intros e He. apply scoredOrFallback_incl in He.
  pose proof (base_finite entries) as F. rewrite Forall_forall in F. auto.
Qed.

Lemma sorted_finite entries :
  Forall (fun e => isFinite (score e) = true)
    (sort byScoreDesc (scoredOrFallback' entries)).
Proof. apply sort_Forall, scoredOrFallback_finite. Qed.

(** The sort puts finite scores in descending order. *)
Lemma sort_byScoreDesc (l : list ScoredEntry) :
  Forall (fun e => isFinite (score e) = true) l ->
  StronglySorted scoreGe (sort byScoreDesc l).
Proof.
  apply (sort_sorted byScoreDesc scoreGe).
  - unfold scoreGe. intros a b c; lra.
  - intros a b Fa Fb G. unfold byScoreDesc in G.
    rewrite (finite_toQ _ Fa), (finite_toQ _ Fb), sub_Fin in G.
    apply gt_Fin_false in G. unfold scoreGe. lra.
  - intros a b Fa Fb G. unfold byScoreDesc in G.
    rewrite (finite_toQ _ Fa), (finite_toQ _ Fb), sub_Fin in G.
    apply gt_Fin in G. unfold scoreGe. lra.
Qed.

Lemma rankWeight_entries T i l : map entry (mapiFrom (rankWeight' T) i l) = l.
Proof. revert i. induction l as [|e l IH]; intros i; simpl; [reflexivity | now rewrite IH]. Qed.

Lemma rankWeight_ranks T i l :
  map rank (mapiFrom (rankWeight' T) i l) = seq (i + 1) (length l).
Proof.
  revert i. induction l as [|e l IH]; intros i; simpl; [reflexivity|].
  now rewrite IH.
Qed.

Lemma rankWeight_beyond T i l e :
  In e (mapiFrom (rankWeight' T) i l) ->
  (i < rank e)%nat /\ ((selectCount < rank e)%nat -> weight e = 0%num).
Proof.
  revert i. induction l as [|x l IH]; intros i; simpl; [contradiction|].
  intros [<- | H].
  - simpl. split; [lia|]. intros R.
    assert (E : (i <? selectCount)%nat = false) by (apply Nat.ltb_ge; lia).
    now rewrite E.
  - destruct (IH (S i) H) as (R1 & R2). split; [lia | exact R2].
Qed.

Lemma rankWeight_skipn T i l :
  Forall (fun e : RankedEntry => weight e = 0%num)
    (skipn (selectCount - i) (mapiFrom (rankWeight' T) i l)).
Proof.
  revert i. induction l as [|x l IH]; intros i.
  - simpl. rewrite skipn_nil. constructor.
  - destruct (selectCount - i)%nat as [|k] eqn:Ek.
    + simpl. constructor.
      * simpl. assert (E : (i <? selectCount)%nat = false) by (apply Nat.ltb_ge; lia).
        now rewrite E.
      * specialize (IH (S i)). replace (selectCount - S i)%nat with 0%nat in IH by lia.
        exact IH.
    + simpl. specialize (IH (S i)).
      replace (selectCount - S i)%nat with k in IH by lia. exact IH.
Qed.

Lemma rankWeight_filter T i l :
  filter (fun e : RankedEntry => (rank e <=? selectCount)%nat) (mapiFrom (rankWeight' T) i l)
  = firstn (selectCount - i) (mapiFrom (rankWeight' T) i l).
Proof.
  revert i. induction l as [|x l IH]; intros i.
  - simpl. now rewrite firstn_nil.
  - cbn [mapiFrom filter]. cbn [rank rankWeight].
    specialize (IH (S i)).
    destruct (i + 1 <=? selectCount)%nat eqn:E.
    + apply Nat.leb_le in E.
      replace (selectCount - i)%nat with (S (selectCount - S i)) by lia.
      cbn [firstn]. now rewrite IH.
    + apply Nat.leb_gt in E.
      replace (selectCount - i)%nat with 0%nat by lia.
      replace (selectCount - S i)%nat with 0%nat in IH by lia.
      rewrite IH. reflexivity.
Qed.

Lemma rankWeight_weights t i l :
  Forall (fun e => isFinite (score e) = true) l -> ~ t == 0 ->
  weightsFrom selectCount (fun e : RankedEntry => positivePart e) t i
    (mapiFrom (rankWeight' (Fin t)) i l).
Proof.
  intros F Ht. revert i. induction F as [|e l He F IH]; intros i; simpl; [exact I|].
  split; [|apply IH].
  destruct (i <? selectCount)%nat; [|reflexivity].
  destruct (positivePart_spec e He) as (-> & _).
  rewrite div_Fin by exact Ht. reflexivity.
Qed.

(** [totalScore] is the sum of the positive parts over the first
    [selectCount] entries when that is positive, and 1 when it is zero. *)
Lemma totalScore_spec (l : list ScoredEntry) :
  Forall (fun e => isFinite (score e) = true) l ->
  let S := qsum positivePart (firstn selectCount l) in
  0 <= S /\ exists t, totalScore selectCount l = Fin t /\ 0 < t
                      /\ (0 < S -> t == S) /\ (S == 0 -> t == 1).
Proof.
  intros F S.
  assert (Ff : Forall (fun e => isFinite (score e) = true) (firstn selectCount l))
    by now apply Forall_take.
  assert (S0 : 0 <= S).
  { apply qsum_nonneg. eapply Forall_impl; [|exact Ff].
    intros e He. now destruct (positivePart_spec e He) as (_ & H & _). }
  split; [exact S0|].
  destruct (fold_left_positive _ 0 Ff) as (s & Hs & Es).
  unfold totalScore. unfold JS.zero at 2. rewrite Hs. unfold or_else, truthy.
  fold S in Es.
  destruct (Qeq_bool s 0) eqn:E; simpl.
  - apply Qeq_bool_iff in E. exists 1. repeat split; try lra; reflexivity.
  - apply Qeq_bool_false_iff in E. exists s. repeat split; try lra; reflexivity.
Qed.

Lemma somePositive_true (l : list RankedEntry) :
  Forall (fun e : RankedEntry => isFinite (score e) = true) l ->
  0 < qsum (fun e : RankedEntry => positivePart e) l -> somePositive l = true.
Proof.
  intros F H. apply qsum_pos_some in H. apply Exists_exists in H.
  destruct H as (e & He & Hp). apply existsb_exists. exists e. split; [exact He|].
  rewrite Forall_forall in F.
  now apply (positivePart_spec e (F e He)).
Qed.

Lemma somePositive_false (l : list RankedEntry) :
  Forall (fun e : RankedEntry => isFinite (score e) = true) l ->
  qsum (fun e : RankedEntry => positivePart e) l == 0 -> somePositive l = false.
Proof.
  intros F H. destruct (somePositive l) eqn:E; [|reflexivity].
  apply existsb_exists in E. destruct E as (e & He & Hp).
  rewrite Forall_forall in F.
  assert (P : Forall (fun e : RankedEntry => 0 <= positivePart e) l).
  { apply Forall_forall. intros x Hx. now apply (positivePart_spec x (F x Hx)). }
  pose proof (qsum_zero_all _ _ P H) as Z. rewrite Forall_forall in Z.
  apply (positivePart_spec e (F e He)) in Hp. specialize (Z e He). simpl in Z. lra.
Qed.

End PhaseOne.

Lemma isNum_eq n p q : isNum n p -> p == q -> isNum n q.
Proof. destruct n; simpl; try contradiction. intros H E. now rewrite H. Qed.

Section PhaseOneWeights.
Variable selectCount : nat.

Abbreviation rankWeight' := (rankWeight selectCount).

Lemma rankWeight_Forall (P : ScoredEntry -> Prop) T i l :
  Forall P l -> Forall (fun e : RankedEntry => P e) (mapiFrom (rankWeight' T) i l).
Proof.
  intros F. apply Forall_map. now rewrite rankWeight_entries.
Qed.

Lemma rankWeight_qsum (f : ScoredEntry -> Q) T i l n :
  qsum (fun e : RankedEntry => f e) (firstn n (mapiFrom (rankWeight' T) i l))
  = qsum f (firstn n l).
Proof.
  rewrite <- (qsum_map f entry), <- firstn_map, rankWeight_entries. reflexivity.
Qed.

(** The weights of phase 1 are normalized over the first [selectCount]
    entries. *)
Lemma rankAndWeigh_normalized (l : list ScoredEntry) :
  Forall (fun e => isFinite (score e) = true) l ->
  normalized selectCount (rankAndWeigh selectCount l).
Proof.
  intros F.
  destruct (totalScore_spec selectCount l F) as (S0 & t & Ht & tpos & HS1 & HS2).
  unfold rankAndWeigh, mapi. rewrite Ht.
  set (out := mapiFrom (rankWeight' (Fin t)) 0 l).
  assert (W : weightsFrom selectCount (fun e : RankedEntry => positivePart e) t 0 out)
    by (apply rankWeight_weights; [exact F | lra]).
  assert (Fo : Forall (fun e : RankedEntry => isFinite (score e) = true) out)
    by exact (rankWeight_Forall (fun e => isFinite (score e) = true) _ _ _ F).
  assert (Po : Forall (fun e : RankedEntry => 0 <= positivePart e) out).
  { eapply Forall_impl; [|exact Fo]. intros e He.
    now destruct (positivePart_spec e He) as (_ & H & _). }
  pose proof (weightsFrom_sum selectCount _ t tpos 0 out W) as Sum.
  rewrite Nat.sub_0_r in Sum.
  assert (Eq : qsum (fun e : RankedEntry => positivePart e) (firstn selectCount out)
               = qsum positivePart (firstn selectCount l))
    by apply rankWeight_qsum.
  split; [|split].
  - destruct (Qlt_le_dec 0 (qsum positivePart (firstn selectCount l))) as [Pos|Zero].
    + rewrite somePositive_true; [| now apply Forall_take | now rewrite Eq].
      eapply isNum_eq; [exact Sum|]. rewrite Eq, (HS1 Pos). field. lra.
    + assert (Z : qsum positivePart (firstn selectCount l) == 0) by lra.
      rewrite somePositive_false; [| now apply Forall_take | now rewrite Eq].
      eapply isNum_eq; [exact Sum|]. rewrite Eq, Z. field. lra.
  - pose proof (rankWeight_skipn selectCount (Fin t) 0 l) as B.
    now rewrite Nat.sub_0_r in B.
  - apply (weightsFrom_within selectCount _ t tpos 0 out W Po).
    rewrite Nat.sub_0_r. intros e He.
    pose proof (qsum_bound (fun e : RankedEntry => positivePart e) _ e
                  (Forall_take _ selectCount _ Po) He) as Bd.
    simpl in Bd. rewrite Eq in Bd.
    destruct (Qlt_le_dec 0 (qsum positivePart (firstn selectCount l))) as [Pos|Zero].
    + rewrite (HS1 Pos). exact Bd.
    + lra.
Qed.

End PhaseOneWeights.

(* ================================================================== *)
(** ** Phase 2: enrichment, re-filter and re-weighting *)
(* ================================================================== *)


Lemma Forall_proj {A B : Type} (f : A -> B) (P : B -> Prop) (l l' : list A) :
  map f l = map f l' -> Forall (fun a => P (f a)) l -> Forall (fun a => P (f a)) l'.
Proof.
  intros E F. apply Forall_map. rewrite <- E. now apply Forall_map.
Qed.


Lemma filter_all {A : Type} (f : A -> bool) (l : list A) :
  length (filter f l) = length l -> filter f l = l.
Proof.
  induction l as [|a l IH]; simpl; [reflexivity|].
  destruct (f a); simpl; intros H.
  - f_equal. apply IH. lia.
  - pose proof (filter_length_le f l). lia.
Qed.

Lemma core_score (l l' : list RankedEntry) :
  map core l = map core l' ->
  map (fun e : RankedEntry => score e) l = map (fun e : RankedEntry => score e) l'.
Proof.
  intros E. apply (f_equal (map (fun c : num * nat * option bool => fst (fst c)))) in E.
  now rewrite !map_map in E.
Qed.



Lemma applyAddressStats_core statsMap l :
  map core (applyAddressStats statsMap l) = map core l
  /\ map weight (applyAddressStats statsMap l) = map weight l.
Proof.
  unfold applyAddressStats. rewrite !map_map. split; apply map_ext; intros e;
    destruct (statsMap _); reflexivity.
Qed.

Lemma enrich_core statsMap n l :
  map core (enrich statsMap n l) = map core l
  /\ map weight (enrich statsMap n l) = map weight l.
Proof.
  unfold enrich. rewrite !map_app.
  destruct (applyAddressStats_core statsMap (firstn n l)) as (-> & ->).
  rewrite <- !map_app, firstn_skipn. split; reflexivity.
Qed.

Lemma enrich_length statsMap n l : length (enrich statsMap n l) = length l.
Proof.
  destruct (enrich_core statsMap n l) as (_ & E).
  apply (f_equal (@length _)) in E. now rewrite !length_map in E.
Qed.

Lemma weightSum_map (l : list RankedEntry) :
  weightSum l = fold_right (fun w acc => (w + acc)%num) 0%num (map weight l).
Proof. induction l as [|e l IH]; simpl; [reflexivity | now rewrite IH]. Qed.

Lemma somePositive_map (l : list RankedEntry) :
  somePositive l
  = existsb (fun s => (s >? 0)%num) (map (fun e : RankedEntry => score e) l).
Proof. induction l as [|e l IH]; simpl; [reflexivity | now rewrite IH]. Qed.

(** [normalized] reads only the weights and the scores, in order. *)
Lemma normalized_ext K (l l' : list RankedEntry) :
  map weight l = map weight l' ->
  map (fun e : RankedEntry => score e) l = map (fun e : RankedEntry => score e) l' ->
  normalized K l -> normalized K l'.
Proof.
  intros Ew Es (N1 & N2 & N3). split; [|split].
  - rewrite weightSum_map, somePositive_map, <- !firstn_map, <- Ew, <- Es,
      !firstn_map, <- weightSum_map, <- somePositive_map. exact N1.
  - apply (Forall_proj weight (fun w => w = 0%num) (skipn K l)); [|exact N2].
    now rewrite <- !skipn_map, Ew.
  - apply (Forall_proj weight (within 0 1) l); assumption.
Qed.

Section PhaseTwo.
Variable selectCount : nat.

Abbreviation reweighEntry' := (reweighEntry selectCount).

Lemma reweighEntry_entry T i l :
  map entry (mapiFrom (reweighEntry' T) i l) = map entry l
  /\ map rank (mapiFrom (reweighEntry' T) i l) = map rank l.
Proof.
  revert i. induction l as [|e l IH]; intros i; simpl; [split; reflexivity|].
  destruct (IH (S i)) as (-> & ->).
  unfold reweighEntry. destruct (_ && _); split; reflexivity.
Qed.

Lemma reweigh_entry l :
  map entry (reweigh selectCount l) = map entry l
  /\ map rank (reweigh selectCount l) = map rank l.
Proof. apply reweighEntry_entry. Qed.


Lemma reweigh_proj {B : Type} (f : ScoredEntry -> B) l :
  map (fun e : RankedEntry => f e) (reweigh selectCount l)
  = map (fun e : RankedEntry => f e) l.
Proof.
  destruct (reweigh_entry l) as (E & _).
  apply (f_equal (map f)) in E. now rewrite !map_map in E.
Qed.

Lemma reweighEntry_positive (s : Q) i l :
  Forall (fun e : RankedEntry => isFinite (score e) = true) l ->
  0 < s ->
  weightsFrom selectCount (fun e : RankedEntry => scoreQ e) s i
    (mapiFrom (reweighEntry' (Fin s)) i l).
Proof.
  intros F Hs. revert i. induction F as [|e l He F IH]; intros i; simpl; [exact I|].
  split; [|apply IH].
  unfold reweighEntry.
  assert (G : (Fin s >? 0)%num = true) by now apply gt_Fin.
  rewrite G, andb_true_r.
  destruct (i <? selectCount)%nat; simpl; [|reflexivity].
  rewrite (finite_toQ _ He), div_Fin by lra. reflexivity.
Qed.

Lemma reweighEntry_zero (T : num) i l :
  (T >? 0)%num = false ->
  Forall (fun e : RankedEntry => weight e = 0%num) (mapiFrom (reweighEntry' T) i l).
Proof.
  intros G. revert i. induction l as [|e l IH]; intros i; simpl; constructor; [|apply IH].
  unfold reweighEntry. now rewrite G, andb_false_r.
Qed.

Lemma reweighEntry_beyond T i l :
  Forall (fun e : RankedEntry => weight e = 0%num)
    (skipn (selectCount - i) (mapiFrom (reweighEntry' T) i l)).
Proof.
  revert i. induction l as [|x l IH]; intros i.
  - simpl. rewrite skipn_nil. constructor.
  - destruct (selectCount - i)%nat as [|k] eqn:Ek.
    + simpl. constructor.
      * unfold reweighEntry.
        assert (E : (i <? selectCount)%nat = false) by (apply Nat.ltb_ge; lia).
        now rewrite E.
      * specialize (IH (S i)). replace (selectCount - S i)%nat with 0%nat in IH by lia.
        exact IH.
    + simpl. specialize (IH (S i)).
      replace (selectCount - S i)%nat with k in IH by lia. exact IH.
Qed.

Lemma weightSum_zero (l : list RankedEntry) :
  Forall (fun e : RankedEntry => weight e = 0%num) l -> isNum (weightSum l) 0.
Proof.
  induction 1 as [|e l He F IH]; simpl; [reflexivity|].
  rewrite He. apply isNum_inv in IH. destruct IH as (p & -> & Ep).
  simpl. lra.
Qed.

Lemma noNegativeScore_spec (l : list RankedEntry) :
  Forall (fun e : RankedEntry => isFinite (score e) = true) l ->
  noNegativeScore l = true ->
  Forall (fun e : RankedEntry => 0 <= scoreQ e) l.
Proof.
  intros F N. unfold noNegativeScore in N. rewrite forallb_forall in N.
  rewrite Forall_forall in *. intros e He.
  specialize (N e He). apply negb_true_iff in N.
  unfold scoreQ. rewrite (finite_toQ _ (F e He)) in N |- *.
  simpl. now apply lt_Fin_false in N.
Qed.

Lemma somePositive_scores (l : list RankedEntry) :
  Forall (fun e : RankedEntry => isFinite (score e) = true) l ->
  somePositive l = true <-> Exists (fun e : RankedEntry => 0 < scoreQ e) l.
Proof.
  intros F. unfold somePositive. rewrite existsb_exists, Exists_exists.
  rewrite Forall_forall in F.
  split; intros (e & He & H); exists e; (split; [exact He|]);
    unfold scoreQ in *; rewrite (finite_toQ _ (F e He)) in *; simpl in *;
    now apply gt_Fin.
Qed.

(** The weights recomputed in phase 2 are normalized over the first
    [selectCount] entries when no score is negative. *)
Lemma reweigh_normalized (l : list RankedEntry) :
  Forall (fun e : RankedEntry => isFinite (score e) = true) l ->
  noNegativeScore l = true ->
  normalized selectCount (reweigh selectCount l).
Proof.
  intros F N.
  pose proof (noNegativeScore_spec l F N) as P.
  assert (Ft : Forall (fun e : RankedEntry => isFinite (score e) = true)
                 (firstn selectCount l)) by now apply Forall_take.
  destruct (fold_left_scores _ 0 Ft) as (s & Hs & Es).
  assert (S0 : 0 <= qsum (fun e : RankedEntry => scoreQ e) (firstn selectCount l))
    by (apply qsum_nonneg; now apply Forall_take).
  pose proof (reweigh_proj (fun e => score e) l) as Esc. cbv beta in Esc.
  assert (Fo : Forall (fun e : RankedEntry => isFinite (score e) = true)
                 (reweigh selectCount l)).
  { apply (Forall_proj (fun e : RankedEntry => score e) (fun x => isFinite x = true) l);
      [now symmetry | exact F]. }
  assert (Po : Forall (fun e : RankedEntry => 0 <= scoreQ e) (reweigh selectCount l)).
  { apply (Forall_proj (fun e : RankedEntry => score e) (fun x => 0 <= toQ x) l);
      [now symmetry | exact P]. }
  assert (Eq : qsum (fun e : RankedEntry => scoreQ e) (firstn selectCount (reweigh selectCount l))
               = qsum (fun e : RankedEntry => scoreQ e) (firstn selectCount l)).
  { unfold scoreQ.
    rewrite <- !(qsum_map toQ (fun e : RankedEntry => score e)).
    now rewrite <- !firstn_map, Esc. }
  assert (Sp : somePositive (firstn selectCount (reweigh selectCount l))
               = somePositive (firstn selectCount l)).
  { now rewrite !somePositive_map, <- !firstn_map, Esc. }
  unfold reweigh in *. change (Fin 0) with JS.zero in Hs. cbv zeta in *.
  rewrite Hs in *. unfold mapi in *.
  destruct (Qlt_le_dec 0 s) as [Pos|Zero].
  - pose proof (reweighEntry_positive s 0 l F Pos) as W.
    split; [|split].
    + pose proof (weightsFrom_sum selectCount _ s Pos 0 _ W) as Sum.
      rewrite Nat.sub_0_r in Sum. rewrite Sp.
      assert (Sm : somePositive (firstn selectCount l) = true).
      { apply somePositive_scores; [exact Ft|]. apply qsum_pos_some. lra. }
      rewrite Sm. eapply isNum_eq; [exact Sum|]. rewrite Eq.
      rewrite <- (Qplus_0_l (qsum _ _)), <- Es. field. lra.
    + pose proof (reweighEntry_beyond (Fin s) 0 l) as B.
      now rewrite Nat.sub_0_r in B.
    + apply (weightsFrom_within selectCount _ s Pos 0 _ W Po).
      rewrite Nat.sub_0_r. intros e He.
      pose proof (qsum_bound (fun e : RankedEntry => scoreQ e) _ e
                    (Forall_take _ selectCount _ Po) He) as Bd.
      simpl in Bd. rewrite Eq in Bd. lra.
  - assert (G : (Fin s >? 0)%num = false) by now apply gt_Fin_false.
    pose proof (reweighEntry_zero (Fin s) 0 l G) as Z.
    split; [|split].
    + rewrite Sp.
      assert (Sm : somePositive (firstn selectCount l) = false).
      { destruct (somePositive (firstn selectCount l)) eqn:E; [|reflexivity].
        apply somePositive_scores in E; [|exact Ft].
        apply Exists_exists in E. destruct E as (e & He & Hp).
        pose proof (qsum_bound (fun e : RankedEntry => scoreQ e) _ e
                      (Forall_take _ selectCount _ P) He) as Bd.
        simpl in Bd. lra. }
      rewrite Sm. apply weightSum_zero. now apply Forall_take.
    + now apply Forall_drop.
    + eapply Forall_impl; [|exact Z]. intros e ->. simpl. lra.
Qed.

End PhaseTwo.

(* ================================================================== *)
(** ** The refresh cycle *)
(* ================================================================== *)

Section Cycle.
Variable rt : Runtime.
Variable scoringParams : Scoring.ScoringParams.
Variable maxTradesHardLimit : num.
Variable selectCount : nat.
Variable enrichCount : nat.

Abbreviation scoreEntry_ := (scoreEntry rt scoringParams maxTradesHardLimit).
Abbreviation base_ := (base rt scoringParams maxTradesHardLimit).
Abbreviation survivors_ := (survivors rt scoringParams maxTradesHardLimit).
Abbreviation scoredOrFallback_ := (scoredOrFallback rt scoringParams maxTradesHardLimit).
Abbreviation scoreEntries_ := (scoreEntries rt scoringParams maxTradesHardLimit selectCount).
Abbreviation refreshPeriod_ :=
  (refreshPeriod rt scoringParams maxTradesHardLimit selectCount enrichCount).
Abbreviation keep_ := (keepEnriched scoringParams).

Lemma scoreEntries_entries raw :
  map entry (scoreEntries_ raw) = sort byScoreDesc (scoredOrFallback_ raw).
Proof. apply rankWeight_entries. Qed.

Lemma scoreEntries_ranks raw :
  map rank (scoreEntries_ raw) = seq 1 (length (scoreEntries_ raw)).
Proof.
  unfold scoreEntries, rankAndWeigh, mapi.
  rewrite rankWeight_ranks. f_equal.
  rewrite <- (length_map entry (mapiFrom _ _ _)), rankWeight_entries. reflexivity.
Qed.

Lemma scoreEntries_length raw :
  length (scoreEntries_ raw) = length (scoredOrFallback_ raw).
Proof.
  rewrite <- (length_map entry), scoreEntries_entries. apply sort_length.
Qed.

Lemma scoreEntries_finite raw :
  Forall (fun e : RankedEntry => isFinite (score e) = true) (scoreEntries_ raw).
Proof.
  apply (Forall_map entry (fun e => isFinite (score e) = true)).
  rewrite scoreEntries_entries. apply sorted_finite.
Qed.

Lemma scoreEntries_sorted raw : StronglySorted rankedScoreGe (scoreEntries_ raw).
Proof.
  pose proof (sort_byScoreDesc _ (scoredOrFallback_finite rt scoringParams
                                    maxTradesHardLimit raw)) as S.
  rewrite <- scoreEntries_entries in S.
  remember (scoreEntries_ raw) as out eqn:E. clear E.
  induction out as [|e out IH]; [constructor|].
  simpl in S. inversion S as [|? ? S' Hd]; subst.
  constructor; [now apply IH|]. rewrite Forall_map in Hd. exact Hd.
Qed.

Lemma scoreEntries_normalized raw : normalized selectCount (scoreEntries_ raw).
Proof. apply rankAndWeigh_normalized, sorted_finite. Qed.

Lemma scoreEntries_rank_filter raw :
  filter (fun e : RankedEntry => (rank e <=? selectCount)%nat) (scoreEntries_ raw)
  = firstn selectCount (scoreEntries_ raw).
Proof.
  unfold scoreEntries, rankAndWeigh, mapi.
  rewrite rankWeight_filter. now rewrite Nat.sub_0_r.
Qed.

Lemma scoreEntries_rank_weight raw e :
  In e (scoreEntries_ raw) -> (selectCount < rank e)%nat -> weight e = 0%num.
Proof. intros H. now apply (rankWeight_beyond selectCount _ 0 _ e H). Qed.



(** The entries handed to [persistPeriod], by the path taken. *)
Lemma refreshPeriod_entries raw statsMap series :
  let ranked := scoreEntries_ raw in
  let n := Nat.min (length ranked) (Nat.max enrichCount (selectCount * 2)) in
  let enriched := enrich statsMap n ranked in
  let kept := filter keep_ enriched in
  entries (refreshPeriod_ raw statsMap series)
  = match firstn n ranked with
    | [] => ranked
    | _ :: _ => if (0 <? length enriched - length kept)%nat
                then reweigh selectCount kept else kept
    end.
Proof. cbv zeta. unfold refreshPeriod. destruct (firstn _ _); reflexivity. Qed.

(** Either the list of phase 1 is persisted as it is, or the enriched list
    with nothing removed, or the re-weighted rest of a list that lost an
    entry. *)
Lemma refreshPeriod_cases raw statsMap series :
  let ranked := scoreEntries_ raw in
  let out := entries (refreshPeriod_ raw statsMap series) in
  exists enriched,
    map core enriched = map core ranked
    /\ map weight enriched = map weight ranked
    /\ ((out = ranked /\ (ranked = [] \/ refilterRuns selectCount enrichCount = false))
        \/ (out = enriched /\ filter keep_ enriched = enriched)
        \/ (out = reweigh selectCount (filter keep_ enriched)
            /\ (length (filter keep_ enriched) < length ranked)%nat)).
Proof.
  cbv zeta. rewrite refreshPeriod_entries. cbv zeta.
  remember (scoreEntries_ raw) as ranked eqn:Er. clear Er.
  remember (Nat.max enrichCount (selectCount * 2)) as m eqn:Em.
  exists (enrich statsMap (Nat.min (length ranked) m) ranked).
  destruct (enrich_core statsMap (Nat.min (length ranked) m) ranked) as (Ec & Ew).
  split; [exact Ec|]. split; [exact Ew|].
  destruct (firstn (Nat.min (length ranked) m) ranked) eqn:Ef.
  - left. split; [reflexivity|].
    destruct ranked as [|r ranked']; [now left|]. right.
    unfold refilterRuns. rewrite <- Em. apply Nat.ltb_ge.
    destruct m as [|m']; [lia|]. simpl in Ef. discriminate.
  - right.
    pose proof (filter_length_le keep_
                  (enrich statsMap (Nat.min (length ranked) m) ranked)) as L.
    destruct (0 <? _)%nat eqn:E.
    + right. split; [reflexivity|]. apply Nat.ltb_lt in E.
      rewrite (enrich_length statsMap _ ranked) in E. lia.
    + left. apply Nat.ltb_ge in E. split; apply filter_all; lia.
Qed.

End Cycle.

Lemma noNegativeScore_proj (l l' : list RankedEntry) :
  map (fun e : RankedEntry => score e) l = map (fun e : RankedEntry => score e) l' ->
  noNegativeScore l = noNegativeScore l'.
Proof.
  intros E. unfold noNegativeScore.
  assert (X : forall x : list RankedEntry,
             forallb (fun e : RankedEntry => negb (score e <? 0)%num) x
             = forallb (fun s => negb (s <? 0)%num) (map (fun e : RankedEntry => score e) x)).
  { induction x as [|e x IH]; simpl; [reflexivity | now rewrite IH]. }
  now rewrite !X, E.
Qed.

Lemma noNegativeScore_filter (f : RankedEntry -> bool) (l : list RankedEntry) :
  noNegativeScore l = true -> noNegativeScore (filter f l) = true.
Proof.
  unfold noNegativeScore. rewrite !forallb_forall. intros H e He.
  apply filter_In in He. now apply H.
Qed.

Lemma Forall_filter' {A : Type} (P : A -> Prop) (f : A -> bool) (l : list A) :
  Forall P l -> Forall P (filter f l).
Proof.
  rewrite !Forall_forall. intros H x Hx. apply filter_In in Hx. now apply H.
Qed.

(* ================================================================== *)
(** ** C1: the weights of a period *)
(* ================================================================== *)

(** C1, as stated, fails after the re-filter of phase 2: the ranks are
    those of phase 1, so an entry that moves into the first [selectCount]
    positions keeps a rank above [selectCount] and gets a positive weight.
    With [selectCount = 2] and three entries of equal score, the enrichment
    removes the first; the two others keep the ranks 2 and 3 and get the
    weight 1/2 each, and the weights of the entries of rank 2 or less sum
    to 1/2. *)
Lemma refreshPeriod_weight_beyond_rank :
  let out := entries (refreshPeriod exampleRuntime Scoring.DEFAULT_SCORING_PARAMS
                        (Fin 200) 2 2 threeIdle firstBlownUp []) in
  map (fun e : RankedEntry => (address e, rank e)) out
  = [("0xb"%string, 2%nat); ("0xc"%string, 3%nat)]
  /\ Forall (fun e : RankedEntry => isNum (weight e) (1 # 2) /\ isNum (score e) 0.15) out
  /\ isNum (weightSum (filter (fun e : RankedEntry => (rank e <=? 2)%nat) out)) (1 # 2).
Proof. vm_compute. repeat constructor. Qed.

(** C1 (amended): in the list returned by [scoreEntries], the weights of
    the entries of rank [selectCount] or less sum to 1 when one of the
    first [selectCount] entries has a positive score and to 0 otherwise,
    every entry of higher rank has the weight 0, and every weight lies in
    [0, 1].  In the list handed to persistence after the re-filter the same
    holds by position (the first [selectCount] entries of the list, not the
    entries of rank [selectCount] or less: ranks are not re-assigned),
    provided no score is negative. *)
Theorem weights_normalized (rt : Runtime) scoringParams maxTradesHardLimit
    selectCount enrichCount raw statsMap series :
  let ranked := scoreEntries rt scoringParams maxTradesHardLimit selectCount raw in
  let out := entries (refreshPeriod rt scoringParams maxTradesHardLimit selectCount
                        enrichCount raw statsMap series) in
  isNum (weightSum (filter (fun e : RankedEntry => (rank e <=? selectCount)%nat) ranked))
        (if somePositive (firstn selectCount ranked) then 1 else 0)
  /\ (forall e : RankedEntry, In e ranked -> (selectCount < rank e)%nat -> weight e = 0%num)
  /\ Forall (fun e : RankedEntry => within 0 1 (weight e)) ranked
  /\ (noNegativeScore ranked = true -> normalized selectCount out).
Proof.
  intros ranked out.
  pose proof (scoreEntries_normalized rt scoringParams maxTradesHardLimit selectCount raw)
    as (N1 & N2 & N3).
  fold ranked in N1, N2, N3.
  split; [|split; [|split]].
  - unfold ranked. rewrite scoreEntries_rank_filter. exact N1.
  - intros e. apply scoreEntries_rank_weight.
  - exact N3.
  - intros N.
    pose proof (scoreEntries_finite rt scoringParams maxTradesHardLimit selectCount raw) as F.
    destruct (refreshPeriod_cases rt scoringParams maxTradesHardLimit selectCount
                enrichCount raw statsMap series) as (enriched & Ec & Ew & Cases).
    fold ranked in F, Ec, Ew, Cases. fold out in Cases.
    pose proof (core_score _ _ Ec) as Es.
    destruct Cases as [(-> & _) | [(-> & _) | (-> & _)]].
    + repeat split; assumption.
    + apply (normalized_ext selectCount ranked); [now symmetry | now symmetry|].
      repeat split; assumption.
    + apply reweigh_normalized.
      * apply Forall_filter'.
        apply (Forall_proj (fun e : RankedEntry => score e)
                 (fun x => isFinite x = true) ranked); [now symmetry | exact F].
      * apply noNegativeScore_filter. now rewrite (noNegativeScore_proj _ _ Es).
Qed.

Lemma weights_normalized_witness :
  normalized 2
    (entries (refreshPeriod exampleRuntime Scoring.DEFAULT_SCORING_PARAMS
                (Fin 200) 2 2 threeIdle firstBlownUp [])).
Proof.
  destruct (weights_normalized exampleRuntime Scoring.DEFAULT_SCORING_PARAMS
              (Fin 200) 2 2 threeIdle firstBlownUp []) as (_ & _ & _ & H).
  apply H. vm_compute. reflexivity.
Defined.

(* ================================================================== *)
(** ** C2: order and ranks after the re-filter *)
(* ================================================================== *)










(* ================================================================== *)
(** ** C3: the filter flag of the persisted entries *)
(* ================================================================== *)

Section Flags.
Variable rt : Runtime.
Variable scoringParams : Scoring.ScoringParams.
Variable maxTradesHardLimit : num.
Variable selectCount : nat.

Lemma scoreEntries_In_scored raw (e : RankedEntry) :
  In e (scoreEntries rt scoringParams maxTradesHardLimit selectCount raw) ->
  In (entry e) (scoredOrFallback rt scoringParams maxTradesHardLimit raw).
Proof.
  intros H. apply (in_map entry) in H.
  rewrite scoreEntries_entries in H. now apply sort_In in H.
Qed.


End Flags.




(* ================================================================== *)
(** ** C4: the hard filters *)
(* ================================================================== *)




(* ================================================================== *)
(** ** C5: the fallback *)
(* ================================================================== *)

(** C5: when no entry survives the drops (of the filtered entries and of
    the suspicious records), [scoreEntries] returns the whole pre-drop
    list, every mapped entry, sorted, ranked and weighted; so the result is
    empty only for an empty input. *)
Theorem scoreEntries_fallback (rt : Runtime) scoringParams maxTradesHardLimit
    selectCount entries :
  let out := scoreEntries rt scoringParams maxTradesHardLimit selectCount entries in
  (survivors rt scoringParams maxTradesHardLimit entries = [] ->
   out = rankAndWeigh selectCount
           (sort byScoreDesc (map (scoreEntry rt scoringParams maxTradesHardLimit) entries))
   /\ Permutation (map entry out)
        (map (scoreEntry rt scoringParams maxTradesHardLimit) entries)
   /\ length out = length entries)
  /\ (forall e : ScoredEntry,
        isNaN (winRate e) = false -> isNaN (executedOrders e) = false ->
        In e (survivors rt scoringParams maxTradesHardLimit entries)
        <-> In e (map (scoreEntry rt scoringParams maxTradesHardLimit) entries)
            /\ isFiltered e = false /\ suspiciousRecord e = false)
  /\ StronglySorted rankedScoreGe out
  /\ map rank out = seq 1 (length out)
  /\ normalized selectCount out
  /\ (entries <> [] -> out <> []).
Proof.
  intros out.
  split; [|split; [|split; [|split; [|split]]]].
  - intros Hs.
    assert (E : out = rankAndWeigh selectCount
                        (sort byScoreDesc
                           (map (scoreEntry rt scoringParams maxTradesHardLimit) entries))).
    { unfold out, scoreEntries, scoredOrFallback. rewrite Hs, base_map. reflexivity. }
    split; [exact E|].
    assert (P : Permutation (map entry out)
                  (map (scoreEntry rt scoringParams maxTradesHardLimit) entries)).
    { rewrite E. unfold rankAndWeigh, mapi. rewrite rankWeight_entries. apply sort_perm. }
    split; [exact P|].
    apply Permutation_length in P. now rewrite !length_map in P.
  - intros e. apply survivors_spec.
  - apply scoreEntries_sorted.
  - apply scoreEntries_ranks.
  - apply scoreEntries_normalized.
  - intros Hne Ho.
    pose proof (scoreEntries_length rt scoringParams maxTradesHardLimit selectCount entries)
      as L. fold out in L. rewrite Ho in L. simpl in L.
    unfold scoredOrFallback in L.
    destruct (survivors rt scoringParams maxTradesHardLimit entries); [|discriminate].
    rewrite base_map, length_map in L. destruct entries; [contradiction | discriminate].
Qed.

Lemma scoreEntries_fallback_witness :
  length (scoreEntries exampleRuntime Scoring.DEFAULT_SCORING_PARAMS (Fin 200) 12
            blownUpAndPerfect) = 2%nat
  /\ scoreEntries exampleRuntime Scoring.DEFAULT_SCORING_PARAMS (Fin 200) 12
       blownUpAndPerfect <> [].
Proof.
  destruct (scoreEntries_fallback exampleRuntime Scoring.DEFAULT_SCORING_PARAMS
              (Fin 200) 12 blownUpAndPerfect) as (H1 & _ & _ & _ & _ & H2).
  split.
  - apply H1. vm_compute. reflexivity.
  - apply H2. discriminate.
Defined.

(* ================================================================== *)
(** ** When no score is negative *)
(* ================================================================== *)

Section NonNegativeScores.
Variable rt : Runtime.
Hypothesis laws : RuntimeLaws rt.

Lemma sqrt_notNeg (a : num) : notNeg (JS.sqrt rt a).
Proof.
  destruct a as [| | |q]; try reflexivity. simpl.
  destruct (Qlt_le_dec q 0); [reflexivity|].
  apply notNeg_Fin. now apply (sqrtQ_nonneg rt laws).
Qed.

Lemma exp_notNeg (a : num) : notNeg (JS.exp rt a).
Proof.
  destruct a as [| | |q]; try reflexivity.
  apply notNeg_Fin. apply (expQ_nonneg rt laws).
Qed.

Lemma guard_notNeg (s : num) : notNeg s -> finNonNeg (if isFinite s then s else 0%num).
Proof.
  intros H. destruct (isFinite s) eqn:F; [now apply notNeg_finite|].
  simpl. lra.
Qed.

Lemma computeSmoothPnlScore_nonneg l :
  finNonNeg (Scoring.sp_score (Scoring.computeSmoothPnlScore rt l)).
Proof.
  unfold Scoring.computeSmoothPnlScore.
  pose proof (extractValues_finite rt l) as F.
  destruct (Scoring.extractValues rt l) as [|base [|v1 rest]]; try (simpl; lra).
  destruct (smoothPnl_body base v1 rest F) as (m & s & u & Hm & Hm0 & Hs & Hs0 & Hu & Hu0).
  cbv zeta. cbn [Scoring.sp_score]. apply guard_notNeg.
  rewrite Hm, Hs, Hu.
  apply notNeg_div.
  - apply notNeg_mul; [apply notNeg_max_l, notNeg_zero | now apply notNeg_Fin].
  - apply notNeg_add; [apply notNeg_add; [apply notNeg_one | now apply notNeg_Fin]|].
    apply sqrt_notNeg.
Qed.

Lemma smoothPnlOf_nonneg pnlList :
  finNonNeg (Scoring.sp_score (Scoring.smoothPnlOf rt pnlList)).
Proof.
  unfold Scoring.smoothPnlOf. destruct pnlList as [l|]; [|simpl; lra].
  destruct (2 <=? length l)%nat; [apply computeSmoothPnlScore_nonneg | simpl; lra].
Qed.

Lemma computeAdjustedWinRate_notNeg (w l : num) :
  notNeg w -> notNeg l -> notNeg (Scoring.computeAdjustedWinRate w l).
Proof.
  intros Hw Hl. unfold Scoring.computeAdjustedWinRate.
  assert (B : notNeg ((w + 1) / (w + l + Fin 2))%num).
  { apply notNeg_div; repeat apply notNeg_add; try assumption; reflexivity. }
  repeat match goal with |- context [if ?c then _ else _] => destruct c end;
    try exact B; (apply notNeg_mul; [now apply notNeg_Fin | exact B]).
Qed.

Lemma computeNormalizedPnl_notNeg pnl reference :
  notNeg (Scoring.computeNormalizedPnl rt pnl reference).
Proof.
  unfold Scoring.computeNormalizedPnl. destruct (pnl <=? 0)%num; [reflexivity|].
  apply notNeg_min; [apply notNeg_one | apply notNeg_max_l, notNeg_zero].
Qed.

Lemma computeTradeFreqScore_notNeg t optimal sigma threshold :
  notNeg (Scoring.computeTradeFreqScore rt t optimal sigma threshold).
Proof.
  unfold Scoring.computeTradeFreqScore. destruct (t <=? 0)%num; [reflexivity|].
  cbv zeta.
  repeat match goal with |- context [if ?c then _ else _] => destruct c end;
    try apply exp_notNeg; (apply notNeg_mul; [apply exp_notNeg | now apply notNeg_Fin]).
Qed.

(** With weights that are not negative, a score is zero or more. *)
Lemma computePerformanceScore_nonneg stats params :
  nonNegativeWeights params = true ->
  finNonNeg (Scoring.score (Scoring.computePerformanceScore rt stats params)).
Proof.
  unfold nonNegativeWeights. rewrite !andb_true_iff, !negb_true_iff.
  intros (((W1 & W2) & W3) & W4).
  unfold Scoring.computePerformanceScore.
  destruct (negb (isFinite (Scoring.numTrades stats)) || _) eqn:V1; [simpl; lra|].
  destruct (negb (isFinite (Scoring.numWins stats)) || _) eqn:V2; [simpl; lra|].
  destruct (negb (isFinite (Scoring.numLosses stats)) || _) eqn:V3; [simpl; lra|].
  apply validated in V2, V3.
  destruct V2 as (w & Hw & Hw0), V3 as (l & Hl & Hl0).
  destruct (_ >? _)%num; [simpl; lra|].
  cbv zeta. cbn [Scoring.score]. apply guard_notNeg.
  repeat apply notNeg_add; apply notNeg_mul; try assumption.
  - apply finNonNeg_notNeg, smoothPnlOf_nonneg.
  - rewrite Hw, Hl. apply computeAdjustedWinRate_notNeg; now apply notNeg_Fin.
  - apply computeNormalizedPnl_notNeg.
  - apply computeTradeFreqScore_notNeg.
Qed.

(** So no score of a leaderboard is negative when no weight of the
    composite is. *)
Lemma scoreEntries_noNegativeScore params maxTradesHardLimit selectCount raw :
  nonNegativeWeights params = true ->
  noNegativeScore (scoreEntries rt params maxTradesHardLimit selectCount raw) = true.
Proof.
  intros W. unfold noNegativeScore. apply forallb_forall. intros e He.
  apply scoreEntries_In_scored, scoredOrFallback_incl in He.
  rewrite base_map in He. apply in_map_iff in He. destruct He as (r & Er & _).
  change (score e) with (score (entry e)). rewrite <- Er.
  apply negb_true_iff. apply finNonNeg_notNeg.
  unfold scoreEntry.
  destruct (_ >? _)%num; [simpl; lra|]. destruct (_ >? _)%num; [simpl; lra|].
  cbn [score]. now apply computePerformanceScore_nonneg.
Qed.

End NonNegativeScores.

Lemma exampleRuntime_laws : RuntimeLaws exampleRuntime.
Proof.
  split; simpl.
  - intros q _. unfold sqrtApprox, Qle. simpl. rewrite Z.mul_1_r.
    apply Z.sqrt_nonneg.
  - intros q. unfold expApprox.
    assert (S : 0 <= q * q) by nra.
    assert (S2 : 0 <= q * q / 2) by (apply Qle_shift_div_l; lra).
    destruct (Qlt_le_dec q 0).
    + apply Qle_shift_div_l; [lra|]. rewrite Qmult_0_l. lra.
    + lra.
Qed.

(* ================================================================== *)
(** ** The scoring module: ranking of accounts *)
(* ================================================================== *)

(** A sort by [b.score - a.score] of finite scores is in descending
    order of the scores. *)
Lemma sort_descending {A : Type} (f : A -> num) (l : list A) :
  Forall (fun a => isFinite (f a) = true) l ->
  StronglySorted (fun a b => toQ (f b) <= toQ (f a))
    (sort (fun a b => (f b - f a)%num) l).
Proof.
  apply (sort_sorted _ (fun a b => toQ (f b) <= toQ (f a))).
  - intros a b c; cbv beta; lra.
  - intros a b Fa Fb G. cbv beta in *.
    rewrite (finite_toQ _ Fa), (finite_toQ _ Fb), sub_Fin in G.
    apply gt_Fin_false in G. lra.
  - intros a b Fa Fb G. cbv beta in *.
    rewrite (finite_toQ _ Fa), (finite_toQ _ Fb), sub_Fin in G.
    apply gt_Fin in G. lra.
Qed.

Lemma StronglySorted_map {A B : Type} (f : A -> B) (R : B -> B -> Prop) (l : list A) :
  StronglySorted R (map f l) -> StronglySorted (fun a b => R (f a) (f b)) l.
Proof.
  induction l as [|a l IH]; simpl; intros S; [constructor|].
  inversion S as [|? ? S' Ha]; subst.
  constructor; [now apply IH|]. now rewrite Forall_map in Ha.
Qed.

Lemma withRank_scored i l :
  map Accounts.scored (mapiFrom Accounts.withRank i l) = l.
Proof. revert i. induction l as [|a l IH]; intros i; simpl; [reflexivity | now rewrite IH]. Qed.

Lemma withRank_ranks i l :
  map Accounts.rank (mapiFrom Accounts.withRank i l) = seq (i + 1) (length l).
Proof.
  revert i. induction l as [|a l IH]; intros i; simpl; [reflexivity|].
  now rewrite IH.
Qed.

Lemma mapiFrom_length {A B : Type} (f : A -> nat -> B) i l :
  length (mapiFrom f i l) = length l.
Proof. revert i. induction l as [|a l IH]; intros i; simpl; [reflexivity | now rewrite IH]. Qed.

Section AccountFacts.
Variable rt : Runtime.
Variable params : Scoring.ScoringParams.

Lemma scoreAccount_finite accounts :
  Forall (fun a => isFinite (Accounts.score a) = true)
    (map (Accounts.scoreAccount rt params) accounts).
Proof.
  apply Forall_map, Forall_forall. intros a _.
  apply computePerformanceScore_score_finite.
Qed.

Lemma scoreAs_finite custom accounts :
  Forall (fun a => isFinite (Accounts.score a) = true)
    (map (Accounts.scoreAs rt params custom) accounts).
Proof.
  apply Forall_map, Forall_forall. intros a _.
  apply computePerformanceScore_score_finite.
Qed.

(** The ranked accounts of a list of scored accounts of finite score. *)
Lemma ranked_spec (l : list Accounts.ScoredAccount) :
  Forall (fun a => isFinite (Accounts.score a) = true) l ->
  let ranked := mapi Accounts.withRank (sort Accounts.byAccountScore l) in
  Permutation (map Accounts.scored ranked) l
  /\ map Accounts.rank ranked = seq 1 (length l)
  /\ StronglySorted accountScoreGe ranked.
Proof.
  intros F ranked. unfold ranked, mapi.
  split; [rewrite withRank_scored; apply sort_perm|].
  split; [rewrite withRank_ranks, sort_length; reflexivity|].
  apply (StronglySorted_map Accounts.scored
           (fun a b => toQ (Accounts.score b) <= toQ (Accounts.score a))).
  rewrite withRank_scored.
  apply (sort_descending Accounts.score). exact F.
Qed.

End AccountFacts.

Lemma filter_partition {A : Type} (f : A -> bool) (l : list A) :
  Permutation (filter (fun a => negb (f a)) l ++ filter f l) l.
Proof.
  induction l as [|a l IH]; simpl; [reflexivity|].
  destruct (f a); simpl.
  - rewrite <- Permutation_middle. now constructor.
  - now constructor.
Qed.

Lemma withRank_positive i l :
  Forall (fun a => (0 < Accounts.rank a)%nat) (mapiFrom Accounts.withRank i l).
Proof.
  revert i. induction l as [|a l IH]; intros i; simpl; constructor; [simpl; lia | apply IH].
Qed.

Lemma Forall_scored (P : Accounts.ScoredAccount -> Prop) (l : list Accounts.RankedAccount) :
  Forall P (map Accounts.scored l) -> Forall (fun a => P (Accounts.scored a)) l.
Proof. now rewrite Forall_map. Qed.

(** X1: [rankAccounts] without the filtered accounts returns exactly the
    accounts that the scorer did not filter, each once, in descending
    order of their scores, with the ranks 1, 2, ... in that order. *)
Theorem rankAccounts_ranking (rt : Runtime) (params : Scoring.ScoringParams)
    (accounts : list Accounts.RankableAccount) :
  let ranked := Accounts.rankAccounts rt params accounts false in
  Permutation (map Accounts.scored ranked)
    (filter validAccount (map (Accounts.scoreAccount rt params) accounts))
  /\ map Accounts.rank ranked = seq 1 (length ranked)
  /\ StronglySorted accountScoreGe ranked
  /\ Forall (fun a => Accounts.filtered (Accounts.scored a) = false) ranked.
Proof.
  intros ranked. unfold ranked, Accounts.rankAccounts. cbn [andb].
  set (valid := filter _ (map (Accounts.scoreAccount rt params) accounts)).
  assert (F : Forall (fun a => isFinite (Accounts.score a) = true) valid).
  { unfold valid. apply Forall_filter'. apply scoreAccount_finite. }
  destruct (ranked_spec valid F) as (P & R & S).
  repeat match goal with |- _ /\ _ => split end.
  - exact P.
  - rewrite R. unfold mapi. now rewrite mapiFrom_length, sort_length.
  - exact S.
  - apply (Forall_scored (fun a => Accounts.filtered a = false)).
    eapply Permutation_Forall; [symmetry; exact P|].
    unfold valid. apply Forall_forall. intros a Ha.
    apply filter_In in Ha. destruct Ha as (_ & Ha).
    now apply negb_true_iff in Ha.
Qed.

(** X2: with [includeFiltered], [rankAccounts] returns every account once:
    the ranked accounts first, then the filtered ones; an account has the
    rank 0 exactly when the scorer filtered it. *)
Theorem rankAccounts_includeFiltered (rt : Runtime) (params : Scoring.ScoringParams)
    (accounts : list Accounts.RankableAccount) :
  let all := Accounts.rankAccounts rt params accounts true in
  Permutation (map Accounts.scored all) (map (Accounts.scoreAccount rt params) accounts)
  /\ length all = length accounts
  /\ Forall (fun a => Accounts.rank a = 0%nat
                      <-> Accounts.filtered (Accounts.scored a) = true) all
  /\ all = Accounts.rankAccounts rt params accounts false
           ++ map Accounts.unranked
                (filter Accounts.filtered (map (Accounts.scoreAccount rt params) accounts)).
Proof.
  intros all.
  set (allScored := map (Accounts.scoreAccount rt params) accounts).
  set (valid := filter validAccount allScored).
  assert (E : all = mapi Accounts.withRank (sort Accounts.byAccountScore valid)
                    ++ map Accounts.unranked (filter Accounts.filtered allScored)).
  { unfold all, Accounts.rankAccounts. cbn [andb]. fold allScored.
    change (filter (fun a => negb (Accounts.filtered a)) allScored) with valid.
    change (filter (fun a => Accounts.filtered a) allScored)
      with (filter Accounts.filtered allScored).
    destruct (filter Accounts.filtered allScored); simpl;
      [now rewrite app_nil_r | reflexivity]. }
  assert (F : Forall (fun a => isFinite (Accounts.score a) = true) valid).
  { unfold valid. apply Forall_filter'. apply scoreAccount_finite. }
  destruct (ranked_spec valid F) as (P & R & S).
  assert (Pall : Permutation (map Accounts.scored all) allScored).
  { rewrite E, map_app, P, map_map. cbn [Accounts.unranked Accounts.scored].
    rewrite map_id. apply (filter_partition Accounts.filtered). }
  repeat match goal with |- _ /\ _ => split end.
  - exact Pall.
  - rewrite <- (length_map Accounts.scored), (Permutation_length Pall).
    unfold allScored. apply length_map.
  - rewrite E. apply Forall_app. split.
    + pose proof (withRank_positive 0 (sort Accounts.byAccountScore valid)) as Pos.
      assert (V : Forall (fun a => Accounts.filtered (Accounts.scored a) = false)
                    (mapi Accounts.withRank (sort Accounts.byAccountScore valid))).
      { apply (Forall_scored (fun a => Accounts.filtered a = false)).
        eapply Permutation_Forall; [symmetry; exact P|].
        unfold valid. apply Forall_forall. intros a Ha.
        apply filter_In in Ha. destruct Ha as (_ & Ha).
        now apply negb_true_iff in Ha. }
      unfold mapi in *. rewrite Forall_forall in *. intros a Ha.
      specialize (Pos a Ha). specialize (V a Ha). rewrite V. split; [lia | discriminate].
    + apply Forall_map, Forall_forall. intros a Ha.
      apply filter_In in Ha. destruct Ha as (_ & Ha). simpl. now split.
  - exact E.
Qed.

Lemma sliceTo_nonneg {A : Type} (stop : Z) (l : list A) :
  (0 <= stop)%Z -> sliceTo stop l = firstn (Z.to_nat stop) l.
Proof.
  intros H. unfold sliceTo.
  destruct (stop <? 0)%Z eqn:E; [apply Z.ltb_lt in E; lia | reflexivity].
Qed.

(** X3: for a count [topN] that is not negative, [selectAndRankAccounts]
    returns at most [topN + 3] accounts, in descending order of their
    scores and ranked 1, 2, ...; each of the first three custom accounts is
    among them, filtered or not; and an account that is not custom is a
    system account that the scorer did not filter and whose lower-cased
    address is not the one of any of these custom accounts. *)
Theorem selectAndRankAccounts_spec (rt : Runtime) (params : Scoring.ScoringParams)
    (systemAccounts customAccounts : list Accounts.RankableAccount) (topN : Z) :
  (0 <= topN)%Z ->
  let result :=
    Accounts.selectAndRankAccounts rt params systemAccounts customAccounts topN in
  (length result <= Z.to_nat topN + 3)%nat
  /\ map Accounts.rank result = seq 1 (length result)
  /\ StronglySorted accountScoreGe result
  /\ (forall c, In c (firstn 3 customAccounts) ->
        In (Accounts.scoreAs rt params true c) (map Accounts.scored result))
  /\ (forall a, In a result -> Accounts.sIsCustom (Accounts.scored a) = false ->
        Accounts.filtered (Accounts.scored a) = false
        /\ In (Accounts.scored a) (map (Accounts.scoreAs rt params false) systemAccounts)
        /\ forall c, In c (firstn 3 customAccounts) ->
             toLowerCase (Accounts.sAddress (Accounts.scored a))
             <> toLowerCase (Accounts.address c)).
Proof.
  intros HN result. unfold result, Accounts.selectAndRankAccounts.
  rewrite (sliceTo_nonneg topN) by exact HN.
  change (sliceTo 3 customAccounts) with (firstn 3 customAccounts).
  set (scoredSystem := map (Accounts.scoreAs rt params false) systemAccounts).
  set (validSystem := sort Accounts.byAccountScore (filter _ scoredSystem)).
  set (topSystem := firstn (Z.to_nat topN) validSystem).
  set (scoredCustom := map (Accounts.scoreAs rt params true) (firstn 3 customAccounts)).
  set (customAddresses := map _ scoredCustom).
  set (keep := fun account : Accounts.ScoredAccount =>
                 if Accounts.sIsCustom account then true
                 else negb (Accounts.isCustomAddress customAddresses account)).
  set (deduped := filter keep (topSystem ++ scoredCustom)).
  assert (Fsys : Forall (fun a => isFinite (Accounts.score a) = true) scoredSystem)
    by apply scoreAs_finite.
  assert (Fcus : Forall (fun a => isFinite (Accounts.score a) = true) scoredCustom)
    by apply scoreAs_finite.
  assert (Ftop : Forall (fun a => isFinite (Accounts.score a) = true) topSystem).
  { unfold topSystem, validSystem. apply Forall_take, sort_Forall, Forall_filter', Fsys. }
  assert (Fd : Forall (fun a => isFinite (Accounts.score a) = true) deduped).
  { unfold deduped. apply Forall_filter', Forall_app. now split. }
  destruct (ranked_spec deduped Fd) as (P & R & S).
  assert (Len : length (mapi Accounts.withRank (sort Accounts.byAccountScore deduped))
                = length deduped).
  { unfold mapi. now rewrite mapiFrom_length, sort_length. }
  repeat match goal with |- _ /\ _ => split end.
  - rewrite Len. unfold deduped.
    pose proof (filter_length_le keep (topSystem ++ scoredCustom)) as L.
    rewrite length_app in L.
    assert (L1 : (length topSystem <= Z.to_nat topN)%nat)
      by (unfold topSystem; apply firstn_le_length).
    assert (L2 : (length scoredCustom <= 3)%nat)
      by (unfold scoredCustom; rewrite length_map; apply firstn_le_length).
    lia.
  - now rewrite Len.
  - exact S.
  - intros c Hc. eapply Permutation_in; [symmetry; exact P|].
    unfold deduped. apply filter_In. split; [|reflexivity].
    apply in_or_app. right. unfold scoredCustom. now apply in_map.
  - intros a Ha Hcustom.
    assert (Hd : In (Accounts.scored a) deduped).
    { eapply Permutation_in; [exact P|]. now apply in_map. }
    unfold deduped in Hd. apply filter_In in Hd. destruct Hd as (Hin & Hkeep).
    unfold keep in Hkeep. rewrite Hcustom in Hkeep. apply negb_true_iff in Hkeep.
    apply in_app_or in Hin. destruct Hin as [Hin | Hin].
    + unfold topSystem, validSystem in Hin. apply In_take in Hin.
      apply sort_In in Hin. apply filter_In in Hin. destruct Hin as (Hsys & Hvalid).
      apply negb_true_iff in Hvalid.
      repeat match goal with |- _ /\ _ => split end; [exact Hvalid | exact Hsys |].
      intros c Hc E.
      unfold Accounts.isCustomAddress in Hkeep.
      assert (X : existsb (String.eqb (toLowerCase (Accounts.sAddress (Accounts.scored a))))
                    customAddresses = true).
      { apply existsb_exists. exists (toLowerCase (Accounts.address c)). split.
        - unfold customAddresses, scoredCustom. rewrite map_map. cbn [Accounts.scoreAs
            Accounts.sAddress].
          apply (in_map (fun x => toLowerCase (Accounts.address x))). exact Hc.
        - apply String.eqb_eq. exact E. }
      congruence.
    + unfold scoredCustom in Hin. apply in_map_iff in Hin.
      destruct Hin as (c & Ec & _). rewrite <- Ec in Hcustom. discriminate Hcustom.
Qed.

Lemma selectAndRankAccounts_spec_witness :
  (length (Accounts.selectAndRankAccounts exampleRuntime Scoring.DEFAULT_SCORING_PARAMS
             systemPair customOne 10) <= Z.to_nat 10 + 3)%nat.
Proof.
  exact (proj1 (selectAndRankAccounts_spec exampleRuntime Scoring.DEFAULT_SCORING_PARAMS
                  systemPair customOne 10 ltac:(lia))).
Defined.

(* ================================================================== *)
(** ** The scoring module: [mapToAccountStats] *)
(* ================================================================== *)

Lemma round_bounds (n : nat) (w : Q) :
  0 <= w <= 1 ->
  (0 <= Qfloor (inject_Z (Z.of_nat n) * w + 0.5) <= Z.of_nat n)%Z.
Proof.
  intros (W0 & W1).
  assert (N0 : 0 <= inject_Z (Z.of_nat n)).
  { change 0 with (inject_Z 0). rewrite <- Zle_Qle. lia. }
  set (x := inject_Z (Z.of_nat n) * w + 0.5).
  assert (X0 : 0 <= x) by (unfold x; nra).
  assert (X1 : x < inject_Z (Z.of_nat n + 1)).
  { rewrite inject_Z_plus. unfold x. change (inject_Z 1) with 1. nra. }
  split.
  - change 0%Z with (Qfloor 0). now apply Qfloor_resp_le.
  - pose proof (Qfloor_le x) as F.
    assert (L : inject_Z (Qfloor x) < inject_Z (Z.of_nat n + 1)) by lra.
    rewrite <- Zlt_Qlt in L. lia.
Qed.

(** X4: when an entry carries no counts of wins and losses (or zeros),
    [mapToAccountStats] estimates them from the number of trades and the
    win rate (50% by default).  For a whole number of trades and a win
    rate between 0 and 1 the estimates are whole numbers that are not
    negative and add up to the number of trades. *)
Theorem mapToAccountStats_estimate (entry : StatsSource.StatsEntry) (n : nat) :
  (forall x, coalesce (StatsSource.numWins entry) (StatsSource.num_wins entry) = Some x ->
             x = 0%num) ->
  (forall x, coalesce (StatsSource.numLosses entry) (StatsSource.num_losses entry) = Some x ->
             x = 0%num) ->
  (forall w, coalesce (StatsSource.winRate entry) (StatsSource.win_rate entry) = Some w ->
             within 0 1 w) ->
  Scoring.numTrades (mapToAccountStats entry) = of_nat n ->
  exists wins losses : nat,
    Scoring.numWins (mapToAccountStats entry) = of_nat wins
    /\ isNum (Scoring.numLosses (mapToAccountStats entry)) (inject_Z (Z.of_nat losses))
    /\ (wins + losses = n)%nat.
Proof.
  intros Hw Hl Hr Hn. unfold mapToAccountStats in *.
  cbn [Scoring.numTrades Scoring.numWins Scoring.numLosses] in *.
  rewrite Hn.
  assert (W : coalesce (StatsSource.numWins entry) (StatsSource.num_wins entry) ?? 0%num
              = 0%num).
  { destruct (coalesce (StatsSource.numWins entry) _) as [x|] eqn:E;
      [now apply Hw | reflexivity]. }
  assert (L : coalesce (StatsSource.numLosses entry) (StatsSource.num_losses entry) ?? 0%num
              = 0%num).
  { destruct (coalesce (StatsSource.numLosses entry) _) as [x|] eqn:E;
      [now apply Hl | reflexivity]. }
  rewrite W, L. change (0 === 0)%num with true. cbn [andb].
  destruct (of_nat n >? 0)%num eqn:G.
  - assert (R : exists w, coalesce (StatsSource.winRate entry) (StatsSource.win_rate entry)
                          ?? Fin 0.5 = Fin w /\ 0 <= w <= 1).
    { destruct (coalesce (StatsSource.winRate entry) _) as [x|] eqn:E.
      - specialize (Hr x eq_refl). destruct x as [| | |w]; try contradiction.
        exists w. now split.
      - exists 0.5. split; [reflexivity | lra]. }
    destruct R as (w & -> & Wb).
    destruct (round_bounds n w Wb) as (F0 & F1).
    set (f := Qfloor (inject_Z (Z.of_nat n) * w + 0.5)) in *.
    exists (Z.to_nat f), (n - Z.to_nat f)%nat.
    unfold of_nat. rewrite mul_Fin. cbn [JS.round]. fold f.
    rewrite Z2Nat.id by exact F0.
    repeat match goal with |- _ /\ _ => split end.
    + reflexivity.
    + rewrite sub_Fin. simpl isNum.
      rewrite Nat2Z.inj_sub, Z2Nat.id by lia.
      unfold Z.sub. rewrite inject_Z_plus, inject_Z_opp. reflexivity.
    + lia.
  - exists 0%nat, 0%nat. apply gt_Fin_false in G.
    assert (N : n = 0%nat).
    { change 0 with (inject_Z 0) in G. rewrite <- Zle_Qle in G. lia. }
    subst n. repeat split; reflexivity.
Qed.

Lemma mapToAccountStats_estimate_witness :
  exists wins losses : nat,
    Scoring.numWins (mapToAccountStats tenOrders) = of_nat wins
    /\ isNum (Scoring.numLosses (mapToAccountStats tenOrders)) (inject_Z (Z.of_nat losses))
    /\ (wins + losses = 10)%nat.
Proof.
  apply (mapToAccountStats_estimate tenOrders 10).
  - intros x H. discriminate H.
  - intros x H. discriminate H.
  - intros w H. injection H as <-. simpl. lra.
  - reflexivity.
Defined.

(* ================================================================== *)
(** ** The scoring module: ranges of the components *)
(* ================================================================== *)



Lemma clamp01_range (z : num) : nanOrWithin 0 1 (JS.min 1 (JS.max 0 z)).
Proof.
  destruct z as [| | |q]; simpl; try exact I; try lra.
  destruct (max_Fin 0 q) as (c & Hc & C0 & _). unfold JS.zero. rewrite Hc.
  destruct (min_Fin 1 c) as (d & Hd & D1 & _ & [-> | ->]); unfold JS.one; rewrite Hd;
    simpl; lra.
Qed.

Lemma nanOrWithin_finite lo hi n :
  nanOrWithin lo hi n -> isFinite n = true -> within lo hi n.
Proof. destruct n; simpl; intros H F; try discriminate F; exact H. Qed.

(** X6: the normalized PnL is 0 for a realized PnL that is zero or
    negative, and otherwise a number between 0 and 1 or NaN, whatever the
    realized PnL and the reference; it is a number whenever the realized
    PnL is not NaN and the logarithm of the reference is finite and not
    zero. *)
Theorem computeNormalizedPnl_range (rt : Runtime) (pnl reference : num) :
  nanOrWithin 0 1 (Scoring.computeNormalizedPnl rt pnl reference)
  /\ ((pnl <=? 0)%num = true -> Scoring.computeNormalizedPnl rt pnl reference = 0%num)
  /\ (isNaN pnl = false ->
      isFinite (JS.log10 rt reference) = true ->
      is_zero (JS.log10 rt reference) = false ->
      within 0 1 (Scoring.computeNormalizedPnl rt pnl reference)).
Proof.
  assert (R : nanOrWithin 0 1 (Scoring.computeNormalizedPnl rt pnl reference)).
  { unfold Scoring.computeNormalizedPnl.
    destruct (pnl <=? 0)%num; [simpl; lra | apply clamp01_range]. }
  split; [exact R|]. split.
  - intros L. unfold Scoring.computeNormalizedPnl. now rewrite L.
  - intros Hn Hf Hz. apply nanOrWithin_finite; [exact R|].
    now apply computeNormalizedPnl_finite.
Qed.

(** The argument of the exponential in [computeTradeFreqScore] is never
    positive. *)
Lemma gaussian_argument (d s : num) :
  let a := (JS.neg (d * d) / (Fin 2 * s * s))%num in
  a = NaN \/ a = NInf \/ exists q, a = Fin q /\ q <= 0.
Proof.
  cbv zeta. destruct d as [| | |x].
  - left. reflexivity.
  - destruct s as [| | |y]; try (left; reflexivity).
    right. left. rewrite !mul_Fin.
    change (JS.neg (PInf * PInf)%num) with NInf.
    unfold JS.div. rewrite negative_Fin_nonneg by nra. reflexivity.
  - destruct s as [| | |y]; try (left; reflexivity).
    right. left. rewrite !mul_Fin.
    change (JS.neg (NInf * NInf)%num) with NInf.
    unfold JS.div. rewrite negative_Fin_nonneg by nra. reflexivity.
  - rewrite mul_Fin, neg_Fin.
    destruct s as [| | |y]; try (left; reflexivity).
    + right. right. exists 0. split; [reflexivity | lra].
    + right. right. exists 0. split; [reflexivity | lra].
    + rewrite !mul_Fin. unfold JS.div.
      destruct (Qeq_bool (2 * y * y) 0) eqn:E.
      * destruct (Qeq_bool (- (x * x)) 0) eqn:E'; [left; reflexivity|].
        right. left. apply Qeq_bool_false_iff in E'.
        assert (L : (Fin (- (x * x)) <? 0)%num = true) by (apply lt_Fin; nra).
        unfold negative. now rewrite L.
      * right. right. eexists. split; [reflexivity|].
        apply Qeq_bool_false_iff in E.
        assert (P : 0 < 2 * y * y) by nra.
        assert (N : - (x * x) <= 0) by nra.
        unfold Qdiv.
        assert (I : 0 < / (2 * y * y)) by now apply Qinv_lt_0_compat.
        nra.
Qed.

Lemma gaussian_range (rt : Runtime) (d s : num) :
  unitExp rt ->
  nanOrWithin 0 1 (JS.exp rt (JS.neg (d * d) / (Fin 2 * s * s))%num).
Proof.
  intros U. destruct (gaussian_argument d s) as [-> | [-> | (q & -> & Hq)]]; simpl.
  - exact I.
  - lra.
  - now apply U.
Qed.

Lemma scaled_range (g : num) (k : Q) :
  nanOrWithin 0 1 g -> 0 <= k -> nanOrWithin 0 k (g * Fin k)%num.
Proof.
  destruct g as [| | |q]; simpl; try contradiction; try exact (fun _ _ => I).
  intros. nra.
Qed.

Lemma nanOrWithin_weaken lo hi hi' n :
  nanOrWithin lo hi n -> hi <= hi' -> nanOrWithin lo hi' n.
Proof. destruct n; simpl; try tauto. intros. lra. Qed.


Lemma exampleRuntime_unitExp : unitExp exampleRuntime.
Proof.
  intros q Hq. simpl. unfold expApprox.
  assert (S : 0 <= q * q) by nra.
  assert (S2 : 0 <= q * q / 2) by (apply Qle_shift_div_l; lra).
  destruct (Qlt_le_dec q 0).
  - split.
    + apply Qle_shift_div_l; [lra|]. rewrite Qmult_0_l. lra.
    + apply Qle_shift_div_r; lra.
  - assert (E : q == 0) by lra. rewrite E. split; unfold Qle; simpl; lia.
Qed.


(* ================================================================== *)
(** ** The scoring module: the smooth-PnL score *)
(* ================================================================== *)

Lemma Fin_inj (a b : Q) : Fin a = Fin b -> a = b.
Proof. intros H. now inversion H. Qed.

Lemma fold_max_abs (x : list num) (a : Q) :
  Forall (fun v => isFinite v = true) x ->
  exists M, fold_left JS.max (map JS.abs x) (Fin a) = Fin M
            /\ a <= M /\ Forall (fun v => Qabs (toQ v) <= M) x.
Proof.
  intros F. revert a. induction F as [|v x Hv F IH]; intros a; simpl.
  - exists a. split; [reflexivity|]. split; [lra | constructor].
  - apply isFinite_inv in Hv. destruct Hv as (q & ->). cbn [JS.abs].
    destruct (max_Fin a (Qabs q)) as (c & -> & C1 & C2 & _).
    destruct (IH c) as (M & E & HM & FM).
    exists M. split; [exact E|]. split; [lra|].
    constructor; [simpl; lra | exact FM].
Qed.

Lemma maxOfList_abs (v : num) (x : list num) :
  Forall (fun v => isFinite v = true) (v :: x) ->
  exists M, Scoring.maxOfList (map JS.abs (v :: x)) = Fin M
            /\ 0 <= M /\ Forall (fun v => Qabs (toQ v) <= M) (v :: x).
Proof.
  intros F. inversion F as [|? ? Hv Fx]; subst.
  apply isFinite_inv in Hv. destruct Hv as (q & ->).
  unfold Scoring.maxOfList. cbn [map fold_left JS.abs].
  change (JS.max NInf (Fin (Qabs q))) with (Fin (Qabs q)).
  destruct (fold_max_abs x (Qabs q) Fx) as (M & E & HM & FM).
  pose proof (Qabs_nonneg q).
  exists M. split; [exact E|]. split; [lra|].
  constructor; [simpl; lra | exact FM].
Qed.

Lemma upCount_le (x : list num) : (Scoring.upCount x <= pred (length x))%nat.
Proof.
  induction x as [|a [|b rest] IH]; simpl in *; try lia.
  destruct (b >? a)%num; lia.
Qed.

Lemma last_finite (x : list num) (d : num) :
  Forall (fun v => isFinite v = true) x -> x <> [] ->
  In (List.last x d) x.
Proof.
  intros _ N. induction x as [|a [|b rest] IH]; [contradiction | now left |].
  right. apply IH. discriminate.
Qed.

Section SmoothPnlRange.
Variable rt : Runtime.
Hypothesis laws : RuntimeLaws rt.

(** The fields of the result on a series of two finite values or more. *)
Lemma smoothPnl_ranges base v1 rest :
  let values := base :: v1 :: rest in
  Forall (fun v => isFinite v = true) values ->
  let x := map (fun v => (v - base)%num) values in
  let st := fold_left Scoring.drawdownStep x
              {| Scoring.peak := hd 0%num x; Scoring.mdd := 0; Scoring.ddSqSum := 0 |} in
  let ulcer := JS.sqrt rt (Scoring.ddSqSum st / of_nat (length x))%num in
  let upFrac := (of_nat (Scoring.upCount x) / (of_nat (length x) - 1))%num in
  let last := List.last x 0%num in
  let maxAbs := Scoring.maxOfList (map JS.abs x) in
  let R := if (last >? 0)%num && (maxAbs >? 0)%num then (last / maxAbs)%num else 0%num in
  let score := ((JS.max 0 R * upFrac) / (1 + Scoring.mdd st + ulcer))%num in
  within 0 1 score /\ finNonNeg (Scoring.mdd st) /\ finNonNeg ulcer /\ within 0 1 upFrac.
Proof.
  intros values F x st ulcer upFrac last maxAbs R score.
  assert (Fb : isFinite base = true) by now inversion F.
  assert (Fx : Forall (fun v => isFinite v = true) x) by now apply shifted_finite.
  assert (I : ddInv st).
  { apply fold_drawdown_inv; [exact Fx|].
    destruct (isFinite_inv _ Fb) as (b & ->).
    exists (b + - b), 0, 0. simpl. repeat split; lra. }
  destruct I as (p & m & s & _ & Hm & Hs & Hm0 & Hs0).
  assert (L : (2 <= length x)%nat) by (unfold x, values; simpl; lia).
  destruct (of_nat_minus_one _ L) as (d & Hd & Hd0).
  assert (P := of_nat_pos (length x) ltac:(lia)).
  (* the ulcer index *)
  assert (U : exists ul, ulcer = Fin ul /\ 0 <= ul).
  { unfold ulcer. rewrite Hs. unfold of_nat. rewrite div_Fin by lra.
    assert (S0 : 0 <= s / inject_Z (Z.of_nat (length x)))
      by (apply Qle_shift_div_l; lra).
    rewrite sqrt_Fin_nonneg by exact S0. eexists. split; [reflexivity|].
    now apply (sqrtQ_nonneg rt laws). }
  destruct U as (ul & Hul & Hul0).
  (* the fraction of up moves *)
  assert (UF : exists uf, upFrac = Fin uf /\ 0 <= uf <= 1).
  { unfold upFrac. rewrite Hd. unfold of_nat at 1. rewrite div_Fin by lra.
    eexists. split; [reflexivity|].
    assert (P2 : 0 <= inject_Z (Z.of_nat (Scoring.upCount x))).
    { change 0 with (inject_Z 0). rewrite <- Zle_Qle. lia. }
    assert (P3 : inject_Z (Z.of_nat (Scoring.upCount x)) <= d).
    { pose proof (upCount_le x) as C.
      assert (Ed : inject_Z (Z.of_nat (length x)) + - 1 = d)
        by (apply Fin_inj; exact Hd).
      rewrite <- Ed.
      assert (E : inject_Z (Z.of_nat (length x)) + - 1
                  == inject_Z (Z.of_nat (length x) - 1)).
      { rewrite <- (Z.add_opp_r _ 1), inject_Z_plus. reflexivity. }
      assert (Z1 : inject_Z (Z.of_nat (Scoring.upCount x))
                   <= inject_Z (Z.of_nat (length x) - 1))
        by (rewrite <- Zle_Qle; lia).
      lra. }
    split; [apply Qle_shift_div_l; lra | apply Qle_shift_div_r; lra]. }
  destruct UF as (uf & Huf & Huf0).
  (* the return component *)
  assert (HR : exists r, JS.max 0 R = Fin r /\ 0 <= r <= 1).
  { assert (Nx : x <> []) by (unfold x, values; discriminate).
    pose proof (last_finite x 0%num Fx Nx) as Lin. fold last in Lin.
    assert (Fl : isFinite last = true)
      by (rewrite Forall_forall in Fx; now apply Fx).
    destruct (isFinite_inv _ Fl) as (l & Hl).
    assert (MA : exists M, maxAbs = Fin M /\ 0 <= M /\ Qabs l <= M).
    { unfold maxAbs. unfold x, values in *. cbn [map] in *.
      destruct (maxOfList_abs _ _ Fx) as (M & E & M0 & FM).
      exists M. split; [exact E|]. split; [exact M0|].
      rewrite Forall_forall in FM. specialize (FM _ Lin).
      rewrite Hl in FM. exact FM. }
    destruct MA as (M & HM & M0 & HlM).
    unfold R. rewrite Hl, HM.
    destruct ((Fin l >? 0)%num && (Fin M >? 0)%num) eqn:C.
    - apply andb_true_iff in C. destruct C as (C1 & C2).
      apply gt_Fin in C1, C2. rewrite div_Fin by lra.
      assert (B : 0 <= l / M <= 1).
      { pose proof (Qle_Qabs l).
        split; [apply Qle_shift_div_l; lra | apply Qle_shift_div_r; lra]. }
      destruct (max_Fin 0 (l / M)) as (c & Hc & _ & _ & [-> | ->]);
        unfold JS.zero; rewrite Hc; eexists; (split; [reflexivity | lra]).
    - exists 0. split; [reflexivity | lra]. }
  destruct HR as (r & Hr & Hr0).
  repeat match goal with |- _ /\ _ => split end.
  - unfold score. rewrite Hr, Huf, Hm, Hul. unfold JS.one.
    rewrite mul_Fin, !add_Fin, div_Fin by lra. simpl.
    split; [apply Qle_shift_div_l; nra | apply Qle_shift_div_r; nra].
  - rewrite Hm. exact Hm0.
  - rewrite Hul. exact Hul0.
  - rewrite Huf. exact Huf0.
Qed.

End SmoothPnlRange.

Lemma finNonNeg_notNegative (n : num) : finNonNeg n -> notNegative n.
Proof. destruct n; simpl; auto. Qed.

(** X8: whatever the series, the smooth-PnL score and the fraction of up
    moves are numbers between 0 and 1 (for a square root that is not
    negative).  When no value of the series is farther from the first one
    than [Number.MAX_VALUE], so that no shifted value overflows, the
    maximum drawdown and the ulcer index are not NaN and not negative. *)
Theorem computeSmoothPnlScore_range (rt : Runtime) (pnlList : list Scoring.PnlPoint) :
  RuntimeLaws rt ->
  let r := Scoring.computeSmoothPnlScore rt pnlList in
  within 0 1 (Scoring.sp_score r)
  /\ within 0 1 (Scoring.sp_upFraction r)
  /\ (shiftsInRange (Scoring.extractValues rt pnlList) ->
      notNegative (Scoring.sp_maxDrawdown r)
      /\ notNegative (Scoring.sp_ulcerIndex r)).
Proof.
  intros laws r. unfold r, Scoring.computeSmoothPnlScore.
  pose proof (extractValues_finite rt pnlList) as F.
  destruct (Scoring.extractValues rt pnlList) as [|base [|v1 rest]];
    try (simpl; repeat split; lra).
  destruct (smoothPnl_ranges rt laws base v1 rest F) as (S & M & U & UF).
  cbv zeta in *. cbn [Scoring.sp_score Scoring.sp_maxDrawdown Scoring.sp_ulcerIndex
    Scoring.sp_upFraction].
  split; [|split; [exact UF|]].
  - match goal with |- within 0 1 (if isFinite ?s then _ else _) =>
      destruct s; try contradiction; exact S end.
  - intros _. split; now apply finNonNeg_notNegative.
Qed.

Lemma computeSmoothPnlScore_range_witness :
  let r := Scoring.computeSmoothPnlScore exampleRuntime unevenSeries in
  within 0 1 (Scoring.sp_score r)
  /\ notNegative (Scoring.sp_maxDrawdown r)
  /\ notNegative (Scoring.sp_ulcerIndex r).
Proof.
  destruct (computeSmoothPnlScore_range exampleRuntime unevenSeries exampleRuntime_laws)
    as (S & _ & H).
  split; [exact S|]. apply H.
  repeat (constructor; [vm_compute; discriminate|]). constructor.
Defined.

(** The drawdown loop over shifted values that never fall below the
    running peak: no drawdown is recorded. *)
Lemma fold_drawdown_rising (b : Q) (values : list Q) (p m s : Q) :
  StronglySorted Qle values ->
  Forall (fun v => p <= v + - b) values ->
  m == 0 -> s == 0 ->
  exists p' m' s',
    fold_left Scoring.drawdownStep (map (fun v => (Fin v - Fin b)%num) values)
      {| Scoring.peak := Fin p; Scoring.mdd := Fin m; Scoring.ddSqSum := Fin s |}
    = {| Scoring.peak := Fin p'; Scoring.mdd := Fin m'; Scoring.ddSqSum := Fin s' |}
    /\ m' == 0 /\ s' == 0.
Proof.
  intros S. revert p m s. induction S as [|v values S IH Hv]; intros p m s F Hm Hs.
  - exists p, m, s. repeat split; assumption.
  - inversion F as [|? ? Fv Frest]; subst.
    cbn [map fold_left]. rewrite sub_Fin.
    unfold Scoring.drawdownStep at 2.
    cbn [Scoring.peak Scoring.mdd Scoring.ddSqSum]. cbv zeta.
    set (xi := v + - b) in *.
    assert (D : exists p' d,
               (if (Fin xi >? Fin p)%num then Fin xi else Fin p) = Fin p'
               /\ xi <= p' /\ p' == xi
               /\ (if (Fin p' >? 0)%num
                   then (if ((Fin p' - Fin xi) / Fin p' <? 0)%num then 0%num
                         else ((Fin p' - Fin xi) / Fin p')%num)
                   else 0%num) = Fin d /\ d == 0).
    { assert (P : exists p', (if (Fin xi >? Fin p)%num then Fin xi else Fin p) = Fin p'
                             /\ p' == xi).
      { destruct (Fin xi >? Fin p)%num eqn:G.
        - exists xi. split; reflexivity.
        - apply gt_Fin_false in G. exists p. split; [reflexivity | lra]. }
      destruct P as (p' & -> & Ep). exists p'.
      destruct (Fin p' >? 0)%num eqn:G0.
      - apply gt_Fin in G0. rewrite sub_Fin, div_Fin by lra.
        assert (Z : (p' + - xi) / p' == 0).
        { rewrite Ep. field. lra. }
        destruct (Fin _ <? 0)%num eqn:L.
        + apply lt_Fin in L. lra.
        + eexists. repeat split; try reflexivity; lra.
      - exists 0. repeat split; try reflexivity; lra. }
    destruct D as (p' & d & -> & Hp1 & Hp2 & -> & Hd).
    destruct (max_Fin m d) as (c & -> & _ & _ & Hc). rewrite mul_Fin, add_Fin.
    apply IH.
    + eapply Forall_impl; [|exact Hv]. intros a Ha. cbv beta in Ha. unfold xi in *. lra.
    + destruct Hc as [-> | ->]; assumption.
    + rewrite Hs, Hd. lra.
Qed.

Lemma upCount_step (a b : num) (rest : list num) :
  Scoring.upCount (a :: b :: rest)
  = ((if (b >? a)%num then 1 else 0) + Scoring.upCount (b :: rest))%nat.
Proof. reflexivity. Qed.

Lemma last_default {A : Type} (l : list A) (d d' : A) :
  l <> [] -> List.last l d = List.last l d'.
Proof.
  induction l as [|a [|b l] IH]; intros N; [contradiction | reflexivity |].
  change (List.last (b :: l) d = List.last (b :: l) d'). apply IH. discriminate.
Qed.

Lemma last_map_Fin (qs : list Q) (d : num) (q0 : Q) :
  qs <> [] -> List.last (map Fin qs) d = Fin (List.last qs q0).
Proof.
  induction qs as [|a [|b l] IH]; intros N; [contradiction | reflexivity |].
  change (List.last (map Fin (b :: l)) d = Fin (List.last (b :: l) q0)).
  apply IH. discriminate.
Qed.

(** A series that never falls lies between its first and its last value. *)
Lemma sorted_bounds (b : Q) (l : list Q) :
  StronglySorted Qle (b :: l) ->
  Forall (fun v => b <= v /\ v <= List.last (b :: l) b) (b :: l).
Proof.
  revert b. induction l as [|c l IH]; intros b S.
  - repeat constructor; simpl; lra.
  - inversion S as [|? ? S' Hb]; subst.
    specialize (IH c S').
    assert (El : List.last (b :: c :: l) b = List.last (c :: l) c)
      by (apply (last_default (c :: l)); discriminate).
    rewrite El.
    assert (Hc : b <= c) by now inversion Hb.
    constructor.
    + split; [lra|]. inversion IH as [|? ? (H1 & H2) _]; subst. lra.
    + eapply Forall_impl; [|exact IH]. intros v (H1 & H2). cbv beta. split; lra.
Qed.

(** The largest absolute value of numbers between 0 and [B]. *)
Lemma fold_max_abs_below (qs : list Q) (a B : Q) :
  Forall (fun q => 0 <= q <= B) qs -> a <= B ->
  exists M, fold_left JS.max (map JS.abs (map Fin qs)) (Fin a) = Fin M
            /\ a <= M <= B /\ Forall (fun q => q <= M) qs.
Proof.
  intros F. revert a. induction F as [|q qs Hq F IH]; intros a Ha; cbn [map fold_left].
  - exists a. split; [reflexivity|]. split; [lra | constructor].
  - cbn [JS.abs].
    destruct (max_Fin a (Qabs q)) as (c & -> & C1 & C2 & C3).
    assert (Eq : Qabs q == q) by (apply Qabs_pos; lra).
    destruct (IH c) as (M & -> & HM & FM).
    { destruct C3 as [-> | ->]; lra. }
    exists M. split; [reflexivity|]. split; [lra|].
    constructor; [lra | exact FM].
Qed.

Lemma upCount_flat (qs : list Q) (c : Q) :
  Forall (fun q => q == c) qs -> Scoring.upCount (map Fin qs) = 0%nat.
Proof.
  induction 1 as [|a l Ha F IH]; [reflexivity|].
  destruct l as [|b l]; [reflexivity|].
  change (map Fin (a :: b :: l)) with (Fin a :: Fin b :: map Fin l).
  rewrite upCount_step.
  change (Fin b :: map Fin l) with (map Fin (b :: l)). rewrite IH.
  inversion F as [|? ? Hb _]; subst.
  assert (G : (Fin b >? Fin a)%num = false) by (apply gt_Fin_false; lra).
  now rewrite G.
Qed.

Lemma last_mapped {A B : Type} (f : A -> B) (l : list A) (d : A) :
  List.last (map f l) (f d) = f (List.last l d).
Proof.
  induction l as [|a [|b l] IH]; try reflexivity.
  change (List.last (map f (b :: l)) (f d) = f (List.last (b :: l) d)). exact IH.
Qed.

(** The fields of the result on a series of two values or more that never
    falls. *)
Lemma smoothPnl_rising (rt : Runtime) (b : Q) (rest : list Q) :
  RuntimeLaws rt -> sqrtOfZero rt ->
  (1 <= length rest)%nat ->
  StronglySorted Qle (b :: rest) ->
  let x := map (fun v => (v - Fin b)%num) (map Fin (b :: rest)) in
  let st := fold_left Scoring.drawdownStep x
              {| Scoring.peak := hd 0%num x; Scoring.mdd := 0; Scoring.ddSqSum := 0 |} in
  let ulcer := JS.sqrt rt (Scoring.ddSqSum st / of_nat (length x))%num in
  let upFrac := (of_nat (Scoring.upCount x) / (of_nat (length x) - 1))%num in
  let last := List.last x 0%num in
  let maxAbs := Scoring.maxOfList (map JS.abs x) in
  let R := if (last >? 0)%num && (maxAbs >? 0)%num then (last / maxAbs)%num else 0%num in
  let score := ((JS.max 0 R * upFrac) / (1 + Scoring.mdd st + ulcer))%num in
  isNum (Scoring.mdd st) 0 /\ isNum ulcer 0
  /\ exists u, isNum upFrac u /\ isNum (if isFinite score then score else 0%num) u.
Proof.
  intros laws Z L Srt x.
  set (values := b :: rest) in *.
  set (qs := map (fun v => v + - b) values).
  assert (Ex : x = map Fin qs) by (unfold x, qs; now rewrite !map_map).
  clearbody x. subst x.
  intros st ulcer upFrac last maxAbs R score.
  (* the shifted values lie between 0 and the last of them *)
  pose proof (sorted_bounds b rest Srt) as Bd. fold values in Bd.
  set (vl := List.last values b) in *.
  assert (Nq : qs <> []) by (unfold qs, values; discriminate).
  assert (Lq : List.last qs 0 == vl + - b).
  { unfold qs. rewrite (last_default _ 0 (b + - b)) by (unfold values; discriminate).
    change (b + - b) with ((fun v => v + - b) b). rewrite last_mapped. reflexivity. }
  assert (Fq : Forall (fun q => 0 <= q <= vl + - b) qs).
  { unfold qs. apply Forall_map. eapply Forall_impl; [|exact Bd].
    intros v (H1 & H2). cbv beta. lra. }
  assert (Ll : last = Fin (List.last qs 0)) by now apply last_map_Fin.
  assert (Len : length (map Fin qs) = length values)
    by (unfold qs; now rewrite !length_map).
  assert (L2 : (2 <= length values)%nat) by (unfold values; simpl; lia).
  (* the drawdown loop *)
  assert (Fr : Forall (fun v => b + - b <= v + - b) values).
  { eapply Forall_impl; [|exact Bd]. intros v (H1 & _). cbv beta. lra. }
  destruct (fold_drawdown_rising b values (b + - b) 0 0 Srt Fr)
    as (p' & m' & s' & Hf & Hm & Hs); try reflexivity.
  assert (Ey : map (fun v => (Fin v - Fin b)%num) values = map Fin qs)
    by (unfold qs; now rewrite map_map).
  rewrite Ey in Hf.
  assert (Est : st = {| Scoring.peak := Fin p'; Scoring.mdd := Fin m';
                        Scoring.ddSqSum := Fin s' |}).
  { unfold st. rewrite <- Hf. reflexivity. }
  assert (Hmdd : Scoring.mdd st = Fin m') by now rewrite Est.
  assert (Hsq : Scoring.ddSqSum st = Fin s') by now rewrite Est.
  (* the ulcer index *)
  assert (P := of_nat_pos (length values) ltac:(lia)).
  assert (U : exists ul, ulcer = Fin ul /\ ul == 0).
  { unfold ulcer. rewrite Hsq, Len. unfold of_nat. rewrite div_Fin by lra.
    assert (S0 : s' / inject_Z (Z.of_nat (length values)) == 0)
      by (rewrite Hs; field; lra).
    rewrite sqrt_Fin_nonneg by lra. eexists. split; [reflexivity|]. now apply Z. }
  destruct U as (ul & Hul & Hul0).
  (* the fraction of up moves *)
  destruct (of_nat_minus_one _ L2) as (d & Hd & Hd0).
  assert (UF : upFrac = Fin (inject_Z (Z.of_nat (Scoring.upCount (map Fin qs))) / d)).
  { unfold upFrac. rewrite Len, Hd. unfold of_nat. rewrite div_Fin by lra. reflexivity. }
  (* the largest absolute value is the last one *)
  assert (MA : exists M, maxAbs = Fin M /\ M == vl + - b).
  { unfold maxAbs, Scoring.maxOfList.
    destruct qs as [|q0 qs'] eqn:Eq; [contradiction|].
    cbn [map fold_left JS.abs].
    change (JS.max NInf (Fin (Qabs q0))) with (Fin (Qabs q0)).
    inversion Fq as [|? ? Hq0 Fq']; subst.
    assert (E0 : Qabs q0 == q0) by (apply Qabs_pos; lra).
    destruct (fold_max_abs_below qs' (Qabs q0) (vl + - b) Fq') as (M & HM & HB & FM);
      [lra|].
    exists M. split; [exact HM|].
    assert (Hl : List.last (q0 :: qs') 0 <= M).
    { destruct qs' as [|q1 qs'']; [simpl; lra|].
      assert (In (List.last (q1 :: qs'') 0) (q1 :: qs'')).
      { clear. revert q1. induction qs'' as [|a l IH]; intros q1; [now left|].
        right. apply IH. }
      rewrite Forall_forall in FM.
      change (List.last (q0 :: q1 :: qs'') 0) with (List.last (q1 :: qs'') 0).
      now apply FM. }
    lra. }
  destruct MA as (M & HM & HM0).
  split; [rewrite Hmdd; exact Hm|]. split; [rewrite Hul; exact Hul0|].
  exists (inject_Z (Z.of_nat (Scoring.upCount (map Fin qs))) / d).
  split; [rewrite UF; simpl; reflexivity|].
  unfold score, R. rewrite Ll, HM, Hmdd, Hul, UF.
  set (uf := inject_Z (Z.of_nat (Scoring.upCount (map Fin qs))) / d).
  set (l := List.last qs 0) in *.
  unfold JS.one, JS.zero.
  rewrite !add_Fin.
  assert (Dn : ~ 1 + m' + ul == 0) by (rewrite Hm, Hul0; lra).
  destruct (Qlt_le_dec 0 l) as [Pos | Flat].
  - (* the series ends above its start *)
    assert (G1 : (Fin l >? Fin 0)%num = true) by now apply gt_Fin.
    assert (G2 : (Fin M >? Fin 0)%num = true) by (apply gt_Fin; lra).
    rewrite G1, G2. cbn [andb]. rewrite div_Fin by lra.
    destruct (max_Fin 0 (l / M)) as (c & -> & C0 & C1 & C2).
    assert (Ec : c == 1).
    { assert (E1 : l / M == 1) by (rewrite HM0, <- Lq; field; lra).
      destruct C2 as [-> | ->]; lra. }
    rewrite mul_Fin, div_Fin by exact Dn. simpl.
    rewrite Ec, Hm, Hul0. field.
  - (* the series is flat *)
    assert (G1 : (Fin l >? Fin 0)%num = false) by now apply gt_Fin_false.
    rewrite G1. cbn [andb].
    change (JS.max (Fin 0) (Fin 0)) with (Fin 0).
    rewrite mul_Fin, div_Fin by exact Dn. simpl.
    assert (Up : Scoring.upCount (map Fin qs) = 0%nat).
    { apply (upCount_flat qs 0). eapply Forall_impl; [|exact Fq].
      intros q Hq. cbv beta in Hq. lra. }
    unfold uf. rewrite Up. simpl. field. lra.
Qed.

(** X9: a series whose finite values never fall, none of them farther from
    the first than [Number.MAX_VALUE], has a maximum drawdown of 0 and an
    ulcer index of 0, and its score is its fraction of up moves (for a
    square root that is not negative, and 0 at 0). *)
Theorem computeSmoothPnlScore_rising (rt : Runtime) (pnlList : list Scoring.PnlPoint)
    (values : list Q) :
  RuntimeLaws rt -> sqrtOfZero rt ->
  Scoring.extractValues rt pnlList = map Fin values ->
  (2 <= length values)%nat ->
  StronglySorted Qle values ->
  shiftsInRange (map Fin values) ->
  let r := Scoring.computeSmoothPnlScore rt pnlList in
  isNum (Scoring.sp_maxDrawdown r) 0
  /\ isNum (Scoring.sp_ulcerIndex r) 0
  /\ exists u, isNum (Scoring.sp_upFraction r) u /\ isNum (Scoring.sp_score r) u.
Proof.
  intros laws Z E L Srt _ r. unfold r, Scoring.computeSmoothPnlScore. rewrite E.
  destruct values as [|b [|v1 rest]]; simpl in L; try lia.
  exact (smoothPnl_rising rt b (v1 :: rest) laws Z ltac:(simpl; lia) Srt).
Qed.

Lemma computeSmoothPnlScore_rising_witness :
  let r := Scoring.computeSmoothPnlScore exampleRuntime risingSeries in
  isNum (Scoring.sp_maxDrawdown r) 0
  /\ isNum (Scoring.sp_ulcerIndex r) 0
  /\ exists u, isNum (Scoring.sp_upFraction r) u /\ isNum (Scoring.sp_score r) u.
Proof.
  refine (computeSmoothPnlScore_rising exampleRuntime risingSeries
            [100; 120; 150; 155; 190] exampleRuntime_laws _ eq_refl _ _ _).
  - intros q Hq. unfold Qeq in *. simpl in *.
    assert (N : Qnum q = 0%Z) by lia. rewrite N. reflexivity.
  - simpl. lia.
  - repeat constructor; unfold Qle; simpl; lia.
  - repeat (constructor; [vm_compute; discriminate|]). constructor.
Defined.

(* ================================================================== *)
(** ** The scoring module: the range of the composite score *)
(* ================================================================== *)

Lemma computeAdjustedWinRate_unit (w l : Q) :
  0 <= w -> 0 <= l -> within 0 1 (Scoring.computeAdjustedWinRate (Fin w) (Fin l)).
Proof.
  intros Hw Hl. unfold Scoring.computeAdjustedWinRate. cbv zeta.
  rewrite !add_Fin. unfold JS.one. rewrite add_Fin, div_Fin by lra.
  set (b := (w + 1) / (w + l + 2)).
  assert (B0 : 0 < b) by (unfold b; apply Qlt_shift_div_l; lra).
  assert (B1 : b < 1) by (unfold b; apply Qlt_shift_div_r; lra).
  repeat match goal with |- context [if ?c then _ else _] => destruct c end;
    rewrite ?mul_Fin; simpl; lra.
Qed.

Lemma computeTradeFreqScore_unit (rt : Runtime) (t optimal sigma threshold : num) :
  unitExp rt ->
  nanOrWithin 0 1 (Scoring.computeTradeFreqScore rt t optimal sigma threshold).
Proof.
  intros U. unfold Scoring.computeTradeFreqScore.
  destruct (t <=? 0)%num; [simpl; lra|]. cbv zeta.
  pose proof (gaussian_range rt (t - optimal)%num sigma U) as G.
  set (g := JS.exp rt _) in *.
  repeat match goal with |- context [if ?c then _ else _] => destruct c end;
    try exact G;
    match goal with |- nanOrWithin 0 1 (g * Fin ?k)%num =>
      apply (nanOrWithin_weaken 0 k 1); [apply scaled_range; [exact G | lra] | lra]
    end.
Qed.

Lemma smoothPnlOf_unit (rt : Runtime) (pnlList : option (list Scoring.PnlPoint)) :
  RuntimeLaws rt ->
  within 0 1 (Scoring.sp_score (Scoring.smoothPnlOf rt pnlList)).
Proof.
  intros laws. unfold Scoring.smoothPnlOf.
  destruct pnlList as [l|]; [|simpl; lra].
  destruct (2 <=? length l)%nat; [|simpl; lra].
  unfold Scoring.computeSmoothPnlScore.
  pose proof (extractValues_finite rt l) as F.
  destruct (Scoring.extractValues rt l) as [|base [|v1 rest]]; try (simpl; lra).
  destruct (smoothPnl_ranges rt laws base v1 rest F) as (S & _).
  cbv zeta in *. cbn [Scoring.sp_score].
  match goal with |- within 0 1 (if isFinite ?s then _ else _) =>
    destruct s; try contradiction; exact S end.
Qed.

Lemma weighted_range (k : Q) (n : num) :
  0 <= k -> nanOrWithin 0 1 n -> nanOrWithin 0 k (Fin k * n)%num.
Proof.
  destruct n as [| | |q]; simpl; try contradiction; try exact (fun _ _ => I).
  intros. nra.
Qed.

Lemma within_nanOrWithin lo hi n : within lo hi n -> nanOrWithin lo hi n.
Proof. destruct n; simpl; try contradiction; auto. Qed.

Lemma sum_range (a b : Q) (x y : num) :
  nanOrWithin 0 a x -> nanOrWithin 0 b y -> nanOrWithin 0 (a + b) (x + y)%num.
Proof.
  destruct x as [| | |p], y as [| | |q]; simpl; try contradiction; try tauto.
  intros. lra.
Qed.

Lemma guard_range (hi : Q) (s : num) :
  0 <= hi -> nanOrWithin 0 hi s -> within 0 hi (if isFinite s then s else 0%num).
Proof.
  destruct s as [| | |q]; simpl; try contradiction; intros; lra.
Qed.

(** The composite score lies between 0 and the sum of the weights. *)
Lemma performanceScore_within (rt : Runtime) (stats : Scoring.AccountStats)
    (params : Scoring.ScoringParams) (a b c d : Q) :
  RuntimeLaws rt -> unitExp rt ->
  Scoring.smoothPnlWeight params = Fin a -> Scoring.winRateWeight params = Fin b ->
  Scoring.pnlWeight params = Fin c -> Scoring.tradeFreqWeight params = Fin d ->
  0 <= a -> 0 <= b -> 0 <= c -> 0 <= d ->
  within 0 (a + b + c + d)
    (Scoring.score (Scoring.computePerformanceScore rt stats params)).
Proof.
  intros laws U Ea Eb Ec Ed Ha Hb Hc Hd.
  unfold Scoring.computePerformanceScore.
  destruct (negb (isFinite (Scoring.numTrades stats)) || _) eqn:V1; [simpl; lra|].
  destruct (negb (isFinite (Scoring.numWins stats)) || _) eqn:V2; [simpl; lra|].
  destruct (negb (isFinite (Scoring.numLosses stats)) || _) eqn:V3; [simpl; lra|].
  apply validated in V2, V3.
  destruct V2 as (w & Hw & Hw0), V3 as (l & Hl & Hl0).
  destruct (_ >? _)%num; [simpl; lra|].
  cbv zeta. cbn [Scoring.score]. rewrite Ea, Eb, Ec, Ed, Hw, Hl.
  apply guard_range; [lra|].
  repeat apply sum_range.
  - apply weighted_range; [exact Ha|].
    apply within_nanOrWithin, smoothPnlOf_unit, laws.
  - apply weighted_range; [exact Hb|].
    now apply within_nanOrWithin, computeAdjustedWinRate_unit.
  - apply weighted_range; [exact Hc|].
    unfold Scoring.computeNormalizedPnl.
    destruct (_ <=? 0)%num; [simpl; lra | apply clamp01_range].
  - apply weighted_range; [exact Hd|].
    now apply computeTradeFreqScore_unit.
Qed.

(** X10: with weights that are finite and not negative, the composite
    score is a number between 0 and the sum of the four weights, for all
    statistics and all other parameters: between 0 and 1 for the default
    weights.  A result is marked filtered only for a drawdown above the
    limit: its score is then 0 and its reason [max_drawdown_exceeded]. *)
Theorem computePerformanceScore_range (rt : Runtime) (stats : Scoring.AccountStats)
    (params : Scoring.ScoringParams) (a b c d : Q) :
  RuntimeLaws rt -> unitExp rt ->
  Scoring.smoothPnlWeight params = Fin a -> Scoring.winRateWeight params = Fin b ->
  Scoring.pnlWeight params = Fin c -> Scoring.tradeFreqWeight params = Fin d ->
  0 <= a -> 0 <= b -> 0 <= c -> 0 <= d ->
  let result := Scoring.computePerformanceScore rt stats params in
  within 0 (a + b + c + d) (Scoring.score result)
  /\ (Scoring.filtered result = true ->
      Scoring.score result = 0%num
      /\ Scoring.filterReason result = Some Scoring.max_drawdown_exceeded
      /\ (Scoring.maxDrawdown (Scoring.details result)
            >? Scoring.maxDrawdownLimit params)%num = true).
Proof.
  intros laws U Ea Eb Ec Ed Ha Hb Hc Hd result. split.
  - now apply performanceScore_within.
  - unfold result, Scoring.computePerformanceScore.
    destruct (negb (isFinite (Scoring.numTrades stats)) || _); [discriminate|].
    destruct (negb (isFinite (Scoring.numWins stats)) || _); [discriminate|].
    destruct (negb (isFinite (Scoring.numLosses stats)) || _); [discriminate|].
    destruct (Scoring.sp_maxDrawdown _ >? _)%num eqn:G; [|discriminate].
    intros _. repeat split. exact G.
Qed.

Lemma computePerformanceScore_range_witness :
  let result := Scoring.computePerformanceScore exampleRuntime steadyStats
                  Scoring.DEFAULT_SCORING_PARAMS in
  within 0 (0.45 + 0.30 + 0.15 + 0.10) (Scoring.score result)
  /\ (Scoring.filtered result = true ->
      Scoring.score result = 0%num
      /\ Scoring.filterReason result = Some Scoring.max_drawdown_exceeded
      /\ (Scoring.maxDrawdown (Scoring.details result)
            >? Scoring.maxDrawdownLimit Scoring.DEFAULT_SCORING_PARAMS)%num = true).
Proof.
  apply (computePerformanceScore_range exampleRuntime steadyStats
           Scoring.DEFAULT_SCORING_PARAMS 0.45 0.30 0.15 0.10
           exampleRuntime_laws exampleRuntime_unitExp);
    try reflexivity; lra.
Defined.

(* ================================================================== *)
(** ** The upstream client: retries *)
(* ================================================================== *)

Lemma requestJsonFrom_first upstream attempt remaining payload :
  requestJsonFrom upstream attempt remaining = Returned payload <->
  exists i, (attempt <= i <= attempt + remaining)%nat
            /\ upstream i = Responded payload
            /\ forall j, (attempt <= j < i)%nat -> exists e, upstream j = Failed e.
Proof.
  revert attempt. induction remaining as [|r IH]; intros attempt; simpl.
  - destruct (upstream attempt) eqn:U; split.
    + discriminate.
    + intros (i & Hi & Hu & _). assert (i = attempt) by lia. subst. congruence.
    + intros H. inversion H; subst. exists attempt.
      split; [lia|]. split; [exact U|]. intros j Hj. lia.
    + intros (i & Hi & Hu & _). assert (i = attempt) by lia. subst. congruence.
  - destruct (upstream attempt) eqn:U; split.
    + intros H. apply IH in H. destruct H as (i & Hi & Hu & Hf).
      exists i. split; [lia|]. split; [exact Hu|].
      intros j Hj. destruct (Nat.eq_dec j attempt) as [->|N]; [eauto|].
      apply Hf. lia.
    + intros (i & Hi & Hu & Hf). apply IH. exists i.
      assert (i <> attempt) by (intros ->; congruence).
      split; [lia|]. split; [exact Hu|]. intros j Hj. apply Hf. lia.
    + intros H. inversion H; subst. exists attempt.
      split; [lia|]. split; [exact U|]. intros j Hj. lia.
    + intros (i & Hi & Hu & Hf).
      destruct (Nat.eq_dec i attempt) as [->|N]; [congruence|].
      destruct (Hf attempt ltac:(lia)) as (e & He). congruence.
Qed.

Lemma requestJsonFrom_last upstream attempt remaining err :
  requestJsonFrom upstream attempt remaining = Thrown err <->
  upstream (attempt + remaining)%nat = Failed err
  /\ forall j, (attempt <= j < attempt + remaining)%nat -> exists e, upstream j = Failed e.
Proof.
  revert attempt. induction remaining as [|r IH]; intros attempt; simpl.
  - rewrite Nat.add_0_r. destruct (upstream attempt) eqn:U; split.
    + intros H. inversion H; subst. split; [reflexivity|]. intros j Hj. lia.
    + intros (H & _). congruence.
    + discriminate.
    + intros (H & _). discriminate H.
  - replace (attempt + S r)%nat with (S attempt + r)%nat by lia.
    destruct (upstream attempt) eqn:U; split.
    + intros H. apply IH in H. destruct H as (Hl & Hf). split; [exact Hl|].
      intros j Hj. destruct (Nat.eq_dec j attempt) as [->|N]; [eauto|].
      apply Hf. lia.
    + intros (Hl & Hf). apply IH. split; [exact Hl|]. intros j Hj. apply Hf. lia.
    + discriminate.
    + intros (_ & Hf). destruct (Hf attempt ltac:(lia)) as (e & He). congruence.
Qed.

(** X11: [requestJson] makes at most [retries + 1] attempts.  It returns
    the payload of the first attempt that responds, all the attempts
    before it having failed; it throws exactly when all its attempts
    fail, and then the error of the last one. *)
Theorem requestJson_retries (upstream : Upstream) (input : Request) (retries : nat) :
  (forall payload,
     requestJson upstream input retries = Returned payload <->
     exists i, (i <= retries)%nat
               /\ upstream input i = Responded payload
               /\ forall j, (j < i)%nat -> exists e, upstream input j = Failed e)
  /\ (forall err,
        requestJson upstream input retries = Thrown err <->
        upstream input retries = Failed err
        /\ forall j, (j < retries)%nat -> exists e, upstream input j = Failed e).
Proof.
  unfold requestJson. split.
  - intros payload. rewrite requestJsonFrom_first. split.
    + intros (i & Hi & Hu & Hf). exists i. split; [lia|]. split; [exact Hu|].
      intros j Hj. apply Hf. lia.
    + intros (i & Hi & Hu & Hf). exists i. split; [lia|]. split; [exact Hu|].
      intros j Hj. apply Hf. lia.
  - intros err. rewrite requestJsonFrom_last. simpl. split.
    + intros (Hl & Hf). split; [exact Hl|]. intros j Hj. apply Hf. lia.
    + intros (Hl & Hf). split; [exact Hl|]. intros j Hj. apply Hf. lia.
Qed.

(* ================================================================== *)
(** ** The upstream client: [fetchPortfolioSeries] *)
(* ================================================================== *)

(** X12: [fetchPortfolioSeries] never throws.  It returns [null] exactly
    when both attempts of the request fail, or when the payload has a row
    that cannot be read: a row of two elements or more whose window name,
    or a timestamp or value of one of whose histories, is a value on which
    the conversion throws.  Otherwise it returns a list of window series
    (empty for a payload that is neither an array nor an object with an
    array [value]) in which every series has at least one point and every
    point has a finite timestamp and a finite value. *)
Theorem fetchPortfolioSeries_total (rt : Runtime) (upstream : Upstream) (address : string) :
  let request := PortfolioRequest (normalizeAddress address) in
  (exists r, fetchPortfolioSeries rt upstream address = Returned r)
  /\ (fetchPortfolioSeries rt upstream address = Returned None <->
      (forall i, (i <= 1)%nat -> exists e, upstream request i = Failed e)
      \/ exists payload,
           requestJson upstream request 1 = Returned payload
           /\ existsb throwingRow (rowsOf payload) = true)
  /\ (forall series,
        fetchPortfolioSeries rt upstream address = Returned (Some series) ->
        Forall wellFormedSeries series).
Proof.
  cbv zeta. pose proof (fetchPortfolioSeries_spec rt upstream address) as S.
  destruct (requestJson upstream _ 1) as [payload|err] eqn:R.
  - assert (Up : ~ forall i, (i <= 1)%nat ->
                   exists e, upstream (PortfolioRequest (normalizeAddress address)) i
                             = Failed e).
    { intros H.
      destruct (requestJsonFrom_all_failed
                  (upstream (PortfolioRequest (normalizeAddress address))) 0 1) as (e & He).
      { intros i Hi. apply H. lia. }
      unfold requestJson in R. congruence. }
    destruct (existsb throwingRow (rowsOf payload)) eqn:T.
    + rewrite S. split; [eauto|]. split; [|discriminate].
      split; [|reflexivity]. intros _. right. exists payload. now split.
    + destruct S as (series & -> & _ & F). split; [eauto|]. split.
      * split; [discriminate|].
        intros [H | (p & Hp & Tp)]; [contradiction|].
        inversion Hp; subst. congruence.
      * intros l H. inversion H; subst. exact F.
  - rewrite S. split; [eauto|]. split; [|discriminate].
    split; [|reflexivity]. intros _. left. intros i Hi.
    apply (requestJsonFrom_thrown _ 0 1 err R). lia.
Qed.

(* ================================================================== *)
(** ** The persister: [mergeHistories] *)
(* ================================================================== *)

Lemma mapGet_mapSet (m : TsMap) k v q :
  mapGet (mapSet m k v) q = if sameValueZero k q then Some v else mapGet m q.
Proof.
  induction m as [|[k1 v1] m IH]; simpl; [reflexivity|].
  destruct (sameValueZero k1 k) eqn:E1; simpl.
  - destruct (sameValueZero k1 q) eqn:E2.
    + assert (E : sameValueZero k q = true).
      { eapply sameValueZero_trans; [apply sameValueZero_sym; exact E1 | exact E2]. }
      now rewrite E.
    + destruct (sameValueZero k q) eqn:E; [|reflexivity].
      assert (X : sameValueZero k1 q = true) by (eapply sameValueZero_trans; eauto).
      congruence.
  - rewrite IH. destruct (sameValueZero k1 q) eqn:E2; [|reflexivity].
    destruct (sameValueZero k q) eqn:E; [|reflexivity].
    assert (X : sameValueZero k1 k = true).
    { eapply sameValueZero_trans; [exact E2 | apply sameValueZero_sym; exact E]. }
    congruence.
Qed.

Lemma mapGet_sameKey (m : TsMap) k q :
  sameValueZero k q = true -> mapGet m k = mapGet m q.
Proof.
  intros E. induction m as [|[k1 v1] m IH]; simpl; [reflexivity|].
  destruct (sameValueZero k1 k) eqn:E1.
  - assert (X : sameValueZero k1 q = true) by (eapply sameValueZero_trans; eauto).
    now rewrite X.
  - destruct (sameValueZero k1 q) eqn:E2; [|exact IH].
    assert (X : sameValueZero k1 k = true).
    { eapply sameValueZero_trans; [exact E2 | apply sameValueZero_sym; exact E]. }
    congruence.
Qed.

Lemma mapGet_In (m : TsMap) k v :
  NoDupA sameKey (map fst m) -> In (k, v) m -> mapGet m k = Some v.
Proof.
  induction m as [|[k1 v1] m IH]; simpl; [contradiction|].
  intros N [H | H].
  - inversion H; subst. now rewrite sameValueZero_refl.
  - inversion N as [|? ? Hnot N']; subst.
    destruct (sameValueZero k1 k) eqn:E; [|now apply IH].
    exfalso. apply Hnot. apply InA_alt. exists k. split; [exact E|].
    apply (in_map fst) in H. exact H.
Qed.

Lemma mapGet_Some_In (m : TsMap) q v :
  mapGet m q = Some v -> exists k, In (k, v) m /\ sameValueZero k q = true.
Proof.
  induction m as [|[k1 v1] m IH]; simpl; [discriminate|].
  destruct (sameValueZero k1 q) eqn:E.
  - intros H; inversion H; subst. exists k1. split; [now left | exact E].
  - intros H. destruct (IH H) as (k & Hin & Hk). exists k. split; [now right | exact Hk].
Qed.

Lemma mergePnl_at (m : TsMap) (p : HistoryPoint) (t : num) :
  pnlAt (mergePnl m p) t = (if sameValueZero (ts p) t then Some (value p) else pnlAt m t)
  /\ equityAt (mergePnl m p) t = equityAt m t.
Proof.
  unfold pnlAt, equityAt, mergePnl. rewrite mapGet_mapSet.
  destruct (sameValueZero (ts p) t) eqn:E; [|split; reflexivity].
  split; [reflexivity|]. simpl.
  rewrite (mapGet_sameKey m _ _ E). now destruct (mapGet m t).
Qed.

Lemma mergeEquity_at (m : TsMap) (p : HistoryPoint) (t : num) :
  equityAt (mergeEquity m p) t
  = (if sameValueZero (ts p) t then Some (value p) else equityAt m t)
  /\ pnlAt (mergeEquity m p) t = pnlAt m t.
Proof.
  unfold pnlAt, equityAt, mergeEquity. rewrite mapGet_mapSet.
  destruct (sameValueZero (ts p) t) eqn:E; [|split; reflexivity].
  split; [reflexivity|]. simpl.
  rewrite (mapGet_sameKey m _ _ E). now destruct (mapGet m t).
Qed.

Lemma fold_mergePnl_at (points : list HistoryPoint) (m : TsMap) (t : num) :
  pnlAt (fold_left mergePnl points m) t
  = fold_left (fun acc p => if sameValueZero (ts p) t then Some (value p) else acc)
      points (pnlAt m t)
  /\ equityAt (fold_left mergePnl points m) t = equityAt m t.
Proof.
  revert m. induction points as [|p points IH]; intros m; simpl; [split; reflexivity|].
  destruct (IH (mergePnl m p)) as (-> & ->).
  destruct (mergePnl_at m p t) as (-> & ->). split; reflexivity.
Qed.

Lemma fold_mergeEquity_at (points : list HistoryPoint) (m : TsMap) (t : num) :
  equityAt (fold_left mergeEquity points m) t
  = fold_left (fun acc p => if sameValueZero (ts p) t then Some (value p) else acc)
      points (equityAt m t)
  /\ pnlAt (fold_left mergeEquity points m) t = pnlAt m t.
Proof.
  revert m. induction points as [|p points IH]; intros m; simpl; [split; reflexivity|].
  destruct (IH (mergeEquity m p)) as (-> & ->).
  destruct (mergeEquity_at m p t) as (-> & ->). split; reflexivity.
Qed.

Lemma mergedMap_at (series : PortfolioWindowSeries) (t : num) :
  pnlAt (mergedMap series) t = lastValueAt t (pnlHistory series)
  /\ equityAt (mergedMap series) t = lastValueAt t (equityHistory series).
Proof.
  unfold mergedMap, lastValueAt.
  destruct (fold_mergeEquity_at (equityHistory series)
              (fold_left mergePnl (pnlHistory series) []) t) as (-> & ->).
  destruct (fold_mergePnl_at (pnlHistory series) [] t) as (-> & ->).
  split; reflexivity.
Qed.

Lemma lastValueAt_In (t : num) (points : list HistoryPoint) (p : HistoryPoint) :
  In p points -> sameValueZero (ts p) t = true -> lastValueAt t points <> None.
Proof.
  unfold lastValueAt. intros Hin E.
  assert (G : forall acc,
            acc <> None \/ In p points ->
            fold_left (fun acc p => if sameValueZero (ts p) t then Some (value p) else acc)
              points acc <> None).
  { clear Hin. induction points as [|x points IH]; intros acc [H | H]; simpl.
    - exact H.
    - contradiction.
    - apply IH. left. destruct (sameValueZero (ts x) t); [discriminate | exact H].
    - destruct H as [-> | H].
      + apply IH. left. rewrite E. discriminate.
      + apply IH. now right. }
  apply G. now right.
Qed.

(** X13: for histories with finite timestamps, [mergeHistories] returns
    the samples in ascending order of their timestamps; the PnL of a
    sample is the value of the last PnL point at its timestamp (absent
    when there is none) and its equity the value of the last equity point
    there; and every timestamp of the two histories has its sample. *)
Theorem mergeHistories_spec (series : PortfolioWindowSeries) :
  Forall (fun p => isFinite (ts p) = true) (pnlHistory series) ->
  Forall (fun p => isFinite (ts p) = true) (equityHistory series) ->
  StronglySorted sampleTsLe (mergeHistories series)
  /\ Forall (fun s => samplePnl s = lastValueAt (sampleTs s) (pnlHistory series)
                      /\ sampleEquity s = lastValueAt (sampleTs s) (equityHistory series))
       (mergeHistories series)
  /\ (forall p, In p (pnlHistory series ++ equityHistory series) ->
        exists s, In s (mergeHistories series) /\ sameKey (sampleTs s) (ts p)).
Proof.
  intros F1 F2.
  set (toSample := fun '(ts, values) =>
         {| sampleTs := ts; samplePnl := pnl values; sampleEquity := equity values |}).
  assert (Fk : Forall (fun k => isFinite k = true) (map fst (mergedMap series)))
    by now apply mergedMap_Forall.
  assert (Fs : Forall (fun s => isFinite (sampleTs s) = true)
                 (map toSample (mergedMap series))).
  { apply Forall_map. rewrite Forall_map in Fk.
    eapply Forall_impl; [|exact Fk]. now intros [k v]. }
  assert (In_sample : forall s, In s (mergeHistories series) ->
            exists v, In (sampleTs s, v) (mergedMap series)
                      /\ samplePnl s = pnl v /\ sampleEquity s = equity v).
  { intros s Hs. unfold mergeHistories in Hs. apply sort_In in Hs.
    apply in_map_iff in Hs. destruct Hs as ([k v] & <- & Hin).
    exists v. simpl. repeat split. exact Hin. }
  repeat match goal with |- _ /\ _ => split end.
  - unfold mergeHistories. fold toSample.
    apply (sort_sorted _ sampleTsLe (fun a b c => Qle_trans _ _ _)
             (fun s => isFinite (sampleTs s) = true)); [| |exact Fs].
    + intros a b Fa Fb G. unfold sampleTsLe.
      rewrite (finite_toQ _ Fa), (finite_toQ _ Fb), sub_Fin in G.
      apply gt_Fin_false in G. lra.
    + intros a b Fa Fb G. unfold sampleTsLe.
      rewrite (finite_toQ _ Fa), (finite_toQ _ Fb), sub_Fin in G.
      apply gt_Fin in G. lra.
  - apply Forall_forall. intros s Hs.
    destruct (In_sample s Hs) as (v & Hin & -> & ->).
    pose proof (mapGet_In _ _ _ (mergedMap_NoDupA series) Hin) as G.
    destruct (mergedMap_at series (sampleTs s)) as (P & E).
    unfold pnlAt, equityAt in P, E. rewrite G in P, E. now split.
  - intros p Hp.
    assert (G : mapGet (mergedMap series) (ts p) <> None).
    { destruct (mergedMap_at series (ts p)) as (P & E).
      apply in_app_or in Hp. destruct Hp as [Hp | Hp].
      - pose proof (lastValueAt_In _ _ _ Hp (sameValueZero_refl _)) as N.
        rewrite <- P in N. unfold pnlAt in N. now destruct (mapGet _ _).
      - pose proof (lastValueAt_In _ _ _ Hp (sameValueZero_refl _)) as N.
        rewrite <- E in N. unfold equityAt in N. now destruct (mapGet _ _). }
    destruct (mapGet (mergedMap series) (ts p)) as [v|] eqn:M; [|contradiction].
    apply mapGet_Some_In in M. destruct M as (k & Hin & Hk).
    exists (toSample (k, v)). split; [|exact Hk].
    unfold mergeHistories. apply sort_In. fold toSample. now apply in_map.
Qed.

Lemma mergeHistories_spec_witness :
  StronglySorted sampleTsLe (mergeHistories monthSeries).
Proof.
  refine (proj1 (mergeHistories_spec monthSeries _ _)); repeat constructor.
Defined.

(* ================================================================== *)
(** ** Enrichment: [applyStatsToEntry] applied twice *)
(* ================================================================== *)

Lemma finiteOr_idempotent (x previous : option num) :
  finiteOr x (finiteOr x previous) = finiteOr x previous.
Proof. unfold finiteOr. now destruct (isFinite (numberOfOptional x)). Qed.

(** X14: applying the same statistics to an entry a second time changes
    nothing: [applyStatsToEntry] is idempotent. *)
Theorem applyStatsToEntry_idempotent (e : RankedEntry) (stats : AddressStats.AddressStats) :
  applyStatsToEntry (applyStatsToEntry e stats) stats = applyStatsToEntry e stats.
Proof.
  unfold applyStatsToEntry.
  cbn [entry rank weight address score filtered filterReason winRate executedOrders
       realizedPnl efficiency pnlConsistency remark labels statOpenPositions
       statClosedPositions statAvgPosDuration statTotalPnl statMaxDrawdown meta
       rawEntry scoringDetails metaNumWins metaNumLosses metaFiltered metaFilterReason
       apiMaxDrawdown metaExecutedOrders metaStats].
  rewrite !finiteOr_idempotent.
  destruct (AddressStats.winRate stats) as [w|]; [|reflexivity].
  destruct (isFinite w); reflexivity.
Qed.

(* ================================================================== *)
(** ** The refresh cycle: the drawdown of the persisted entries *)
(* ================================================================== *)

(** X15: when the re-filter of phase 2 runs (some entry is to be
    enriched), no entry handed to [persistPeriod] has a drawdown statistic
    above the limit, enriched or not: also in the fallback case, where
    phase 1 returned entries over the limit. *)
Theorem refreshPeriod_drawdown_limit (rt : Runtime) (scoringParams : Scoring.ScoringParams)
    (maxTradesHardLimit : num) (selectCount enrichCount : nat)
    (raw : list Raw.LeaderboardRawEntry) (statsMap : StatsMap) (series : SeriesMap) :
  refilterRuns selectCount enrichCount = true ->
  Forall (fun e : RankedEntry =>
            (statMaxDrawdown e ?? 0%num >? Scoring.maxDrawdownLimit scoringParams)%num
            = false)
    (entries (refreshPeriod rt scoringParams maxTradesHardLimit selectCount enrichCount
                raw statsMap series)).
Proof.
  intros Runs.
  assert (K : forall l : list RankedEntry,
            Forall (fun e : RankedEntry =>
                      (statMaxDrawdown e ?? 0%num
                       >? Scoring.maxDrawdownLimit scoringParams)%num = false)
              (filter (keepEnriched scoringParams) l)).
  { intros l. apply Forall_forall. intros e He. apply filter_In in He.
    destruct He as (_ & He). unfold keepEnriched in He.
    now apply negb_true_iff in He. }
  destruct (refreshPeriod_cases rt scoringParams maxTradesHardLimit selectCount enrichCount
              raw statsMap series) as (enriched & _ & _ & [(-> & C) | [(-> & C) | (-> & _)]]).
  - destruct C as [-> | C]; [constructor | congruence].
  - rewrite <- C. apply K.
  - apply (Forall_proj (fun e : RankedEntry => statMaxDrawdown e)
             (fun d => (d ?? 0%num >? Scoring.maxDrawdownLimit scoringParams)%num = false)
             (filter (keepEnriched scoringParams) enriched)).
    + symmetry. apply (reweigh_proj selectCount statMaxDrawdown).
    + apply K.
Qed.

Lemma refreshPeriod_drawdown_limit_witness :
  Forall (fun e : RankedEntry =>
            (statMaxDrawdown e ?? 0%num
             >? Scoring.maxDrawdownLimit Scoring.DEFAULT_SCORING_PARAMS)%num = false)
    (entries (refreshPeriod exampleRuntime Scoring.DEFAULT_SCORING_PARAMS (Fin 200) 2 2
                blownUpAndIdle noEnrichment [])).
Proof.
  apply (refreshPeriod_drawdown_limit exampleRuntime Scoring.DEFAULT_SCORING_PARAMS
           (Fin 200) 2 2 blownUpAndIdle noEnrichment []).
  reflexivity.
Defined.

(* ================================================================== *)
(** ** The leaderboard service: [fetchPeriod] *)
(* ================================================================== *)

Section Pages.
Variable upstream : nat -> PageAttempt.
Variable pageSize : nat.
Variable n : nat.

(** Full pages are appended and the loop goes on. *)
Lemma fetchPages_full (k fuel page : nat) results :
  (forall p, (page <= p < page + k)%nat -> fullPage upstream pageSize p) ->
  (page + k <= n + 1)%nat ->
  fetchPages (k + fuel) upstream pageSize (Pages n) page results
  = fetchPages fuel upstream pageSize (Pages n) (page + k)
      (results ++ flat_map (pageData upstream) (seq page k)).
Proof.
  revert page results. induction k as [|k IH]; intros page results Hfull Hk.
  - simpl. now rewrite Nat.add_0_r, app_nil_r.
  - cbn [Nat.add fetchPages pageWithin].
    assert (W : (page <=? n)%nat = true) by (apply Nat.leb_le; lia).
    rewrite W.
    destruct (Hfull page ltac:(lia)) as (d & Hd & Hlen).
    rewrite Hd. cbv zeta.
    assert (L : (length (d ?? []) <? pageSize)%nat = false) by (apply Nat.ltb_ge; lia).
    rewrite L, IH.
    + replace (S page + k)%nat with (page + S k)%nat by lia.
      cbn [seq flat_map]. unfold pageData at 2. rewrite Hd.
      now rewrite <- app_assoc.
    + intros p Hp. apply Hfull. lia.
    + lia.
Qed.

(** The loop ends within [n + 1 - page] iterations after the page [page]. *)
Lemma fetchPages_total (fuel page : nat) results :
  (n + 1 - page < fuel)%nat ->
  exists outcome,
    fetchPages fuel upstream pageSize (Pages n) page results = Some outcome
    /\ forall l, outcome = Returned l ->
         exists k, (k <= n + 1 - page)%nat
                   /\ l = results ++ flat_map (pageData upstream) (seq page k).
Proof.
  revert page results. induction fuel as [|fuel IH]; intros page results Hf; [lia|].
  cbn [fetchPages pageWithin].
  destruct (page <=? n)%nat eqn:W.
  - apply Nat.leb_le in W.
    destruct (upstream page) as [err|d] eqn:U.
    + eexists. split; [reflexivity|]. discriminate.
    + cbv zeta. destruct (length (d ?? []) <? pageSize)%nat.
      * eexists. split; [reflexivity|]. intros l H. inversion H; subst.
        exists 1%nat. split; [lia|]. cbn [seq flat_map]. unfold pageData. rewrite U.
        now rewrite app_nil_r.
      * destruct (IH (S page) (results ++ d ?? []) ltac:(lia)) as (o & Ho & Hl).
        exists o. split; [exact Ho|]. intros l H.
        destruct (Hl l H) as (k & Hk & ->).
        exists (S k). split; [lia|]. cbn [seq flat_map]. unfold pageData at 2. rewrite U.
        now rewrite <- app_assoc.
  - eexists. split; [reflexivity|]. intros l H. inversion H; subst.
    exists 0%nat. apply Nat.leb_gt in W. split; [lia|]. simpl. now rewrite app_nil_r.
Qed.

End Pages.

(** The loop reads the pages within the bound only. *)
Lemma fetchPages_ext (u u' : nat -> PageAttempt) pageSize n fuel page results :
  (forall p, (page <= p <= n)%nat -> u' p = u p) ->
  fetchPages fuel u' pageSize (Pages n) page results
  = fetchPages fuel u pageSize (Pages n) page results.
Proof.
  revert page results. induction fuel as [|fuel IH]; intros page results H; [reflexivity|].
  cbn [fetchPages pageWithin].
  destruct (page <=? n)%nat eqn:W; [|reflexivity].
  apply Nat.leb_le in W. rewrite (H page ltac:(lia)).
  destruct (u page) as [err|d]; [reflexivity|]. cbv zeta.
  destruct (_ <? _)%nat; [reflexivity|].
  apply IH. intros p Hp. apply H. lia.
Qed.

Lemma pagesNeeded_positive topN pageSize :
  (0 < pageSize)%nat -> pagesNeeded topN pageSize = Pages ((topN + pageSize - 1) / pageSize).
Proof. intros H. destruct pageSize; [lia | reflexivity]. Qed.

(** X16: for a page size that is not 0, [fetchPeriod] ends after at most
    [ceil(topN / pageSize)] requests.  When it returns, it returns at most
    [topN] entries: the first [topN] entries of the pages 1 to [k], in
    order, for some [k] within that number.  No page beyond that number is
    read. *)
Theorem fetchPeriod_returns (upstream : LeaderboardUpstream)
    (topN pageSize period fuel : nat) :
  (0 < pageSize)%nat ->
  ((topN + pageSize - 1) / pageSize < fuel)%nat ->
  exists outcome,
    fetchPeriod fuel upstream topN pageSize period = Some outcome
    /\ (forall entries, outcome = Returned entries ->
          (length entries <= topN)%nat
          /\ exists k, (k <= (topN + pageSize - 1) / pageSize)%nat
                       /\ entries = firstn topN (pagesUpTo (upstream period) k))
    /\ (forall upstream' : LeaderboardUpstream,
          (forall p, (1 <= p <= (topN + pageSize - 1) / pageSize)%nat ->
                     upstream' period p = upstream period p) ->
          fetchPeriod fuel upstream' topN pageSize period = Some outcome).
Proof.
  intros Hp Hf. unfold fetchPeriod. rewrite (pagesNeeded_positive topN pageSize Hp).
  set (n := ((topN + pageSize - 1) / pageSize)%nat) in *.
  destruct (fetchPages_total (upstream period) pageSize n fuel 1 [] ltac:(lia))
    as (o & Ho & Hl).
  rewrite Ho. destruct o as [results|err].
  - exists (Returned (firstn topN results)). split; [reflexivity|]. split.
    + intros entries H. inversion H; subst. split; [apply firstn_le_length|].
      destruct (Hl results eq_refl) as (k & Hk & ->).
      exists k. split; [lia | reflexivity].
    + intros upstream' H. rewrite (fetchPages_ext (upstream period)) by exact H.
      now rewrite Ho.
  - exists (Thrown err). split; [reflexivity|]. split; [discriminate|].
    intros upstream' H. rewrite (fetchPages_ext (upstream period)) by exact H.
    now rewrite Ho.
Qed.

Lemma fetchPeriod_returns_witness :
  exists outcome, fetchPeriod 10 twoPages 5 3 30 = Some outcome.
Proof.
  destruct (fetchPeriod_returns twoPages 5 3 30 10) as (outcome & H & _).
  - lia.
  - apply Nat.leb_le. reflexivity.
  - exists outcome. exact H.
Defined.

(** X17: after full pages only, a page that fails makes [fetchPeriod]
    throw its error, nothing of the earlier pages being returned; a page
    with fewer than [pageSize] entries (or without [data]) ends the
    pagination: the entries of the pages up to it are returned, cut to
    [topN], and the later pages are not requested; and so do the pages 1
    to [ceil(topN / pageSize)] when all of them are full. *)
Theorem fetchPeriod_stops (upstream : LeaderboardUpstream)
    (topN pageSize period fuel k : nat) :
  (0 < pageSize)%nat ->
  (1 <= k <= (topN + pageSize - 1) / pageSize)%nat ->
  (k < fuel)%nat ->
  (forall p, (1 <= p < k)%nat -> fullPage (upstream period) pageSize p) ->
  (forall err, upstream period k = PageFailed err ->
     fetchPeriod fuel upstream topN pageSize period = Some (Thrown err))
  /\ (forall payloadData,
        upstream period k = PageResponded payloadData ->
        (length (payloadData ?? []) < pageSize)%nat ->
        fetchPeriod fuel upstream topN pageSize period
        = Some (Returned (firstn topN (pagesUpTo (upstream period) k))))
  /\ (fullPage (upstream period) pageSize k ->
      k = ((topN + pageSize - 1) / pageSize)%nat ->
      fetchPeriod fuel upstream topN pageSize period
      = Some (Returned (firstn topN (pagesUpTo (upstream period) k)))).
Proof.
  intros Hp Hk Hf Hfull. unfold fetchPeriod.
  rewrite (pagesNeeded_positive topN pageSize Hp).
  set (n := ((topN + pageSize - 1) / pageSize)%nat) in *.
  assert (W : (k <=? n)%nat = true) by (apply Nat.leb_le; lia).
  assert (Pre : forall fuel',
            fetchPages (k - 1 + fuel') (upstream period) pageSize (Pages n) 1 []
            = fetchPages fuel' (upstream period) pageSize (Pages n) k
                (pagesUpTo (upstream period) (k - 1))).
  { intros fuel'. rewrite (fetchPages_full (upstream period) pageSize n (k - 1) fuel' 1 []).
    - replace (1 + (k - 1))%nat with k by lia. reflexivity.
    - intros p H. apply Hfull. lia.
    - lia. }
  assert (Split : pagesUpTo (upstream period) k
                  = pagesUpTo (upstream period) (k - 1) ++ pageData (upstream period) k).
  { unfold pagesUpTo. replace k with (k - 1 + 1)%nat at 1 by lia.
    rewrite seq_app, flat_map_app. replace (1 + (k - 1))%nat with k by lia.
    simpl. now rewrite app_nil_r. }
  repeat match goal with |- _ /\ _ => split end.
  - intros err U.
    replace fuel with (k - 1 + S (fuel - k))%nat by lia. rewrite Pre.
    cbn [fetchPages pageWithin]. now rewrite W, U.
  - intros d U Hshort.
    replace fuel with (k - 1 + S (fuel - k))%nat by lia. rewrite Pre.
    cbn [fetchPages pageWithin]. rewrite W, U. cbv zeta.
    assert (L : (length (d ?? []) <? pageSize)%nat = true) by now apply Nat.ltb_lt.
    rewrite L, Split. unfold pageData. now rewrite U.
  - intros Full En.
    replace fuel with (k + S (fuel - k - 1))%nat by lia.
    rewrite (fetchPages_full (upstream period) pageSize n k _ 1 []).
    + cbn [fetchPages pageWithin].
      assert (W' : (1 + k <=? n)%nat = false) by (apply Nat.leb_gt; lia).
      rewrite W'. reflexivity.
    + intros p H. destruct (Nat.eq_dec p k) as [->|N]; [exact Full|]. apply Hfull. lia.
    + lia.
Qed.

Lemma fetchPeriod_stops_witness :
  fetchPeriod 10 twoPages 9 3 30
  = Some (Returned (firstn 9 (pagesUpTo (twoPages 30%nat) 2))).
Proof.
  destruct (fetchPeriod_stops twoPages 9 3 30 10 2) as (_ & H & _).
  - lia.
  - split; [lia|]. apply Nat.leb_le. reflexivity.
  - lia.
  - intros p Hp. assert (p = 1%nat) by lia. subst.
    exists (Some threeIdle). split; [reflexivity|]. simpl. lia.
  - apply (H (Some loneScalper)); [reflexivity|]. simpl. lia.
Defined.

Lemma fetchPages_endless (u : nat -> PageAttempt) fuel page results :
  (forall p, exists payloadData, u p = PageResponded payloadData) ->
  fetchPages fuel u 0 Endless page results = None.
Proof.
  intros H. revert page results. induction fuel as [|fuel IH]; intros page results;
    [reflexivity|].
  cbn [fetchPages pageWithin]. destruct (H page) as (d & ->). cbv zeta.
  assert (L : (length (d ?? []) <? 0)%nat = false) by reflexivity.
  rewrite L. apply IH.
Qed.

(** X18: with a page size of 0 and a positive [topN], the number of pages
    is [Infinity] and no page is shorter than the page size: as long as
    the endpoint answers, the loop of [fetchPeriod] never ends. *)
Theorem fetchPeriod_endless (upstream : LeaderboardUpstream) (topN period : nat) :
  (0 < topN)%nat ->
  (forall p, exists payloadData, upstream period p = PageResponded payloadData) ->
  forall fuel, fetchPeriod fuel upstream topN 0 period = None.
Proof.
  intros Ht H fuel. unfold fetchPeriod, pagesNeeded.
  assert (E : (topN =? 0)%nat = false) by (apply Nat.eqb_neq; lia).
  rewrite E, fetchPages_endless by exact H. reflexivity.
Qed.

Lemma fetchPeriod_endless_witness :
  fetchPeriod 1000 endlessPages 12 0 30 = None.
Proof.
  apply (fetchPeriod_endless endlessPages 12 30).
  - lia.
  - intros p. exists (Some threeIdle). reflexivity.
Defined.

(* ================================================================== *)
(** ** The leaderboard service: the two batches of requests *)
(* ================================================================== *)

Lemma strMapGet_strMapSet {V : Type} (m : list (string * V)) k v q :
  strMapGet (strMapSet m k v) q = if String.eqb k q then Some v else strMapGet m q.
Proof.
  induction m as [|[k1 v1] m IH]; simpl; [reflexivity|].
  destruct (String.eqb k1 k) eqn:E1; simpl.
  - apply String.eqb_eq in E1. subst k1. now destruct (String.eqb k q).
  - rewrite IH. destruct (String.eqb k1 q) eqn:E2; [|reflexivity].
    apply String.eqb_eq in E2. subst k1.
    rewrite String.eqb_sym in E1. now rewrite E1.
Qed.

Lemma strMapSet_keys {V : Type} (m : list (string * V)) k v x :
  In x (map fst (strMapSet m k v)) <-> In x (map fst m) \/ x = k.
Proof.
  induction m as [|[k1 v1] m IH]; simpl.
  - split; [intros [<- | []]; now right | intros [[] | ->]; now left].
  - destruct (String.eqb k1 k) eqn:E; simpl.
    + apply String.eqb_eq in E. subst k1. intuition congruence.
    + rewrite IH. tauto.
Qed.

Lemma strMapSet_In {V : Type} (m : list (string * V)) k v x w :
  In (x, w) (strMapSet m k v) -> In (x, w) m \/ w = v.
Proof.
  induction m as [|[k1 v1] m IH]; simpl.
  - intros [H | []]. inversion H. now right.
  - destruct (String.eqb k1 k); simpl.
    + intros [H | H]; [inversion H; now right | left; now right].
    + intros [H | H]; [left; now left|].
      destruct (IH H) as [H' | H']; [left; now right | now right].
Qed.

Section BatchFacts.
Variable rt : Runtime.
Variable upstream : Upstream.
Variable period : nat.

(** The request of [fetchAddressStat] carries the normalized address
    only. *)
Lemma statsOf_normalized a b :
  toLowerCase a = toLowerCase b ->
  statsOf rt upstream period a = statsOf rt upstream period b.
Proof.
  intros E. unfold statsOf, fetchAddressStat, normalizeAddress. now rewrite E.
Qed.

Lemma fetchAddressStat_statsOf a :
  fetchAddressStat rt upstream a period = Returned (statsOf rt upstream period a).
Proof.
  unfold statsOf.
  destruct (fetchAddressStat_returns rt upstream a period) as (r & ->). reflexivity.
Qed.

Lemma statsWorker_spec m a :
  statsWorker rt upstream period m a
  = match statsOf rt upstream period a with
    | Some stats => strMapSet m (toLowerCase a) stats
    | None => m
    end.
Proof. unfold statsWorker. rewrite fetchAddressStat_statsOf. reflexivity. Qed.

(** The map after the workers of [done] have written to it. *)
Lemma statsBatch_inv (l done : list string) m :
  (forall a, In a done -> strMapGet m (toLowerCase a) = statsOf rt upstream period a) ->
  (forall k, (forall a, In a done -> toLowerCase a <> k) -> strMapGet m k = None) ->
  let m' := fold_left (statsWorker rt upstream period) l m in
  (forall a, In a (done ++ l) -> strMapGet m' (toLowerCase a) = statsOf rt upstream period a)
  /\ (forall k, (forall a, In a (done ++ l) -> toLowerCase a <> k) -> strMapGet m' k = None).
Proof.
  revert done m. induction l as [|x l IH]; intros done m I1 I2; cbv zeta.
  - rewrite app_nil_r. now split.
  - cbn [fold_left].
    replace (done ++ x :: l) with ((done ++ [x]) ++ l) by now rewrite <- app_assoc.
    apply IH.
    + intros a Ha. rewrite statsWorker_spec.
      assert (Seen : strMapGet m (toLowerCase x) = statsOf rt upstream period x
                     \/ strMapGet m (toLowerCase x) = None).
      { destruct (existsb (fun d => String.eqb (toLowerCase d) (toLowerCase x)) done) eqn:E.
        - apply existsb_exists in E. destruct E as (d & Hd & Ed).
          apply String.eqb_eq in Ed. left.
          rewrite <- Ed, (I1 d Hd). now apply statsOf_normalized.
        - right. apply I2. intros d Hd Ed.
          assert (X : existsb (fun d => String.eqb (toLowerCase d) (toLowerCase x)) done
                      = true).
          { apply existsb_exists. exists d. split; [exact Hd|]. now apply String.eqb_eq. }
          congruence. }
      destruct (String.eqb (toLowerCase x) (toLowerCase a)) eqn:Exa.
      * apply String.eqb_eq in Exa.
        rewrite <- (statsOf_normalized x a Exa), <- Exa.
        destruct (statsOf rt upstream period x) as [s|] eqn:Sx.
        -- rewrite strMapGet_strMapSet, String.eqb_refl. reflexivity.
        -- destruct Seen as [S | S]; exact S.
      * assert (Hd : In a done).
        { apply in_app_or in Ha. destruct Ha as [Ha | [-> | []]]; [exact Ha|].
          rewrite String.eqb_refl in Exa. discriminate. }
        destruct (statsOf rt upstream period x) as [s|].
        -- rewrite strMapGet_strMapSet, Exa. now apply I1.
        -- now apply I1.
    + intros k Hk. rewrite statsWorker_spec.
      assert (Nx : toLowerCase x <> k) by (apply Hk, in_or_app; right; now left).
      assert (G : strMapGet m k = None).
      { apply I2. intros a Ha. apply Hk, in_or_app. now left. }
      destruct (statsOf rt upstream period x) as [s|]; [|exact G].
      rewrite strMapGet_strMapSet.
      destruct (String.eqb (toLowerCase x) k) eqn:E; [|exact G].
      apply String.eqb_eq in E. contradiction.
Qed.

End BatchFacts.

(** X19: whatever the order in which the requests of
    [fetchAddressStatsBatch] complete, the map it returns holds, under the
    lower-cased address of each entry, the statistics that
    [fetchAddressStat] returned for it, no key for an address whose
    statistics are [null], and no other key. *)
Theorem fetchAddressStatsBatch_lookup (rt : Runtime) (upstream : Upstream) (period : nat)
    (entries : list RankedEntry) (completed : list string) :
  Permutation completed (map (fun e : RankedEntry => address e) entries) ->
  let store := fetchAddressStatsBatch rt upstream period completed in
  (forall e : RankedEntry, In e entries ->
     strMapGet store (toLowerCase (address e)) = statsOf rt upstream period (address e))
  /\ (forall k, (forall e : RankedEntry, In e entries -> toLowerCase (address e) <> k) ->
        strMapGet store k = None).
Proof.
  intros P store.
  destruct (statsBatch_inv rt upstream period completed [] [])
    as (I1 & I2); try (intros; simpl in *; first [tauto | reflexivity]).
  simpl in I1, I2. split.
  - intros e He. apply I1. eapply Permutation_in; [symmetry; exact P|].
    apply (in_map (fun e : RankedEntry => address e)). exact He.
  - intros k Hk. apply I2. intros a Ha.
    apply (Permutation_in _ P) in Ha. apply in_map_iff in Ha.
    destruct Ha as (e & <- & He). now apply Hk.
Qed.

Lemma fetchAddressStatsBatch_lookup_witness :
  strMapGet
    (fetchAddressStatsBatch exampleRuntime knowsOne 30 ["0xb"; "0xa"; "0xc"]%string)
    "0xd"%string
  = None.
Proof.
  pose (ranked := scoreEntries exampleRuntime Scoring.DEFAULT_SCORING_PARAMS (Fin 200) 12
                    threeIdle).
  destruct (fetchAddressStatsBatch_lookup exampleRuntime knowsOne 30 ranked
              ["0xb"; "0xa"; "0xc"]%string) as (_ & H).
  - vm_compute. apply perm_swap.
  - apply H. intros e He. vm_compute in He.
    destruct He as [<- | [<- | [<- | []]]]; discriminate.
Defined.

Lemma strMapSet_NoDup {V : Type} (m : list (string * V)) k v :
  NoDup (map fst m) -> NoDup (map fst (strMapSet m k v)).
Proof.
  induction m as [|[k1 v1] m IH]; simpl; intros N.
  - repeat constructor. intros [].
  - inversion N as [|? ? Hnot N']; subst.
    destruct (String.eqb k1 k) eqn:E; simpl; [now constructor|].
    constructor; [|now apply IH].
    rewrite strMapSet_keys. intros [H | H]; [contradiction|].
    subst. rewrite String.eqb_refl in E. discriminate.
Qed.

Section SeriesBatchFacts.
Variable rt : Runtime.
Variable upstream : Upstream.
Variable period : nat.

Lemma fetchPortfolioSeries_wellFormed a series :
  fetchPortfolioSeries rt upstream a = Returned (Some series) ->
  Forall wellFormedSeries series.
Proof.
  pose proof (fetchPortfolioSeries_spec rt upstream a) as S.
  destruct (requestJson upstream _ 1) as [payload|err]; [|congruence].
  destruct (existsb throwingRow (rowsOf payload)); [congruence|].
  destruct S as (l & -> & _ & F). intros H. inversion H; subst. exact F.
Qed.

(** What a worker of [fetchPortfolioSeriesBatch] writes, if it writes. *)
Lemma seriesWorker_spec (m : SeriesMap) (e : RankedEntry) :
  seriesWorker rt upstream period m e = m
  \/ exists relevant,
       seriesWorker rt upstream period m e = strMapSet m (toLowerCase (address e)) relevant
       /\ relevantSeries period relevant.
Proof.
  unfold seriesWorker.
  destruct (fetchPortfolioSeries rt upstream (address e)) as [[[|w ws]|]|err] eqn:F;
    try (now left).
  pose proof (fetchPortfolioSeries_wellFormed _ _ F) as WF.
  destruct (filter _ (w :: ws)) as [|r rs] eqn:E; [now left|].
  right. exists (r :: rs). split; [reflexivity|].
  split; [discriminate|]. rewrite <- E.
  apply Forall_forall. intros s Hs. apply filter_In in Hs. destruct Hs as (Hin & Hw).
  split; [exact Hw|]. rewrite Forall_forall in WF. now apply WF.
Qed.

Lemma seriesBatch_inv (l done : list RankedEntry) (m : SeriesMap) :
  NoDup (map fst m) ->
  Forall (fun kv => relevantSeries period (snd kv)
                    /\ exists e : RankedEntry, In e done /\ fst kv = toLowerCase (address e)) m ->
  let m' := fold_left (seriesWorker rt upstream period) l m in
  NoDup (map fst m')
  /\ Forall (fun kv => relevantSeries period (snd kv)
                       /\ exists e : RankedEntry,
                            In e (done ++ l) /\ fst kv = toLowerCase (address e)) m'.
Proof.
  revert done m. induction l as [|x l IH]; intros done m N F; cbv zeta.
  - rewrite app_nil_r. now split.
  - cbn [fold_left].
    replace (done ++ x :: l) with ((done ++ [x]) ++ l) by now rewrite <- app_assoc.
    assert (F' : Forall (fun kv => relevantSeries period (snd kv)
                          /\ exists e : RankedEntry,
                               In e (done ++ [x]) /\ fst kv = toLowerCase (address e)) m).
    { eapply Forall_impl; [|exact F]. intros kv (R & e & He & Ek).
      split; [exact R|]. exists e. split; [apply in_or_app; now left | exact Ek]. }
    destruct (seriesWorker_spec m x) as [-> | (relevant & -> & R)].
    + now apply IH.
    + apply IH; [now apply strMapSet_NoDup|].
      apply Forall_forall. intros [k v] Hin.
      apply strMapSet_In in Hin as Hv.
      assert (Hk : In k (map fst (strMapSet m (toLowerCase (address x)) relevant)))
        by (apply (in_map fst) in Hin; exact Hin).
      apply strMapSet_keys in Hk.
      rewrite Forall_forall in F'.
      destruct Hv as [Hold | ->].
      * apply (F' _ Hold).
      * split; [exact R|]. simpl.
        destruct Hk as [Hk | ->].
        -- apply in_map_iff in Hk. destruct Hk as ([k' v'] & Ek & Hin').
           simpl in Ek. subst k'. destruct (F' _ Hin') as (_ & e & He & Ee).
           exists e. split; [exact He | exact Ee].
        -- exists x. split; [apply in_or_app; right; now left | reflexivity].
Qed.

End SeriesBatchFacts.

(** X20: whatever the order in which the requests of
    [fetchPortfolioSeriesBatch] complete, the map it returns has pairwise
    distinct keys, each the lower-cased address of an entry, and maps each
    to one window or more, all of the period requested and with finite
    points only; so the persister skips none of their windows. *)
Theorem fetchPortfolioSeriesBatch_relevant (rt : Runtime) (upstream : Upstream)
    (period : nat) (completed : list RankedEntry) :
  let seriesMap := fetchPortfolioSeriesBatch rt upstream period completed in
  NoDup (map fst seriesMap)
  /\ Forall (fun kv => relevantSeries period (snd kv)
                       /\ exists e : RankedEntry,
                            In e completed /\ fst kv = toLowerCase (address e)) seriesMap
  /\ Forall (fun kv =>
               Forall (fun s => seriesPoints period (fst kv) s
                                = somes (map (samplePoint (fst kv) s) (mergeHistories s)))
                 (snd kv)) seriesMap.
Proof.
  intros seriesMap.
  destruct (seriesBatch_inv rt upstream period completed [] []) as (N & F);
    [constructor | constructor |].
  simpl in N, F. fold seriesMap in N, F.
  split; [exact N|]. split; [exact F|].
  eapply Forall_impl; [|exact F]. intros [k l] ((_ & R) & _). simpl in *.
  eapply Forall_impl; [|exact R]. intros s (W & _).
  unfold seriesPoints. now rewrite W.
Qed.

(* ================================================================== *)
(** ** The persister: the transaction of a period *)
(* ================================================================== *)

Section TxFacts.
Variable db : Database.

Lemma query_eq (statement : Statement) sent :
  query db statement sent
  = (sent ++ [statement],
     match db sent statement with None => inl tt | Some err => inr err end).
Proof. reflexivity. Qed.

Lemma bindTx_ext {A B : Type} (m m' : Tx A) (k k' : A -> Tx B) sent :
  (forall s, m s = m' s) -> (forall a s, k a s = k' a s) ->
  bindTx m k sent = bindTx m' k' sent.
Proof.
  intros Hm Hk. unfold bindTx. rewrite Hm.
  destruct (m' sent) as [sent' [a|err]]; [apply Hk | reflexivity].
Qed.

Lemma runList_app (l1 l2 : list Statement) sent :
  (runList db l1 >> runList db l2) sent = runList db (l1 ++ l2) sent.
Proof.
  revert sent. induction l1 as [|s l1 IH]; intros sent; [reflexivity|].
  unfold runList in *. cbn [forEachTx app].
  unfold bindTx at 1 2 3. destruct (query db s sent) as [sent' [[]|err]]; [|reflexivity].
  apply IH.
Qed.

Lemma runList_one (s : Statement) sent : query db s sent = runList db [s] sent.
Proof.
  unfold runList. cbn [forEachTx]. unfold bindTx, retTx.
  now destruct (query db s sent) as [sent' [[]|err]].
Qed.

Lemma forEachTx_runList {A : Type} (f : A -> Statement) (items : list A) sent :
  forEachTx items (fun x => query db (f x)) sent = runList db (map f items) sent.
Proof.
  revert sent. induction items as [|x items IH]; intros sent; [reflexivity|].
  unfold runList in *. cbn [forEachTx map]. apply bindTx_ext; [reflexivity|].
  intros _ s. apply IH.
Qed.

(** What [runList] sends, and how it ends. *)
Lemma runList_result (l : list Statement) sent :
  runList db l sent = (sent ++ l, inl tt)
  \/ exists k err, (1 <= k <= length l)%nat
                   /\ runList db l sent = (sent ++ firstn k l, inr err).
Proof.
  revert sent. induction l as [|s l IH]; intros sent.
  - left. unfold runList, retTx. simpl. now rewrite app_nil_r.
  - unfold runList in *. cbn [forEachTx]. unfold bindTx. rewrite query_eq.
    destruct (db sent s) as [err|].
    + right. exists 1%nat, err. split; [simpl; lia|]. reflexivity.
    + destruct (IH (sent ++ [s])) as [-> | (k & err & Hk & ->)].
      * left. now rewrite <- app_assoc.
      * right. exists (S k), err. split; [simpl; lia|].
        now rewrite <- app_assoc.
Qed.

Lemma runList_healthy (l : list Statement) sent :
  (forall sent' s, db sent' s = None) ->
  runList db l sent = (sent ++ l, inl tt).
Proof.
  intros H. revert sent. induction l as [|s l IH]; intros sent.
  - unfold runList, retTx. simpl. now rewrite app_nil_r.
  - unfold runList in *. cbn [forEachTx]. unfold bindTx. rewrite query_eq.
    rewrite H, IH. now rewrite <- app_assoc.
Qed.

End TxFacts.

(** The body of [persistPeriod] sends the statements of the transaction
    in order. *)
Lemma persistPeriod_body (rt : Runtime) (db : Database) (period : nat)
    (entries tracked : list RankedEntry) (hyperliquidSeries : SeriesMap) sent :
  persistPeriod rt db period entries tracked hyperliquidSeries sent
  = catchTx (runList db (statementsOf rt period entries tracked hyperliquidSeries))
      (fun err => query db ROLLBACK >> throwTx err) sent.
Proof.
  assert (Head : forall (k : Tx unit) rest s,
            (forall s', k s' = runList db rest s') ->
            (query db BEGIN >> query db (DELETE_ENTRIES period)
             >> query db (DELETE_POINTS period) >> k) s
            = runList db ([BEGIN; DELETE_ENTRIES period; DELETE_POINTS period] ++ rest) s).
  { intros k rest s Hk. rewrite <- runList_app.
    apply bindTx_ext; [|intros _ s'; apply Hk].
    intros s'. unfold runList. cbn [forEachTx].
    unfold bindTx, retTx.
    destruct (query db BEGIN s') as [s1 [[]|e1]]; [|reflexivity].
    destruct (query db (DELETE_ENTRIES period) s1) as [s2 [[]|e2]]; [|reflexivity].
    now destruct (query db (DELETE_POINTS period) s2) as [s3 [[]|e3]]. }
  unfold persistPeriod, catchTx.
  match goal with
  | |- (let (_, _) := ?b sent in _) = _ =>
      assert (E : b sent
                  = runList db (statementsOf rt period entries tracked hyperliquidSeries) sent)
  end.
  { unfold statementsOf. apply Head. intros s'.
    destruct entries as [|e entries'].
    - simpl. apply runList_one.
    - set (es := e :: entries').
      rewrite app_assoc, <- runList_app.
      apply bindTx_ext; [|intros _ s''; apply runList_one].
      intros s''. rewrite <- runList_app.
      apply bindTx_ext; [intros s3; apply forEachTx_runList|].
      intros _ s3. destruct tracked as [|t tracked']; [reflexivity|].
      unfold insertPnlPointsTx. apply forEachTx_runList. }
  now rewrite E.
Qed.

Lemma insertedPoints_app (a b : list Statement) :
  insertedPoints (a ++ b) = insertedPoints a ++ insertedPoints b.
Proof. apply flat_map_app. Qed.

Lemma insertedPoints_none (l : list Statement) :
  Forall (fun s => match s with INSERT_POINTS _ _ => False | _ => True end) l ->
  insertedPoints l = [].
Proof.
  induction 1 as [|s l Hs F IH]; [reflexivity|].
  unfold insertedPoints in *. cbn [flat_map]. rewrite IH.
  destruct s; try reflexivity. contradiction.
Qed.

Lemma Forall_firstn {A : Type} (P : A -> Prop) (k : nat) (l : list A) :
  Forall P l -> Forall P (firstn k l).
Proof.
  intros F. revert k. induction F as [|a l Ha F IH]; intros [|k]; simpl;
    constructor; auto.
Qed.

Lemma firstn_firstn_skipn {A : Type} (a b : nat) (l : list A) :
  firstn a l ++ firstn b (skipn a l) = firstn (a + b) l.
Proof.
  revert l. induction a as [|a IH]; intros l; [reflexivity|].
  destruct l as [|x l]; [simpl; now rewrite !firstn_nil|].
  simpl. f_equal. apply IH.
Qed.

(** The first chunks of a list make up a leading part of it. *)
Lemma chunksFuel_prefix {A : Type} (fuel size k : nat) (l : list A) :
  exists n, concat (firstn k (chunksFuel fuel size l)) = firstn n l.
Proof.
  revert k l. induction fuel as [|fuel IH]; intros k l.
  - exists 0%nat. simpl. now rewrite firstn_nil.
  - destruct l as [|x l]; [exists 0%nat; simpl; now rewrite firstn_nil|].
    destruct k as [|k]; [now exists 0%nat|].
    cbn [chunksFuel firstn concat].
    destruct (IH k (skipn size (x :: l))) as (n & ->).
    exists (size + n)%nat. apply firstn_firstn_skipn.
Qed.

Lemma insertedPoints_chunks (period k : nat) (chunks : list (list PnlPointRow)) :
  insertedPoints (firstn k (map (INSERT_POINTS period) chunks)) = concat (firstn k chunks).
Proof.
  rewrite firstn_map. unfold insertedPoints.
  now rewrite flat_map_concat_map, map_map, map_id.
Qed.

(** The points that the statements of a transaction insert: none without
    entries or without tracked entries. *)
Lemma statementsOf_points (rt : Runtime) (period k : nat) (entries tracked : list RankedEntry)
    (hyperliquidSeries : SeriesMap) :
  let points := match entries, tracked with
                | _ :: _, _ :: _ => pnlPointsToInsert rt period tracked hyperliquidSeries
                | _, _ => []
                end in
  insertedPoints (statementsOf rt period entries tracked hyperliquidSeries) = points
  /\ exists n,
       insertedPoints (firstn k (statementsOf rt period entries tracked hyperliquidSeries))
       = firstn n points.
Proof.
  cbv zeta. unfold statementsOf.
  set (H := [BEGIN; DELETE_ENTRIES period; DELETE_POINTS period]).
  set (E := map (INSERT_ENTRIES period) (chunks 100 entries)).
  set (chunked := match entries, tracked with
                  | _ :: _, _ :: _ =>
                      insertPnlPointsInTransaction rt period tracked hyperliquidSeries
                  | _, _ => []
                  end).
  set (points := match entries, tracked with
                 | _ :: _, _ :: _ => pnlPointsToInsert rt period tracked hyperliquidSeries
                 | _, _ => []
                 end).
  assert (EP : match entries, tracked with
               | _ :: _, _ :: _ =>
                   map (INSERT_POINTS period)
                     (insertPnlPointsInTransaction rt period tracked hyperliquidSeries)
               | _, _ => []
               end = map (INSERT_POINTS period) chunked).
  { unfold chunked. destruct entries; [reflexivity|]. now destruct tracked. }
  rewrite EP. clear EP.
  assert (C : chunked = chunksFuel (length points) 400 points).
  { unfold chunked, points. destruct entries; [reflexivity|]. now destruct tracked. }
  assert (NH : Forall (fun s => match s with INSERT_POINTS _ _ => False | _ => True end) H)
    by (unfold H; repeat constructor).
  assert (NE : Forall (fun s => match s with INSERT_POINTS _ _ => False | _ => True end) E).
  { unfold E. apply Forall_map. apply Forall_forall. now intros c _. }
  assert (NC : Forall (fun s => match s with INSERT_POINTS _ _ => False | _ => True end)
                 [COMMIT]) by repeat constructor.
  split.
  - rewrite !insertedPoints_app, (insertedPoints_none H NH), (insertedPoints_none E NE),
      (insertedPoints_none _ NC), app_nil_r. cbn [app].
    rewrite <- (firstn_all (map (INSERT_POINTS period) chunked)), insertedPoints_chunks.
    rewrite length_map, firstn_all, C. apply chunksFuel_concat; lia.
  - rewrite !firstn_app, !insertedPoints_app.
    rewrite (insertedPoints_none _ (Forall_firstn _ _ _ NH)),
      (insertedPoints_none _ (Forall_firstn _ _ _ NE)),
      (insertedPoints_none _ (Forall_firstn _ _ _ NC)), app_nil_r. cbn [app].
    rewrite insertedPoints_chunks, C. apply chunksFuel_prefix.
Qed.

(** C8 (amended): a [persistPeriod] transaction inserts no point when
    there are no entries or no tracked entries.  Otherwise its [INSERT]
    statements carry the points synthesized from the tracked entries
    followed by the points of the portfolio series: all of them, in that
    order and none repeated by the chunking, when the transaction commits,
    and a leading part of them when a statement is rejected and the
    transaction is rolled back.  [mergeHistories] returns at most one
    sample per timestamp (a PnL and an equity sample at one timestamp are
    merged), so the points of any one series whose timestamps are whole
    milliseconds carry pairwise distinct timestamps.  Points synthesized
    from [meta.pnlList] are not de-duplicated, nor are the points of two
    series of one address with the same window. *)
Theorem mergeHistories_one_sample_per_timestamp (series : PortfolioWindowSeries) :
  NoDupA sameKey (map sampleTs (mergeHistories series))
  /\ (forall period address,
        integralSeries series ->
        NoDup (map rowTs (seriesPoints period address series)))
  /\ (forall rt db period entries tracked hyperliquidSeries,
        let out := persistPeriod rt db period entries tracked hyperliquidSeries [] in
        let points :=
          match entries, tracked with
          | _ :: _, _ :: _ =>
              hyperbotPoints rt period tracked ++ hyperliquidPoints period hyperliquidSeries
          | _, _ => []
          end in
        (exists n, insertedPoints (fst out) = firstn n points)
        /\ (snd out = inl tt -> insertedPoints (fst out) = points)).
Proof.
  split; [apply mergeHistories_NoDupA|].
  split; [intros; now apply seriesPoints_NoDup|].
  intros rt db period entries tracked hyperliquidSeries. cbv zeta.
  rewrite persistPeriod_body. unfold catchTx.
  set (statements := statementsOf rt period entries tracked hyperliquidSeries).
  change (hyperbotPoints rt period tracked ++ hyperliquidPoints period hyperliquidSeries)
    with (pnlPointsToInsert rt period tracked hyperliquidSeries).
  destruct (runList_result db statements []) as [-> | (k & err & Hk & ->)].
  - cbn [fst snd app].
    destruct (statementsOf_points rt period 0 entries tracked hyperliquidSeries) as (E & _).
    fold statements in E. rewrite E. split; [|reflexivity].
    eexists. symmetry. apply firstn_all.
  - cbn [app]. unfold bindTx. rewrite query_eq. unfold throwTx.
    destruct (statementsOf_points rt period k entries tracked hyperliquidSeries)
      as (_ & n & E).
    fold statements in E.
    assert (R : insertedPoints (firstn k statements ++ [ROLLBACK])
                = insertedPoints (firstn k statements)).
    { rewrite insertedPoints_app. unfold insertedPoints at 2. simpl. apply app_nil_r. }
    destruct (db (firstn k statements) ROLLBACK); cbn [fst snd];
      (split; [exists n; now rewrite R | discriminate]).
Qed.

Lemma mergeHistories_one_sample_per_timestamp_witness :
  NoDup (map rowTs (seriesPoints 30 "0xa" monthSeries))
  /\ insertedPoints
       (fst (persistPeriod exampleRuntime healthyDb 30 [] [] [("0xa"%string, [monthSeries])]
               []))
     = [].
Proof.
  destruct (mergeHistories_one_sample_per_timestamp monthSeries) as (_ & H & K).
  split.
  - apply H. split; repeat constructor.
    + exists 2000%Z. reflexivity.
    + exists 1000%Z. reflexivity.
    + exists 1000%Z. reflexivity.
  - apply (K exampleRuntime healthyDb 30%nat [] [] [("0xa"%string, [monthSeries])]).
    reflexivity.
Defined.

(** X21: whatever the database does, [persistPeriod] sends the statements
    of the transaction in order, [BEGIN] first.  It returns after it has
    sent all of them, [COMMIT] last; when the database rejects one, it
    sends nothing more than [ROLLBACK] and throws. *)
Theorem persistPeriod_protocol (rt : Runtime) (db : Database) (period : nat)
    (entries tracked : list RankedEntry) (hyperliquidSeries : SeriesMap) :
  let statements := statementsOf rt period entries tracked hyperliquidSeries in
  let out := persistPeriod rt db period entries tracked hyperliquidSeries [] in
  ((snd out = inl tt /\ fst out = statements)
   \/ (exists err k,
         snd out = inr err /\ (1 <= k <= length statements)%nat
         /\ fst out = firstn k statements ++ [ROLLBACK]))
  /\ (exists rest, fst out = BEGIN :: rest)
  /\ (exists sent, statements = sent ++ [COMMIT]).
Proof.
  cbv zeta. rewrite persistPeriod_body. unfold catchTx.
  set (statements := statementsOf rt period entries tracked hyperliquidSeries).
  assert (Hd : exists rest, statements = BEGIN :: rest)
    by (unfold statements, statementsOf; simpl; eauto).
  destruct Hd as (rest & Hd).
  destruct (runList_result db statements []) as [-> | (k & err & Hk & ->)].
  - simpl. split; [left; now split|]. split; [eauto|].
    unfold statements, statementsOf.
    eexists. rewrite !app_assoc. reflexivity.
  - cbn [fst snd app]. unfold bindTx. rewrite query_eq. unfold throwTx.
    split; [|split].
    + right. destruct (db (firstn k statements) ROLLBACK) as [err'|];
        [exists err', k | exists err, k]; cbn [fst snd]; repeat split; lia.
    + rewrite Hd. destruct k as [|k]; [lia|]. cbn [firstn app].
      destruct (db _ ROLLBACK); cbn [fst]; eauto.
    + unfold statements, statementsOf.
      eexists. rewrite !app_assoc. reflexivity.
Qed.

Lemma chunksFuel_bounds {A : Type} (fuel size : nat) (l : list A) :
  (1 <= size)%nat ->
  Forall (fun chunk => (1 <= length chunk <= size)%nat) (chunksFuel fuel size l).
Proof.
  intros Hs. revert l. induction fuel as [|fuel IH]; intros l; [constructor|].
  destruct l as [|x l]; [constructor|].
  cbn [chunksFuel]. constructor; [|apply IH].
  rewrite length_firstn. simpl length. lia.
Qed.

Lemma flat_map_nil {A B : Type} (f : A -> list B) (l : list A) :
  (forall a, In a l -> f a = []) -> flat_map f l = [].
Proof.
  induction l as [|a l IH]; intros H; [reflexivity|].
  simpl. rewrite (H a) by now left. apply IH. intros b Hb. apply H. now right.
Qed.

(** X22: on a database that accepts every statement, [persistPeriod]
    returns normally.  Every [INSERT] into [hl_leaderboard_entries]
    carries between 1 and 100 rows and every [INSERT] into
    [hl_leaderboard_pnl_points] between 1 and 400; the rows inserted are
    the entries, each once and in order, and (when there are entries and
    tracked entries) the points of the tracked entries and of the series;
    without entries the two [DELETE]s of the period are committed and
    nothing is inserted. *)
Theorem persistPeriod_commits (rt : Runtime) (db : Database) (period : nat)
    (entries tracked : list RankedEntry) (hyperliquidSeries : SeriesMap) :
  (forall sent statement, db sent statement = None) ->
  let out := persistPeriod rt db period entries tracked hyperliquidSeries [] in
  snd out = inl tt
  /\ Forall rowsWithin (fst out)
  /\ insertedEntries (fst out) = entries
  /\ insertedPoints (fst out)
     = match entries, tracked with
       | _ :: _, _ :: _ => pnlPointsToInsert rt period tracked hyperliquidSeries
       | _, _ => []
       end
  /\ (entries = [] ->
      fst out = [BEGIN; DELETE_ENTRIES period; DELETE_POINTS period; COMMIT]).
Proof.
  intros Healthy. cbv zeta. rewrite persistPeriod_body. unfold catchTx.
  rewrite (runList_healthy db _ [] Healthy). cbn [fst snd app].
  split; [reflexivity|].
  assert (Points : concat (insertPnlPointsInTransaction rt period tracked hyperliquidSeries)
                   = pnlPointsToInsert rt period tracked hyperliquidSeries).
  { unfold insertPnlPointsInTransaction, chunks. apply chunksFuel_concat; lia. }
  assert (Pts : map (INSERT_POINTS period)
                  (insertPnlPointsInTransaction rt period tracked hyperliquidSeries)
                = map (INSERT_POINTS period)
                    (insertPnlPointsInTransaction rt period tracked hyperliquidSeries))
    by reflexivity.
  unfold statementsOf.
  set (E := map (INSERT_ENTRIES period) (chunks 100 entries)).
  set (P := match entries, tracked with
            | _ :: _, _ :: _ =>
                map (INSERT_POINTS period)
                  (insertPnlPointsInTransaction rt period tracked hyperliquidSeries)
            | _, _ => []
            end).
  assert (FE : Forall rowsWithin E).
  { unfold E, chunks. apply Forall_map.
    eapply Forall_impl; [|apply (chunksFuel_bounds _ 100); lia]. now intros chunk H. }
  assert (FP : Forall rowsWithin P).
  { unfold P. destruct entries; [constructor|]. destruct tracked; [constructor|].
    unfold insertPnlPointsInTransaction, chunks. apply Forall_map.
    eapply Forall_impl; [|apply (chunksFuel_bounds _ 400); lia]. now intros chunk H. }
  assert (IE : insertedEntries E = entries /\ insertedPoints E = []).
  { unfold E, insertedEntries, insertedPoints. split.
    - rewrite flat_map_concat_map, map_map, map_id.
      unfold chunks. apply chunksFuel_concat; lia.
    - apply flat_map_nil. intros s Hs. apply in_map_iff in Hs.
      now destruct Hs as (c & <- & _). }
  assert (IP : insertedEntries P = []
               /\ insertedPoints P
                  = match entries, tracked with
                    | _ :: _, _ :: _ => pnlPointsToInsert rt period tracked hyperliquidSeries
                    | _, _ => []
                    end).
  { unfold P. destruct entries; [now split|]. destruct tracked; [now split|].
    unfold insertedEntries, insertedPoints. split.
    - apply flat_map_nil. intros s Hs. apply in_map_iff in Hs.
      now destruct Hs as (c & <- & _).
    - rewrite flat_map_concat_map, map_map, map_id. exact Points. }
  destruct IE as (IE1 & IE2), IP as (IP1 & IP2).
  repeat match goal with |- _ /\ _ => split end.
  - repeat constructor. apply Forall_app. split; [exact FE|].
    apply Forall_app. split; [exact FP | repeat constructor].
  - unfold insertedEntries in *. cbn [app flat_map].
    rewrite !flat_map_app. cbn [flat_map]. rewrite IE1, IP1. now rewrite !app_nil_r.
  - unfold insertedPoints in *. cbn [app flat_map].
    rewrite !flat_map_app. cbn [flat_map]. rewrite IE2, IP2. now rewrite !app_nil_r.
  - intros ->. reflexivity.
Qed.

Lemma persistPeriod_commits_witness :
  let ranked := scoreEntries exampleRuntime Scoring.DEFAULT_SCORING_PARAMS (Fin 200) 12
                  doubledPoint in
  snd (persistPeriod exampleRuntime healthyDb 30 ranked ranked [] []) = inl tt.
Proof.
  exact (proj1 (persistPeriod_commits exampleRuntime healthyDb 30 _ _ []
                  (fun _ _ => eq_refl))).
Defined.

(* ================================================================== *)
(** ** Phase 1: the weights follow the ranking *)
(* ================================================================== *)

Lemma weightsFrom_bounds (K : nat) (v : RankedEntry -> Q) (t : Q) (i : nat)
    (l : list RankedEntry) :
  0 < t -> Forall (fun e => 0 <= v e) l -> weightsFrom K v t i l ->
  Forall (fun e => 0 <= toQ (weight e) <= v e / t) l.
Proof.
  intros Ht F. revert i. induction F as [|e l He F IH]; intros i W; [constructor|].
  destruct W as (We & W). constructor; [|now apply (IH (S i))].
  destruct (isNum_inv _ _ We) as (p & -> & Ep). simpl. rewrite Ep.
  assert (D : 0 <= v e / t) by (apply Qle_shift_div_l; lra).
  destruct (i <? K)%nat; lra.
Qed.

Lemma weightsFrom_zero (K : nat) (v : RankedEntry -> Q) (t : Q) (i : nat)
    (l : list RankedEntry) :
  (K <= i)%nat -> weightsFrom K v t i l -> Forall (fun e => toQ (weight e) == 0) l.
Proof.
  revert i. induction l as [|e l IH]; intros i Hi W; [constructor|].
  destruct W as (We & W). constructor; [|apply (IH (S i)); [lia | exact W]].
  assert (E : (i <? K)%nat = false) by (apply Nat.ltb_ge; lia).
  rewrite E in We. destruct (isNum_inv _ _ We) as (p & -> & Ep). exact Ep.
Qed.

Lemma weightsFrom_sorted (K : nat) (v : RankedEntry -> Q) (t : Q) (i : nat)
    (l : list RankedEntry) :
  0 < t -> Forall (fun e => 0 <= v e) l ->
  StronglySorted (fun a b => v b <= v a) l ->
  weightsFrom K v t i l -> StronglySorted weightGe l.
Proof.
  intros Ht F Srt. revert i. induction Srt as [|e l Srt IH Hv]; intros i W; [constructor|].
  inversion F as [|? ? He Fl]; subst. destruct W as (We & W).
  constructor; [now apply (IH Fl (S i))|].
  destruct (isNum_inv _ _ We) as (p & Ep & Eq).
  destruct (i <? K)%nat eqn:Ei.
  - pose proof (weightsFrom_bounds K v t (S i) l Ht Fl W) as B.
    rewrite Forall_forall in *. intros x Hx.
    specialize (B x Hx). specialize (Hv x Hx). cbv beta in Hv.
    unfold weightGe. rewrite Ep. simpl. rewrite Eq.
    assert (D : v x / t <= v e / t).
    { apply Qle_shift_div_l; [exact Ht|].
      assert (X : v x / t * t == v x) by (field; lra). lra. }
    lra.
  - apply Nat.ltb_ge in Ei.
    pose proof (weightsFrom_zero K v t (S i) l ltac:(lia) W) as Z.
    eapply Forall_impl; [|exact Z]. intros x Hx. cbv beta in Hx.
    unfold weightGe. rewrite Ep. simpl. rewrite Hx, Eq. lra.
Qed.

(** X23: in the list returned by [scoreEntries] the weights never
    increase along the ranking: an entry ranked before another has at
    least its weight. *)
Theorem scoreEntries_weights_descending (rt : Runtime)
    (scoringParams : Scoring.ScoringParams) (maxTradesHardLimit : num) (selectCount : nat)
    (raw : list Raw.LeaderboardRawEntry) :
  StronglySorted weightGe
    (scoreEntries rt scoringParams maxTradesHardLimit selectCount raw).
Proof.
  unfold scoreEntries.
  set (l := sort byScoreDesc (scoredOrFallback rt scoringParams maxTradesHardLimit raw)).
  assert (F : Forall (fun e => isFinite (score e) = true) l)
    by apply sorted_finite.
  assert (S : StronglySorted scoreGe l)
    by (apply sort_byScoreDesc, scoredOrFallback_finite).
  destruct (totalScore_spec selectCount l F) as (_ & t & Ht & tpos & _).
  unfold rankAndWeigh, mapi. rewrite Ht.
  set (out := mapiFrom (rankWeight selectCount (Fin t)) 0 l).
  assert (W : weightsFrom selectCount (fun e : RankedEntry => positivePart e) t 0 out)
    by (apply rankWeight_weights; [exact F | lra]).
  assert (Fo : Forall (fun e : RankedEntry => isFinite (score e) = true) out)
    by exact (rankWeight_Forall selectCount (fun e => isFinite (score e) = true) _ _ _ F).
  apply (weightsFrom_sorted selectCount (fun e : RankedEntry => positivePart e) t 0 out tpos).
  - eapply Forall_impl; [|exact Fo]. intros e He.
    now destruct (positivePart_spec e He) as (_ & H & _).
  - apply (StronglySorted_map entry (fun a b => positivePart b <= positivePart a)).
    unfold out. rewrite rankWeight_entries.
    assert (M : forall a b : ScoredEntry,
              isFinite (score a) = true -> isFinite (score b) = true ->
              scoreGe a b -> positivePart b <= positivePart a).
    { intros a b Fa Fb G. unfold scoreGe in G. unfold positivePart.
      destruct (isFinite_inv _ Fa) as (x & Ex), (isFinite_inv _ Fb) as (y & Ey).
      rewrite Ex, Ey in *. simpl in G.
      destruct (max_Fin x 0) as (c & Hc & C1 & C2 & [-> | ->]);
        destruct (max_Fin y 0) as (d & Hd & D1 & D2 & [-> | ->]);
        unfold JS.zero; rewrite Hc, Hd; simpl; lra. }
    clear -S F M. induction S as [|a l S IH Ha]; [constructor|].
    inversion F as [|? ? Fa Fl]; subst.
    constructor; [now apply IH|].
    rewrite Forall_forall in *. intros b Hb. apply M; auto.
  - exact W.
Qed.

(* ================================================================== *)
(** ** Phase 1: the range of the scores *)
(* ================================================================== *)

(** X24: with weights that are finite and not negative, every score in
    the list returned by [scoreEntries] is a number between 0 and the sum
    of the four weights; the entries emitted by a hard filter have the
    score 0. *)
Theorem scoreEntries_score_range (rt : Runtime) (scoringParams : Scoring.ScoringParams)
    (maxTradesHardLimit : num) (selectCount : nat)
    (raw : list Raw.LeaderboardRawEntry) (a b c d : Q) :
  RuntimeLaws rt -> unitExp rt ->
  Scoring.smoothPnlWeight scoringParams = Fin a ->
  Scoring.winRateWeight scoringParams = Fin b ->
  Scoring.pnlWeight scoringParams = Fin c ->
  Scoring.tradeFreqWeight scoringParams = Fin d ->
  0 <= a -> 0 <= b -> 0 <= c -> 0 <= d ->
  Forall (fun e : RankedEntry => within 0 (a + b + c + d) (score e))
    (scoreEntries rt scoringParams maxTradesHardLimit selectCount raw).
Proof.
  intros laws U Ea Eb Ec Ed Ha Hb Hc Hd.
  apply (Forall_map entry (fun e => within 0 (a + b + c + d) (score e))).
  rewrite scoreEntries_entries. apply sort_Forall.
  apply Forall_forall. intros e He.
  apply scoredOrFallback_incl in He. unfold base in He.
  apply filter_In in He. destruct He as (He & _).
  apply in_map_iff in He. destruct He as (r & <- & _).
  unfold scoreEntry.
  destruct (_ >? _)%num; [simpl; lra|].
  destruct (_ >? _)%num; [simpl; lra|].
  cbv zeta. cbn [score]. now apply performanceScore_within.
Qed.

Lemma scoreEntries_score_range_witness :
  Forall (fun e : RankedEntry => within 0 (0.45 + 0.30 + 0.15 + 0.10) (score e))
    (scoreEntries exampleRuntime Scoring.DEFAULT_SCORING_PARAMS (Fin 200) 12
       blownUpAndPerfect).
Proof.
  apply (scoreEntries_score_range exampleRuntime Scoring.DEFAULT_SCORING_PARAMS (Fin 200) 12
           blownUpAndPerfect 0.45 0.30 0.15 0.10
           exampleRuntime_laws exampleRuntime_unitExp);
    try reflexivity; lra.
Defined.

(* ================================================================== *)
(** ** The refresh cycle without statistics *)
(* ================================================================== *)

Lemma filter_forallb {A : Type} (f : A -> bool) (l : list A) :
  forallb f l = true -> filter f l = l.
Proof.
  induction l as [|a l IH]; [reflexivity|]. simpl. intros H.
  apply andb_true_iff in H. destruct H as (-> & H). now rewrite IH.
Qed.

Lemma max_not_above (a b limit : num) :
  (a >? limit)%num = false -> (b >? limit)%num = false ->
  (JS.max a b >? limit)%num = false.
Proof.
  intros Ha Hb. unfold JS.max.
  destruct (JS.compare a b) as [[| |]|]; try assumption.
  unfold JS.gt, JS.lt. now destruct limit.
Qed.

Lemma performanceScore_drawdown (rt : Runtime) (stats : Scoring.AccountStats)
    (params : Scoring.ScoringParams) :
  (0 >? Scoring.maxDrawdownLimit params)%num = false ->
  Scoring.filtered (Scoring.computePerformanceScore rt stats params) = false ->
  (Scoring.maxDrawdown (Scoring.details (Scoring.computePerformanceScore rt stats params))
   >? Scoring.maxDrawdownLimit params)%num = false.
Proof.
  intros H0. unfold Scoring.computePerformanceScore.
  destruct (negb (isFinite (Scoring.numTrades stats)) || _); [intros _; exact H0|].
  destruct (negb (isFinite (Scoring.numWins stats)) || _); [intros _; exact H0|].
  destruct (negb (isFinite (Scoring.numLosses stats)) || _); [intros _; exact H0|].
  destruct (Scoring.sp_maxDrawdown _ >? _)%num eqn:G; [discriminate|]. intros _. exact G.
Qed.

Section WithoutStats.
Variable rt : Runtime.
Variable scoringParams : Scoring.ScoringParams.
Variable maxTradesHardLimit : num.
Variable selectCount : nat.
Variable enrichCount : nat.

(** An entry that phase 1 did not flag passes the filter of phase 2 as it
    is. *)
Lemma scoreEntry_kept (r : Raw.LeaderboardRawEntry) :
  (0 >? Scoring.maxDrawdownLimit scoringParams)%num = false ->
  isFiltered (scoreEntry rt scoringParams maxTradesHardLimit r) = false ->
  (statMaxDrawdown (scoreEntry rt scoringParams maxTradesHardLimit r) ?? 0%num
   >? Scoring.maxDrawdownLimit scoringParams)%num = false.
Proof.
  intros H0. unfold scoreEntry.
  destruct (apiMaxDrawdownOf r >? maxDrawdownLimit scoringParams)%num eqn:G1;
    [discriminate|].
  destruct (_ >? maxTradesHardLimit)%num; [discriminate|].
  cbv zeta. unfold isFiltered. cbn [filtered statMaxDrawdown JS.nullish].
  intros F. apply max_not_above; [exact G1|].
  now apply performanceScore_drawdown.
Qed.

Lemma applyAddressStats_none (statsMap : StatsMap) (l : list RankedEntry) :
  (forall e : RankedEntry, In e l -> statsMap (toLowerCase (address e)) = None) ->
  applyAddressStats statsMap l = l.
Proof.
  intros H. unfold applyAddressStats.
  rewrite <- (map_id l) at 2. apply map_ext_in. intros e He. now rewrite (H e He).
Qed.

End WithoutStats.

(** X25: when no statistics arrive for any entry (every request of the
    batch failed or answered without data) and phase 1 kept at least one
    entry, phase 2 changes nothing: the list of [scoreEntries] is
    persisted as it is, with its ranks and weights (for a drawdown limit
    that is not negative). *)
Theorem refreshPeriod_without_stats (rt : Runtime) (scoringParams : Scoring.ScoringParams)
    (maxTradesHardLimit : num) (selectCount enrichCount : nat)
    (raw : list Raw.LeaderboardRawEntry) (statsMap : StatsMap) (series : SeriesMap) :
  let ranked := scoreEntries rt scoringParams maxTradesHardLimit selectCount raw in
  (0 >? Scoring.maxDrawdownLimit scoringParams)%num = false ->
  survivors rt scoringParams maxTradesHardLimit raw <> [] ->
  (forall e : RankedEntry, In e ranked -> statsMap (toLowerCase (address e)) = None) ->
  let out := refreshPeriod rt scoringParams maxTradesHardLimit selectCount enrichCount
               raw statsMap series in
  entries out = ranked
  /\ tracked out = firstn enrichCount ranked
  /\ published out = firstn selectCount ranked.
Proof.
  intros ranked H0 Hs Hnone out.
  assert (Keep : filter (keepEnriched scoringParams) ranked = ranked).
  { apply filter_forallb.
    apply forallb_forall. intros e He.
    pose proof (scoreEntries_In_scored rt scoringParams maxTradesHardLimit selectCount
                  raw e He) as Hin.
    unfold scoredOrFallback in Hin.
    destruct (survivors rt scoringParams maxTradesHardLimit raw) eqn:S; [contradiction|].
    rewrite <- S in Hin.
    pose proof (survivors_unfiltered _ _ _ _ _ Hin) as Hf.
    apply survivors_incl in Hin. unfold base in Hin. apply filter_In in Hin.
    destruct Hin as (Hin & _). apply in_map_iff in Hin. destruct Hin as (r & Er & _).
    unfold keepEnriched. apply negb_true_iff. rewrite <- Er in *.
    now apply scoreEntry_kept. }
  assert (En : forall n, enrich statsMap n ranked = ranked).
  { intros n. unfold enrich. rewrite applyAddressStats_none; [apply firstn_skipn|].
    intros e He. apply Hnone. now apply In_take in He. }
  assert (E : entries out = ranked).
  { unfold out. rewrite refreshPeriod_entries. cbv zeta. fold ranked.
    rewrite En, Keep, Nat.sub_diag. now destruct (firstn _ ranked). }
  split; [exact E|].
  unfold out, refreshPeriod in *. fold ranked in E |- *. cbv zeta in *.
  rewrite En, Keep, Nat.sub_diag in *.
  destruct (firstn _ ranked); cbn [tracked published entries] in *; now split.
Qed.

Lemma refreshPeriod_without_stats_witness :
  entries (refreshPeriod exampleRuntime Scoring.DEFAULT_SCORING_PARAMS (Fin 200) 2 2
             threeIdle noEnrichment [])
  = scoreEntries exampleRuntime Scoring.DEFAULT_SCORING_PARAMS (Fin 200) 2 threeIdle.
Proof.
  refine (proj1 (refreshPeriod_without_stats exampleRuntime Scoring.DEFAULT_SCORING_PARAMS
                   (Fin 200) 2 2 threeIdle noEnrichment [] _ _ _)).
  - reflexivity.
  - vm_compute. discriminate.
  - reflexivity.
Defined.

(* ================================================================== *)
(** ** The leaderboard service: [computeConsistency] *)
(* ================================================================== *)

Lemma differences_finite (values : list num) :
  Forall (fun v => isFinite v = true) values ->
  Forall (fun v => isFinite v = true) (differences values).
Proof.
  intros F. induction F as [|a l Ha F IH]; [constructor|].
  destruct l as [|b l]; [constructor|].
  cbn [differences]. inversion F as [|? ? Hb _]; subst.
  constructor; [|exact IH].
  destruct (isFinite_inv _ Ha) as (x & ->), (isFinite_inv _ Hb) as (y & ->). reflexivity.
Qed.

Lemma differences_length (values : list num) :
  length (differences values) = pred (length values).
Proof.
  induction values as [|a [|b l] IH]; try reflexivity.
  cbn [differences length] in *. now rewrite IH.
Qed.

Lemma sum_squares_finite (diffs : list num) (s : Q) :
  Forall (fun v => isFinite v = true) diffs -> 0 <= s ->
  exists t, fold_left (fun sum d => (sum + d * d)%num) diffs (Fin s) = Fin t /\ 0 <= t.
Proof.
  intros F. revert s. induction F as [|d l Hd F IH]; intros s Hs; cbn [fold_left].
  - exists s. now split.
  - destruct (isFinite_inv _ Hd) as (x & ->). rewrite mul_Fin, add_Fin.
    apply IH. nra.
Qed.

Lemma filter_finite (l : list num) : Forall (fun v => isFinite v = true) (filter isFinite l).
Proof. apply Forall_forall. intros v Hv. now apply filter_In in Hv. Qed.

(** X26: [computeConsistency] returns 0.5 when fewer than three values of
    the series are numeric, and otherwise NaN or a number between 0 and 1;
    it is a number between 0 and 1 when the last numeric value is no
    farther from the first than [Number.MAX_VALUE], so that the slope is
    finite. *)
Theorem computeConsistency_range (rt : Runtime) (atanQ : Q -> Q)
    (input : option (list Raw.PnlItem)) :
  let values :=
    filter isFinite (map (fun p => StringToNumber rt (Raw.value p)) (input ?? [])) in
  let result := computeConsistency rt atanQ input in
  nanOrWithin 0 1 result
  /\ ((length values < 3)%nat -> result = Fin 0.5)
  /\ (inDoubleRange (toQ (List.last values NaN) - toQ (hd NaN values)) ->
      within 0 1 result).
Proof.
  cbv zeta.
  assert (Exact :
            within 0 1 (computeConsistency rt atanQ input)
            /\ ((length (filter isFinite
                           (map (fun p => StringToNumber rt (Raw.value p)) (input ?? [])))
                 < 3)%nat ->
                computeConsistency rt atanQ input = Fin 0.5)).
  { unfold computeConsistency.
    destruct input as [[|p l]|]; try (split; [simpl; lra | reflexivity]).
    cbn [JS.nullish]. cbv zeta.
    set (values := filter isFinite (map _ (p :: l))).
    destruct (length values <? 3)%nat eqn:L3; [split; [simpl; lra | reflexivity]|].
    apply Nat.ltb_ge in L3. split; [|intros H; lia].
    assert (F : Forall (fun v => isFinite v = true) values) by apply filter_finite.
    (* the slope *)
    assert (Sl : exists sl, ((List.last values NaN - hd NaN values)
                             / JS.max (JS.abs (hd NaN values) + 1) 1)%num = Fin sl).
    { assert (Nv : values <> []) by (destruct values; [simpl in L3; lia | discriminate]).
      pose proof (last_finite values NaN F Nv) as Hl.
      rewrite Forall_forall in F.
      destruct (isFinite_inv _ (F _ Hl)) as (x & ->).
      assert (Hh : In (hd NaN values) values) by (destruct values; [contradiction | now left]).
      destruct (isFinite_inv _ (F _ Hh)) as (y & ->).
      cbn [JS.abs]. unfold JS.one. rewrite sub_Fin, add_Fin.
      destruct (max_Fin (Qabs y + 1) 1) as (c & -> & C1 & C2 & _).
      rewrite div_Fin by lra. eauto. }
    destruct Sl as (sl & ->).
    (* the deviation *)
    assert (Sd : exists sd,
              or_else
                (JS.sqrt rt
                   (or_else (fold_left (fun sum d => (sum + d * d)%num) (differences values) 0%num
                             / of_nat (length (differences values)))%num 0%num))
                1%num = Fin sd /\ ~ sd == 0).
    { destruct (sum_squares_finite (differences values) 0 (differences_finite _ F))
        as (t & Ht & Ht0); [lra|].
      unfold JS.zero at 1. rewrite Ht, differences_length.
      assert (P : 0 < inject_Z (Z.of_nat (pred (length values))))
        by (apply of_nat_pos; lia).
      unfold of_nat. rewrite div_Fin by lra.
      assert (V : exists v, or_else (Fin (t / inject_Z (Z.of_nat (pred (length values)))))
                              0%num = Fin v /\ 0 <= v).
      { unfold or_else, truthy.
        destruct (negb _); [|exists 0; split; [reflexivity | lra]].
        eexists. split; [reflexivity|]. apply Qle_shift_div_l; lra. }
      destruct V as (v & -> & Hv).
      rewrite sqrt_Fin_nonneg by exact Hv.
      unfold or_else, truthy.
      destruct (Qeq_bool (sqrtQ rt v) 0) eqn:E; simpl.
      - exists 1. split; [reflexivity | lra].
      - exists (sqrtQ rt v). split; [reflexivity|]. now apply Qeq_bool_false_iff. }
    destruct Sd as (sd & -> & Hsd).
    rewrite div_Fin by exact Hsd. cbn [atan].
    assert (Pi : ~ PI == 0) by (unfold PI, Qeq; simpl; lia).
    rewrite div_Fin by exact Pi. rewrite add_Fin.
    unfold clamp.
    pose proof (clamp01_range (Fin (0.5 + atanQ (sl / sd) / PI))) as R.
    destruct (JS.min 1 (JS.max 0 (Fin (0.5 + atanQ (sl / sd) / PI)))) as [| | |q] eqn:E;
      try contradiction.
    - destruct (max_Fin 0 (0.5 + atanQ (sl / sd) / PI)) as (c & Hc & _).
      unfold JS.zero in E. rewrite Hc in E.
      destruct (min_Fin 1 c) as (d & Hd & _). unfold JS.one in E. rewrite Hd in E.
      discriminate E.
    - exact R. }
  destruct Exact as (W & H).
  split; [now apply within_nanOrWithin|]. split; [exact H | intros _; exact W].
Qed.

Lemma computeConsistency_range_witness :
  within 0 1 (computeConsistency exampleRuntime atanApprox (Some threePoints)).
Proof.
  destruct (computeConsistency_range exampleRuntime atanApprox (Some threePoints))
    as (_ & _ & H).
  apply H. vm_compute. discriminate.
Defined.

(* ================================================================== *)
(** ** The leaderboard service: custom accounts *)
(* ================================================================== *)

Lemma finiteNumber_finite (rt : Runtime) (v : JsVal) (field : option num) :
  finiteNumber rt v = Returned field -> finiteIfPresent field.
Proof.
  rewrite finiteNumber_spec. destruct (throwsTypeError v); [discriminate|].
  intros H. inversion H; subst.
  destruct (isFinite (coerced rt v)) eqn:E; simpl; auto.
Qed.

(** The statistics that [fetchAddressStat] returns have finite counts,
    duration, PnL and drawdown. *)
Lemma fetchAddressStat_finite (rt : Runtime) (upstream : Upstream) (address : string)
    (period : nat) (stats : AddressStats.AddressStats) :
  fetchAddressStat rt upstream address period = Returned (Some stats) ->
  finiteIfPresent (AddressStats.openPosCount stats)
  /\ finiteIfPresent (AddressStats.closePosCount stats)
  /\ finiteIfPresent (AddressStats.avgPosDuration stats)
  /\ finiteIfPresent (AddressStats.totalPnl stats)
  /\ finiteIfPresent (AddressStats.maxDrawdown stats).
Proof.
  intros H. apply fetchAddressStat_Some in H. destruct H as (data & E).
  pose proof (addressStatsOf_spec rt data) as S.
  destruct (throwingData data); [congruence|].
  destruct S as (st & Es & _ & Ho & Hc & Ha & Ht & Hm).
  rewrite Es in E. inversion E; subst.
  repeat split; eapply finiteNumber_finite; eassumption.
Qed.

Lemma nullish_finite (x : option num) (d : num) :
  finiteIfPresent x -> isFinite d = true -> isFinite (x ?? d) = true.
Proof. destruct x; simpl; auto. Qed.

(** X27: the entry that [fetchAndStoreCustomAccountStats] stores for a
    custom account has the rank 9999, the score 0 and the weight 0; its
    realized PnL, efficiency and statistics are finite numbers (or [null],
    for the statistics) and its executed orders, the sum of two finite
    counts, are not NaN, whatever the endpoint answered; the win rate is
    taken over as it was received. *)
Theorem fetchAndStoreCustomAccountStats_entry (rt : Runtime) (upstream : Upstream)
    (period : nat) (stored : bool) (address : string) (nickname : option string)
    (now : string) (e : Custom.CustomEntry) :
  fetchAndStoreCustomAccountStats rt upstream period stored address nickname now = Some e ->
  Custom.rank e = 9999%Z /\ Custom.score e = 0%num /\ Custom.weight e = 0%num
  /\ isNaN (Custom.executedOrders e) = false
  /\ isFinite (Custom.realizedPnl e) = true
  /\ isFinite (Custom.efficiency e) = true
  /\ finiteIfPresent (Custom.statOpenPositions e)
  /\ finiteIfPresent (Custom.statClosedPositions e)
  /\ finiteIfPresent (Custom.statAvgPosDuration e)
  /\ finiteIfPresent (Custom.statTotalPnl e)
  /\ finiteIfPresent (Custom.statMaxDrawdown e).
Proof.
  unfold fetchAndStoreCustomAccountStats. cbv zeta.
  destruct stored; [|discriminate]. intros H. inversion H; subst. clear H.
  set (stats := match fetchAddressStat rt upstream _ period with
                | Returned r => r
                | Thrown _ => None
                end).
  assert (F : finiteIfPresent (statField stats AddressStats.openPosCount)
              /\ finiteIfPresent (statField stats AddressStats.closePosCount)
              /\ finiteIfPresent (statField stats AddressStats.avgPosDuration)
              /\ finiteIfPresent (statField stats AddressStats.totalPnl)
              /\ finiteIfPresent (statField stats AddressStats.maxDrawdown)).
  { unfold stats.
    destruct (fetchAddressStat rt upstream _ period) as [[s|]|err] eqn:E;
      try (simpl; tauto).
    simpl. exact (fetchAddressStat_finite rt upstream _ period s E). }
  destruct F as (Fo & Fc & Fa & Ft & Fm).
  unfold customAccountEntry. cbv zeta.
  cbn [Custom.rank Custom.score Custom.weight Custom.executedOrders Custom.realizedPnl
       Custom.efficiency Custom.statOpenPositions Custom.statClosedPositions
       Custom.statAvgPosDuration Custom.statTotalPnl Custom.statMaxDrawdown].
  repeat match goal with |- _ /\ _ => split end; try reflexivity; try assumption.
  - pose proof (nullish_finite _ 0%num Fo eq_refl) as A.
    pose proof (nullish_finite _ 0%num Fc eq_refl) as B.
    destruct (isFinite_inv _ A) as (x & ->), (isFinite_inv _ B) as (y & ->). reflexivity.
  - now apply nullish_finite.
  - destruct (statField stats AddressStats.totalPnl) as [t|]; [|reflexivity].
    destruct (statField stats AddressStats.closePosCount) as [c|];
      [|simpl; rewrite andb_false_r; reflexivity].
    simpl in Ft, Fc.
    destruct (isFinite_inv _ Ft) as (x & ->), (isFinite_inv _ Fc) as (y & ->).
    destruct (truthyOpt (Some (Fin x)) && truthyOpt (Some (Fin y))); [|reflexivity].
    cbn [JS.nullish]. destruct (max_Fin 1 y) as (m & Hm & M1 & _).
    unfold JS.one. rewrite Hm, div_Fin by lra. reflexivity.
Qed.

Lemma fetchAndStoreCustomAccountStats_entry_witness :
  exists e,
    fetchAndStoreCustomAccountStats exampleRuntime knowsOne 30 true "0xA" None "now"
    = Some e
    /\ isFinite (Custom.efficiency e) = true.
Proof.
  eexists. split; [reflexivity|].
  apply (fetchAndStoreCustomAccountStats_entry exampleRuntime knowsOne 30 true "0xA"
           None "now" _ eq_refl).
Defined.

(* ================================================================== *)
(** ** The persister: the points belong to the period *)
(* ================================================================== *)

Lemma somes_In {A : Type} (l : list (option A)) (a : A) : In a (somes l) <-> In (Some a) l.
Proof.
  induction l as [|[x|] l IH]; simpl; [tauto | |].
  - rewrite IH. split; intros [H | H]; auto; left; congruence.
  - rewrite IH. split; [auto | intros [H | H]; [discriminate | exact H]].
Qed.

(** X28: every point that [insertPnlPointsInTransaction] inserts belongs
    to the period of the transaction: a point of source hyperbot carries
    the window of the period, the lower-cased address of a tracked entry
    and no equity; a point of source hyperliquid comes from a portfolio
    window that maps to the period. *)
Theorem insertPnlPoints_of_period (rt : Runtime) (period : nat)
    (tracked : list RankedEntry) (hyperliquidSeries : SeriesMap) :
  Forall (Forall (pointOfPeriod period))
    (insertPnlPointsInTransaction rt period tracked hyperliquidSeries)
  /\ Forall (fun row => exists e : RankedEntry,
                          In e tracked /\ rowAddress row = toLowerCase (address e))
       (hyperbotPoints rt period tracked).
Proof.
  assert (H1 : Forall (fun row => pointOfPeriod period row
                                  /\ exists e : RankedEntry,
                                       In e tracked
                                       /\ rowAddress row = toLowerCase (address e))
                 (hyperbotPoints rt period tracked)).
  { apply Forall_forall. intros row Hr. unfold hyperbotPoints in Hr.
    apply in_flat_map in Hr. destruct Hr as (e & He & Hr).
    apply somes_In in Hr. apply in_map_iff in Hr. destruct Hr as (p & Hp & _).
    unfold hyperbotPoint in Hp.
    destruct (negb (isFinite (Raw.timestamp p))); [discriminate|].
    destruct (Date (Raw.timestamp p)); [|discriminate].
    inversion Hp; subst. split; [now split | exists e; now split]. }
  assert (H2 : Forall (pointOfPeriod period) (hyperliquidPoints period hyperliquidSeries)).
  { apply Forall_forall. intros row Hr. unfold hyperliquidPoints in Hr.
    apply in_flat_map in Hr. destruct Hr as ([a l] & _ & Hr).
    apply in_flat_map in Hr. destruct Hr as (s & _ & Hr).
    unfold seriesPoints in Hr.
    destruct (windowMatches (window s) period) eqn:W; [|contradiction].
    apply somes_In in Hr. apply in_map_iff in Hr. destruct Hr as (x & Hx & _).
    unfold samplePoint in Hx. destruct (Date (sampleTs x)); [|discriminate].
    inversion Hx; subst. exists (window s). now split. }
  split.
  - assert (All : Forall (pointOfPeriod period)
                    (concat (insertPnlPointsInTransaction rt period tracked
                               hyperliquidSeries))).
    { rewrite insertPnlPoints_rows. apply Forall_app. split; [|exact H2].
      eapply Forall_impl; [|exact H1]. now intros row (P & _). }
    rewrite Forall_concat in All. exact All.
  - eapply Forall_impl; [|exact H1]. now intros row (_ & P).
Qed.

(* ================================================================== *)
(** ** The refresh cycle: the win rate of the persisted entries *)
(* ================================================================== *)

Lemma scoreEntry_winRate (rt : Runtime) (scoringParams : Scoring.ScoringParams)
    (maxTradesHardLimit : num) (r : Raw.LeaderboardRawEntry) :
  nanOrWithin 0 1 (winRate (scoreEntry rt scoringParams maxTradesHardLimit r)).
Proof.
  unfold scoreEntry.
  destruct (_ >? _)%num; [apply clamp01_range|].
  destruct (_ >? _)%num; apply clamp01_range.
Qed.

Lemma applyStatsToEntry_winRate (e : RankedEntry) (stats : AddressStats.AddressStats) :
  nanOrWithin 0 1 (winRate e) -> nanOrWithin 0 1 (winRate (applyStatsToEntry e stats)).
Proof.
  intros H. unfold applyStatsToEntry. cbn [winRate entry].
  destruct (AddressStats.winRate stats) as [w|]; [|exact H].
  destruct (isFinite w); [apply clamp01_range | exact H].
Qed.

(** X29: the win rate of every entry handed to [persistPeriod] is a
    number between 0 and 1, or NaN (when the raw win rate was not a
    number): the raw value and the value of the statistics are both
    clamped. *)
Theorem refreshPeriod_winRate (rt : Runtime) (scoringParams : Scoring.ScoringParams)
    (maxTradesHardLimit : num) (selectCount enrichCount : nat)
    (raw : list Raw.LeaderboardRawEntry) (statsMap : StatsMap) (series : SeriesMap) :
  Forall (fun e : RankedEntry => nanOrWithin 0 1 (winRate e))
    (entries (refreshPeriod rt scoringParams maxTradesHardLimit selectCount enrichCount
                raw statsMap series)).
Proof.
  set (ranked := scoreEntries rt scoringParams maxTradesHardLimit selectCount raw).
  assert (R : Forall (fun e : RankedEntry => nanOrWithin 0 1 (winRate e)) ranked).
  { apply (Forall_map entry (fun e => nanOrWithin 0 1 (winRate e))).
    unfold ranked. rewrite scoreEntries_entries. apply sort_Forall.
    apply Forall_forall. intros e He.
    apply scoredOrFallback_incl in He. unfold base in He.
    apply filter_In in He. destruct He as (He & _).
    apply in_map_iff in He. destruct He as (r & <- & _). apply scoreEntry_winRate. }
  assert (E : forall n, Forall (fun e : RankedEntry => nanOrWithin 0 1 (winRate e))
                          (enrich statsMap n ranked)).
  { intros n. unfold enrich. apply Forall_app. split; [|now apply Forall_drop].
    unfold applyAddressStats. apply Forall_map.
    eapply Forall_impl; [|apply Forall_take; exact R].
    intros e He. cbv beta.
    destruct (statsMap _); [now apply applyStatsToEntry_winRate | exact He]. }
  rewrite refreshPeriod_entries. cbv zeta. fold ranked.
  set (n := Nat.min (length ranked) (Nat.max enrichCount (selectCount * 2))).
  destruct (firstn n ranked); [exact R|].
  destruct (0 <? _)%nat.
  - apply (Forall_proj (fun e : RankedEntry => winRate e) (nanOrWithin 0 1)
             (filter (keepEnriched scoringParams) (enrich statsMap n ranked))).
    + symmetry. apply (reweigh_proj selectCount winRate).
    + apply Forall_filter', E.
  - apply Forall_filter', E.
Qed.
